(** * ttie: a small tensor / layer / model engine

    Shallow embedding of [include/ttie/ttie.h] and proofs of the properties
    its specification states.

    Conventions of the embedding.

    - [float] arithmetic is taken through the interface [Scalar]; the code is
      embedded once, over any implementation of that interface, and then read
      at two of them: IEEE-754 binary32 (what [float] is on the platforms the
      library targets) and the real numbers (the arithmetic the formulas of
      the specification are written in).
    - [size_t] values are natural numbers; where the source computes a value
      that can leave the 64-bit range (the product in [Tensor::size], the
      difference [layers.size() - 1]) the wrap-around is written out with
      [wrap64].  Index expressions such as [i * out_features + j] are
      computed without wrap-around: an index that addresses an element of a
      buffer is below the buffer's length, hence below 2^63, and an index
      past the end is undefined behaviour with or without wrap-around.
    - A C++ exception is the [Err] result; indexing a [std::vector] past its
      end is undefined behaviour and is the distinguished error [Undefined].
    - A tensor passed by reference and modified in place is passed in and
      returned.  The source never passes the same tensor for the [const]
      input and the mutable output of one call. *)

From Stdlib Require Import ZArith Lia Reals Lra Floats.SpecFloat.
From stdpp Require Import base list.


(** ** Machine integers *)

Definition SIZE_MAX : Z := (2 ^ 64 - 1)%Z.

(** Reduction of a mathematical result into the range of [size_t]. *)
Definition wrap64 (z : Z) : nat := Z.to_nat (z mod 2 ^ 64)%Z.

(** [static_cast<int>] of a [size_t] value (two's complement, 32 bits). *)
Definition int_of_size (n : nat) : Z :=
  let r := (Z.of_nat n mod 2 ^ 32)%Z in
  if (r <? 2 ^ 31)%Z then r else (r - 2 ^ 32)%Z.

(** ** Exceptions and results *)

(** The [what()] of each exception the library throws. *)
Inductive what : Set :=
| Invalid_tensor_shape           (* "Invalid tensor shape" *)
| Forward_before_backward        (* "Forward pass must be called before backward pass" *)
| Same_size                      (* "Prediction and target tensors must have same size" *)
| Bn_input_shape                 (* input tensor must be [batch_size, num_features] / [N, C, H, W] / [N, C, D, H, W] *)
| Bn_channels                    (* number of channels must match num_features *)
| Bn_data_size                   (* size of the input data does not match shape *)
| Bn_grad_shape                  (* grad_output must be [...] *)
| Bn_grad_empty                  (* grad_output.grad is empty *)
| Bn_no_input                    (* input_data is empty, call forward() first *)
| Bn_input_size                  (* size of input_data does not match the expected one *)
| Bn_param_grad_size.            (* gradients of gamma or beta have the wrong size *)

Inductive exn : Set :=
| invalid_argument (w : what)    (* std::invalid_argument *)
| runtime_error (w : what)       (* std::runtime_error *)
| length_error                   (* std::length_error, from std::vector::resize *)
| Undefined.                     (* operator[] past the end of a vector *)

(** The error names of the specification. *)
Definition InvalidShape : exn := invalid_argument Invalid_tensor_shape.
Definition IllegalState : exn := runtime_error Forward_before_backward.
Definition SizeMismatch : exn := invalid_argument Same_size.

Inductive result (A : Type) : Type :=
| Ok (a : A)
| Err (e : exn).
Arguments Ok {A} a.
Arguments Err {A} e.

#[export] Instance result_ret : MRet result := @Ok.
#[export] Instance result_bind : MBind result := fun A B k r =>
  match r with
  | Ok a => k a
  | Err e => Err e
  end.

Definition is_ok {A} (r : result A) : bool :=
  match r with Ok _ => true | Err _ => false end.

(** ** std::vector *)

(** [std::vector<T>::max_size()] as libstdc++ computes it on an LP64
    platform: [PTRDIFF_MAX / sizeof(T)].  Growing a vector beyond it throws
    [std::length_error]; up to it, memory is taken to suffice. *)
Definition PTRDIFF_MAX : Z := (2 ^ 63 - 1)%Z.
Definition max_size (sizeof : Z) : Z := (PTRDIFF_MAX / sizeof)%Z.

(** [std::vector<float>::max_size()], with [sizeof(float) = 4]: [2^61 - 1]. *)
Definition vector_max_size : Z := Eval cbv in max_size 4.

(** [std::vector<Tensor>::max_size()]: a [Tensor] is three vectors, each of
    three pointers, so that [sizeof(Tensor) = 72]. *)
Definition tensors_max_size : Z := Eval cbv in max_size 72.

Section Vector.
Context {A : Type}.

(** [v[i]]. *)
Definition vget (v : list A) (i : nat) : result A :=
  match v !! i with
  | Some x => Ok x
  | None => Err Undefined
  end.

(** [v[i] = x]. *)
Definition vset (v : list A) (i : nat) (x : A) : result (list A) :=
  if i <? length v then Ok (<[i:=x]> v) else Err Undefined.

(** [v.resize(n)] on a vector whose [max_size()] is [limit]: keeps the first
    [n] elements, value-initialises new ones. *)
Definition vresize_within (limit : Z) (dflt : A) (n : nat) (v : list A) : result (list A) :=
  if (Z.of_nat n <=? limit)%Z then Ok (resize n dflt v) else Err length_error.

(** [v.resize(n)] on a [std::vector<float>]. *)
Definition vresize (dflt : A) (n : nat) (v : list A) : result (list A) :=
  vresize_within vector_max_size dflt n v.

(** [std::fill(v.begin(), v.end(), x)]. *)
Definition vfill (x : A) (v : list A) : list A := replicate (length v) x.
End Vector.

(** ** Loops *)

Section Loops.
Context {S : Type}.

(** [for (size_t i = from; i < from + count; ++i) body]. *)
Fixpoint for_loop (body : nat -> S -> result S) (from count : nat) (s : S) : result S :=
  match count with
  | O => Ok s
  | Datatypes.S c => s' ← body from s; for_loop body (Datatypes.S from) c s'
  end.

(** [for (size_t i = 0; i < n; ++i) body]. *)
Definition for_range (n : nat) (body : nat -> S -> result S) (s : S) : result S :=
  for_loop body 0 n s.

(** [for (int i = n - 1; i >= 0; --i) body], [n] being the number of rounds. *)
Fixpoint for_down (n : nat) (body : nat -> S -> result S) (s : S) : result S :=
  match n with
  | O => Ok s
  | Datatypes.S i => s' ← body i s; for_down i body s'
  end.

(** The same body run over an explicit list of indices. *)
Fixpoint foldM {I : Type} (body : I -> S -> result S) (l : list I) (s : S) : result S :=
  match l with
  | [] => Ok s
  | i :: l' => s' ← body i s; foldM body l' s'
  end.
End Loops.

(** ** Scalars *)

(** The operations the source applies to [float] values. *)
Class Scalar (F : Type) : Type := {
  f0 : F;                         (* 0.0f *)
  f1 : F;                         (* 1.0f *)
  fadd : F -> F -> F;
  fsub : F -> F -> F;
  fmul : F -> F -> F;
  fdiv : F -> F -> F;
  fneg : F -> F;
  flt : F -> F -> bool;           (* a < b *)
  fsqrt : F -> F;                 (* std::sqrt *)
  fexp : F -> F;                  (* std::exp *)
  ftanh : F -> F;                 (* std::tanh *)
  of_size : nat -> F              (* conversion of a size_t to float *)
}.

(** A value-initialised [float] is [0.0f]. *)
#[export] Instance scalar_inhabited {F : Type} {SF : Scalar F} : Inhabited F := populate f0.

(** ** Facts about results, vectors and loops *)

Lemma bind_Ok {A B} (a : A) (k : A → result B) : (Ok a ≫= k) = k a.
Proof. reflexivity. Qed.

Lemma bind_Err {A B} e (k : A → result B) : (Err e ≫= k) = Err e.
Proof. reflexivity. Qed.

Lemma bind_eq_Ok {A B} (r : result A) (k : A → result B) b :
  (r ≫= k) = Ok b → ∃ a, r = Ok a ∧ k a = Ok b.
Proof. destruct r as [a|e]; [eauto | discriminate]. Qed.

Lemma wrap64_small (n : nat) : (Z.of_nat n ≤ SIZE_MAX)%Z → wrap64 (Z.of_nat n) = n.
Proof.
  unfold wrap64, SIZE_MAX. intros Hn.
  rewrite Z.mod_small by lia. apply Nat2Z.id.
Qed.

Lemma vget_lookup {A} (v : list A) i x : v !! i = Some x → vget v i = Ok x.
Proof. unfold vget. by intros ->. Qed.

Lemma vget_total `{Inhabited A} (v : list A) i : i < length v → vget v i = Ok (v !!! i).
Proof.
  intros Hi. apply vget_lookup. by apply list_lookup_lookup_total_lt.
Qed.

Lemma vget_past {A} (v : list A) i : length v ≤ i → vget v i = Err Undefined.
Proof. unfold vget. intros Hi. by rewrite lookup_ge_None_2. Qed.

Lemma vset_within {A} (v : list A) i x : i < length v → vset v i x = Ok (<[i:=x]> v).
Proof. unfold vset. intros Hi. by rewrite (proj2 (Nat.ltb_lt _ _) Hi). Qed.

Lemma vset_past {A} (v : list A) i x : length v ≤ i → vset v i x = Err Undefined.
Proof. unfold vset. intros Hi. by rewrite (proj2 (Nat.ltb_ge _ _) Hi). Qed.

Lemma vresize_within_fits {A} limit (d : A) n v :
  (Z.of_nat n ≤ limit)%Z → vresize_within limit d n v = Ok (resize n d v).
Proof. unfold vresize_within. intros Hn. by rewrite (proj2 (Z.leb_le _ _) Hn). Qed.

Lemma vresize_within_too_long {A} limit (d : A) n v :
  (limit < Z.of_nat n)%Z → vresize_within limit d n v = Err length_error.
Proof. unfold vresize_within. intros Hn. by rewrite (proj2 (Z.leb_gt _ _) Hn). Qed.

Lemma vresize_fits {A} (d : A) n v :
  (Z.of_nat n ≤ vector_max_size)%Z → vresize d n v = Ok (resize n d v).
Proof. apply vresize_within_fits. Qed.

Lemma vresize_too_long {A} (d : A) n v :
  (vector_max_size < Z.of_nat n)%Z → vresize d n v = Err length_error.
Proof. apply vresize_within_too_long. Qed.

Lemma length_vfill {A} (x : A) v : length (vfill x v) = length v.
Proof. apply length_replicate. Qed.

Lemma lookup_vfill {A} (x : A) v i : i < length v → vfill x v !! i = Some x.
Proof. intros Hi. by apply lookup_replicate_2. Qed.

Section LoopFacts.
Context {S : Type}.
Implicit Types (s : S).

Lemma for_loop_foldM (body : nat → S → result S) from count s :
  for_loop body from count s = foldM body (seq from count) s.
Proof.
  revert from s. induction count as [|c IH]; intros from s; [done|].
  simpl. destruct (body from s); simpl; [apply IH | done].
Qed.

Lemma for_range_foldM n (body : nat → S → result S) s :
  for_range n body s = foldM body (seq 0 n) s.
Proof. apply for_loop_foldM. Qed.

Lemma foldM_app {I} (body : I → S → result S) l1 l2 s :
  foldM body (l1 ++ l2) s = (foldM body l1 s ≫= foldM body l2).
Proof.
  revert s. induction l1 as [|i l1 IH]; intros s; [done|].
  simpl. destruct (body i s); simpl; [apply IH | done].
Qed.

Lemma foldM_ext {I} (b1 b2 : I → S → result S) l s :
  (∀ i s, i ∈ l → b1 i s = b2 i s) → foldM b1 l s = foldM b2 l s.
Proof.
  revert s. induction l as [|i l IH]; intros s Hb; [done|].
  simpl. rewrite Hb by left. destruct (b2 i s); simpl; [|done].
  apply IH. intros j s' Hj. apply Hb. by right.
Qed.

Lemma foldM_map {I J} (f : I → J) (body : J → S → result S) l s :
  foldM body (f <$> l) s = foldM (λ i, body (f i)) l s.
Proof.
  revert s. induction l as [|i l IH]; intros s; [done|].
  simpl. destruct (body (f i) s); simpl; [apply IH | done].
Qed.

(** A loop nest is one loop over the concatenated index lists. *)
Lemma foldM_nest {I J} (g : I → list J) (body : J → S → result S) l s :
  foldM (λ i, foldM body (g i)) l s = foldM body (l ≫= g) s.
Proof.
  revert s. induction l as [|i l IH]; intros s; [done|].
  simpl. rewrite foldM_app. destruct (foldM body (g i) s); simpl; [apply IH | done].
Qed.

(** Invariant rule: a body that succeeds and keeps the invariant makes the
    loop succeed, and the accumulated relation holds of the final state. *)
Lemma foldM_inv {I} (P : list I → S → Prop) (body : I → S → result S) l s :
  P [] s →
  (∀ done i s, P done s → (∃ rest, l = done ++ i :: rest) →
     ∃ s', body i s = Ok s' ∧ P (done ++ [i]) s') →
  ∃ s', foldM body l s = Ok s' ∧ P l s'.
Proof.
  intros H0 Hstep.
  assert (∀ rest done s, l = done ++ rest → P done s →
    ∃ s', foldM body rest s = Ok s' ∧ P l s') as Hgen.
  { induction rest as [|i rest IH]; intros done s0 -> HP.
    - exists s0. by rewrite app_nil_r.
    - destruct (Hstep done i s0 HP) as (s1 & Hb & HP1); [eauto|].
      simpl. rewrite Hb. simpl.
      apply (IH (done ++ [i])); [by rewrite <- app_assoc | done]. }
  by apply (Hgen l []).
Qed.

(** A body that is a total function of the state, as long as an invariant
    holds, turns the loop into a plain fold. *)
Lemma foldM_pure {I} (Inv : S → Prop) (h : I → S → S) (body : I → S → result S) l s :
  Inv s →
  (∀ i s, i ∈ l → Inv s → body i s = Ok (h i s) ∧ Inv (h i s)) →
  foldM body l s = Ok (foldl (λ s i, h i s) s l) ∧ Inv (foldl (λ s i, h i s) s l).
Proof.
  revert s. induction l as [|i l IH]; intros s Hs Hb; [done|].
  destruct (Hb i s) as [Hi Hinv]; [by left | done |].
  simpl. rewrite Hi. simpl. apply IH; [done|].
  intros j s' Hj. apply Hb. by right.
Qed.
End LoopFacts.

(** Writing a list of (position, value) pairs into a buffer, in order. *)
Definition writes {A} (l : list (nat * A)) (d : list A) : list A :=
  foldl (λ d pv, <[pv.1 := pv.2]> d) d l.

Section Writes.
Context {A : Type}.
Implicit Types (d : list A) (l : list (nat * A)).

Lemma length_writes l d : length (writes l d) = length d.
Proof.
  unfold writes. revert d. induction l as [|[p v] l IH]; intros d; [done|].
  simpl. rewrite IH. apply length_insert.
Qed.

Lemma writes_app l1 l2 d : writes (l1 ++ l2) d = writes l2 (writes l1 d).
Proof. apply foldl_app. Qed.

Lemma lookup_writes_notin l d p :
  (∀ v, (p, v) ∉ l) → writes l d !! p = d !! p.
Proof.
  unfold writes. revert d. induction l as [|[q w] l IH]; intros d Hp; [done|].
  simpl. rewrite IH.
  - apply list_lookup_insert_ne. intros ->. apply (Hp w). by left.
  - intros v Hv. apply (Hp v). by right.
Qed.

(** The value found at a written position is the one every write to that
    position agrees on. *)
Lemma lookup_writes_in l d p v :
  p < length d → (∃ w, (p, w) ∈ l) → (∀ w, (p, w) ∈ l → w = v) →
  writes l d !! p = Some v.
Proof.
  revert d. induction l as [|[q w] l IH] using rev_ind; intros d Hp [w0 Hin] Hall.
  - by apply elem_of_nil in Hin.
  - rewrite writes_app. simpl. destruct (decide (q = p)) as [->|Hne].
    + rewrite list_lookup_insert_eq by (by rewrite length_writes).
      f_equal. apply Hall. apply elem_of_app. right. by left.
    + rewrite list_lookup_insert_ne by done.
      apply IH; [done| |].
      * exists w0. apply elem_of_app in Hin as [Hin|Hin]; [done|].
        apply list_elem_of_singleton in Hin. congruence.
      * intros w' Hw'. apply Hall. apply elem_of_app. by left.
Qed.
End Writes.

Lemma writes_fmap {A I} (pos : I → nat) (val : I → A) (l : list I) (d : list A) :
  writes ((λ i, (pos i, val i)) <$> l) d = foldl (λ d' i, <[pos i := val i]> d') d l.
Proof.
  unfold writes. revert d. induction l as [|i l IH]; intros d; [done|]. simpl. apply IH.
Qed.

(** A loop whose every round stores one value that does not depend on the
    buffer is the list of its writes. *)
Lemma foldM_writes {A I} (pos : I → nat) (val : I → A)
    (body : I → list A → result (list A)) (l : list I) (d : list A) :
  (∀ i d', i ∈ l → length d' = length d → body i d' = Ok (<[pos i := val i]> d')) →
  foldM body l d = Ok (writes ((λ i, (pos i, val i)) <$> l) d).
Proof.
  intros Hb. rewrite writes_fmap.
  apply (foldM_pure (λ d', length d' = length d) (λ i d', <[pos i := val i]> d')); [done|].
  intros i d' Hi Hd. split; [by apply Hb|]. by rewrite length_insert.
Qed.

(** Row-major positions. *)
Lemma rowmajor_lt r c rows cols : r < rows → c < cols → r * cols + c < rows * cols.
Proof. nia. Qed.

Lemma rowmajor_inj r c r' c' cols :
  c < cols → c' < cols → r * cols + c = r' * cols + c' → r = r' ∧ c = c'.
Proof.
  intros Hc Hc' Heq.
  assert (r = r') as ->; [|split; lia].
  destruct (Nat.lt_trichotomy r r') as [Hlt|[->|Hlt]]; [exfalso|done|exfalso].
  - assert (S r * cols ≤ r' * cols) by (apply Nat.mul_le_mono_r; lia). simpl in *. lia.
  - assert (S r' * cols ≤ r * cols) by (apply Nat.mul_le_mono_r; lia). simpl in *. lia.
Qed.

(** All pairs [(i, j)], [i < n], [j < m], in the order a loop nest visits them. *)
Definition pairs (n m : nat) : list (nat * nat) :=
  i ← seq 0 n; (λ j, (i, j)) <$> seq 0 m.

Lemma elem_of_pairs n m i j : (i, j) ∈ pairs n m ↔ i < n ∧ j < m.
Proof.
  unfold pairs. rewrite list_elem_of_bind. split.
  - intros (i' & Hj & Hi). apply list_elem_of_fmap in Hj as (j' & [= -> ->] & Hj).
    apply elem_of_seq in Hi, Hj. lia.
  - intros [Hi Hj]. exists i. split.
    + apply list_elem_of_fmap. exists j. split; [done|]. apply elem_of_seq. lia.
    + apply elem_of_seq. lia.
Qed.

Lemma for_range_nest2 {S} n m (body : nat → nat → S → result S) s :
  for_range n (λ i, for_range m (body i)) s = foldM (λ ij, body ij.1 ij.2) (pairs n m) s.
Proof.
  rewrite for_range_foldM. unfold pairs. rewrite <- foldM_nest.
  apply foldM_ext. intros i s' _. rewrite for_range_foldM. by rewrite foldM_map.
Qed.

(** * The engine *)

Section Engine.
Context {F : Type} {SF : Scalar F}.

(** ** Tensor *)

Record Tensor : Type := mkTensor {
  shape : list nat;
  data : list F;
  grad : list F
}.

(** A default-constructed tensor. *)
Definition Tensor_empty : Tensor := mkTensor [] [] [].

Definition with_shape (t : Tensor) (s : list nat) : Tensor := mkTensor s (data t) (grad t).
Definition with_data (t : Tensor) (d : list F) : Tensor := mkTensor (shape t) d (grad t).
Definition with_grad (t : Tensor) (g : list F) : Tensor := mkTensor (shape t) (data t) g.

Definition validate_shape (t : Tensor) : bool :=
  match shape t with
  | [] => false
  | _ => forallb (λ dim, negb (dim =? 0)) (shape t)
  end.

Definition size (t : Tensor) : result nat :=
  if validate_shape t
  then Ok (foldl (λ total dim, wrap64 (Z.of_nat total * Z.of_nat dim)) 1 (shape t))
  else Err InvalidShape.

Definition resize (t : Tensor) : result Tensor :=
  n ← size t; d ← vresize f0 n (data t); Ok (with_data t d).

Definition resize_grad (t : Tensor) : result Tensor :=
  n ← size t; g ← vresize f0 n (grad t); Ok (with_grad t g).

Definition zero_grad (t : Tensor) : Tensor := with_grad t (vfill f0 (grad t)).

(** ** Linear *)

Record Linear : Type := mkLinear {
  weight : Tensor;
  bias : Tensor
}.

(** The constructor draws its initial values from a random generator; the
    draws are the argument [dis], in the order they are made. *)
Definition Linear_new (in_features out_features : nat) (dis : nat → F) : result Linear :=
  weight ← resize (mkTensor [in_features; out_features] [] []);
  wd ← for_range (wrap64 (Z.of_nat in_features * Z.of_nat out_features))
         (λ i wd, vset wd i (dis i)) (data weight);
  bias ← resize (mkTensor [out_features] [] []);
  bd ← for_range out_features
         (λ i bd, vset bd i (dis (wrap64 (Z.of_nat in_features * Z.of_nat out_features) + i)))
         (data bias);
  Ok (mkLinear (with_data weight wd) (with_data bias bd)).

Definition Linear_forward (l : Linear) (input output : Tensor) : result Tensor :=
  in_features ← vget (shape (weight l)) 0;
  out_features ← vget (shape (weight l)) 1;
  batch ← vget (shape input) 0;
  output ← resize (with_shape output [batch; out_features]);
  d ← for_range batch (λ i,
        for_range out_features (λ j d,
          b ← vget (data (bias l)) j;
          d ← vset d (i * out_features + j) b;
          for_range in_features (λ k d,
            o ← vget d (i * out_features + j);
            x ← vget (data input) (i * in_features + k);
            w ← vget (data (weight l)) (k * out_features + j);
            vset d (i * out_features + j) (fadd o (fmul x w))) d))
        (data output);
  Ok (with_data output d).

(** [backward(output, input)]: [output] carries the upstream gradient in its
    [grad], [input] is the tensor [forward] read; the layer's parameter
    gradients and [input.grad] are written. *)
Definition Linear_backward (l : Linear) (output input : Tensor) : result (Linear * Tensor) :=
  in_features ← vget (shape (weight l)) 0;
  out_features ← vget (shape (weight l)) 1;
  batch_size ← vget (shape output) 0;
  input ← resize_grad input;
  weight ← resize_grad (weight l);
  bias ← resize_grad (bias l);
  '(ig, wg) ← for_range batch_size (λ i,
        for_range in_features (λ j '(ig, wg),
          ig ← vset ig (i * in_features + j) f0;
          for_range out_features (λ k '(ig, wg),
            a ← vget ig (i * in_features + j);
            og ← vget (grad output) (i * out_features + k);
            w ← vget (data weight) (j * out_features + k);
            ig ← vset ig (i * in_features + j) (fadd a (fmul og w));
            b ← vget wg (j * out_features + k);
            x ← vget (data input) (i * in_features + j);
            wg ← vset wg (j * out_features + k) (fadd b (fmul og x));
            Ok (ig, wg)) (ig, wg)))
        (grad input, grad weight);
  bg ← for_range batch_size (λ i,
        for_range out_features (λ k bg,
          b ← vget bg k;
          og ← vget (grad output) (i * out_features + k);
          vset bg k (fadd b og)))
        (grad bias);
  Ok (mkLinear (with_grad weight wg) (with_grad bias bg), with_grad input ig).

(** ** Activations *)

(** [std::max(0.0f, x)]. *)
Definition relu (x : F) : F := if flt f0 x then x else f0.

Definition ReLU_forward (input output : Tensor) : result Tensor :=
  output ← resize (with_shape output (shape input));
  d ← for_range (length (data input)) (λ i d,
        x ← vget (data input) i;
        vset d i (relu x))
        (data output);
  Ok (with_data output d).

Definition ReLU_backward (output input : Tensor) : result Tensor :=
  input ← resize_grad input;
  g ← for_range (length (data output)) (λ i g,
        o ← vget (data output) i;
        v ← (if flt f0 o then vget (grad output) i else Ok f0);
        vset g i v)
        (grad input);
  Ok (with_grad input g).

Definition Sigmoid_forward (input output : Tensor) : result Tensor :=
  output ← resize (with_shape output (shape input));
  d ← for_range (length (data input)) (λ i d,
        x ← vget (data input) i;
        vset d i (fdiv f1 (fadd f1 (fexp (fneg x)))))
        (data output);
  Ok (with_data output d).

Definition Sigmoid_backward (output input : Tensor) : result Tensor :=
  input ← resize_grad input;
  g ← for_range (length (data output)) (λ i g,
        s ← vget (data output) i;
        og ← vget (grad output) i;
        vset g i (fmul (fmul og s) (fsub f1 s)))
        (grad input);
  Ok (with_grad input g).

Definition Tanh_forward (input output : Tensor) : result Tensor :=
  output ← resize (with_shape output (shape input));
  d ← for_range (length (data input)) (λ i d,
        x ← vget (data input) i;
        vset d i (ftanh x))
        (data output);
  Ok (with_data output d).

Definition Tanh_backward (output input : Tensor) : result Tensor :=
  input ← resize_grad input;
  g ← for_range (length (data output)) (λ i g,
        t ← vget (data output) i;
        og ← vget (grad output) i;
        vset g i (fmul og (fsub f1 (fmul t t))))
        (grad input);
  Ok (with_grad input g).

(** ** mse_loss *)

Definition mse_loss (pred target : Tensor) : result Tensor :=
  if negb (length (data pred) =? length (data target)) then Err SizeMismatch
  else
    loss ← resize (mkTensor [1] [] []);
    d ← vset (data loss) 0 f0;
    d ← for_range (length (data pred)) (λ i d,
          p ← vget (data pred) i;
          t ← vget (data target) i;
          let diff := fsub p t in
          o ← vget d 0;
          vset d 0 (fadd o (fmul diff diff)))
          d;
    o ← vget d 0;
    d ← vset d 0 (fdiv o (of_size (length (data pred))));
    Ok (with_data loss d).
(** ** BatchNorm1d, BatchNorm2d, BatchNorm3d *)

(** The three classes declare the same members and the same constructor; they
    differ in [forward] and [backward].  One record holds the members. *)
Record BatchNorm : Type := mkBatchNorm {
  num_features : nat;
  eps : F;
  momentum : F;
  affine : bool;
  track_running_stats : bool;
  gamma : Tensor;
  beta : Tensor;
  running_mean : Tensor;
  running_var : Tensor;
  input_data : list F;
  first_update : bool
}.

Definition with_gamma (l : BatchNorm) (t : Tensor) : BatchNorm :=
  mkBatchNorm (num_features l) (eps l) (momentum l) (affine l) (track_running_stats l)
    t (beta l) (running_mean l) (running_var l) (input_data l) (first_update l).
Definition with_beta (l : BatchNorm) (t : Tensor) : BatchNorm :=
  mkBatchNorm (num_features l) (eps l) (momentum l) (affine l) (track_running_stats l)
    (gamma l) t (running_mean l) (running_var l) (input_data l) (first_update l).
Definition with_running_mean (l : BatchNorm) (t : Tensor) : BatchNorm :=
  mkBatchNorm (num_features l) (eps l) (momentum l) (affine l) (track_running_stats l)
    (gamma l) (beta l) t (running_var l) (input_data l) (first_update l).
Definition with_running_var (l : BatchNorm) (t : Tensor) : BatchNorm :=
  mkBatchNorm (num_features l) (eps l) (momentum l) (affine l) (track_running_stats l)
    (gamma l) (beta l) (running_mean l) t (input_data l) (first_update l).
Definition with_input_data (l : BatchNorm) (d : list F) : BatchNorm :=
  mkBatchNorm (num_features l) (eps l) (momentum l) (affine l) (track_running_stats l)
    (gamma l) (beta l) (running_mean l) (running_var l) d (first_update l).
Definition with_first_update (l : BatchNorm) (b : bool) : BatchNorm :=
  mkBatchNorm (num_features l) (eps l) (momentum l) (affine l) (track_running_stats l)
    (gamma l) (beta l) (running_mean l) (running_var l) (input_data l) b.

(** The constructor; [dis] are the draws of the generator for [gamma]. *)
Definition BatchNorm_new (num_features : nat) (eps momentum : F)
    (affine track_running_stats : bool) (dis : nat → F) : result BatchNorm :=
  '(gamma, beta) ←
    (if affine then
       gamma ← resize (mkTensor [num_features] [] []);
       gamma ← resize_grad gamma;
       beta ← resize (mkTensor [num_features] [] []);
       beta ← resize_grad beta;
       '(gd, bd) ← for_range num_features (λ i '(gd, bd),
             gd ← vset gd i (dis i);
             bd ← vset bd i f0;
             Ok (gd, bd))
             (data gamma, data beta);
       Ok (with_data gamma gd, with_data beta bd)
     else Ok (Tensor_empty, Tensor_empty));
  '(running_mean, running_var) ←
    (if track_running_stats then
       running_mean ← resize (mkTensor [num_features] [] []);
       running_var ← resize (mkTensor [num_features] [] []);
       Ok (running_mean, running_var)
     else Ok (Tensor_empty, Tensor_empty));
  Ok (mkBatchNorm num_features eps momentum affine track_running_stats
        gamma beta running_mean running_var [] true).

Definition BatchNorm1d_new := BatchNorm_new.
Definition BatchNorm2d_new := BatchNorm_new.
Definition BatchNorm3d_new := BatchNorm_new.

(** The statements under [if (track_running_stats)], the same in the three
    classes, for channel [c]. *)
Definition update_running (l : BatchNorm) (c : nat) (mean var : F) : result BatchNorm :=
  if track_running_stats l then
    if first_update l then
      rm ← vset (data (running_mean l)) c mean;
      rv ← vset (data (running_var l)) c var;
      Ok (with_running_var (with_running_mean l (with_data (running_mean l) rm))
            (with_data (running_var l) rv))
    else
      m ← vget (data (running_mean l)) c;
      rm ← vset (data (running_mean l)) c
             (fadd (fmul (fsub f1 (momentum l)) m) (fmul (momentum l) mean));
      v ← vget (data (running_var l)) c;
      rv ← vset (data (running_var l)) c
             (fadd (fmul (fsub f1 (momentum l)) v) (fmul (momentum l) var));
      Ok (with_running_var (with_running_mean l (with_data (running_mean l) rm))
            (with_data (running_var l) rv))
  else Ok l.

(** [affine ? gamma.data[c] * x_hat + beta.data[c] : x_hat]. *)
Definition scale_shift (l : BatchNorm) (c : nat) (x_hat : F) : result F :=
  if affine l then
    g ← vget (data (gamma l)) c;
    b ← vget (data (beta l)) c;
    Ok (fadd (fmul g x_hat) b)
  else Ok x_hat.

(** [affine ? gamma.data[c] : 1.0f]. *)
Definition gamma_value (l : BatchNorm) (c : nat) : result F :=
  if affine l then vget (data (gamma l)) c else Ok f1.

(** [if (affine) { beta.grad[c] += dy; gamma.grad[c] += dy * x_hat; }]. *)
Definition accumulate_affine (l : BatchNorm) (c : nat) (dy x_hat : F) : result BatchNorm :=
  if affine l then
    b ← vget (grad (beta l)) c;
    bg ← vset (grad (beta l)) c (fadd b dy);
    g ← vget (grad (gamma l)) c;
    gg ← vset (grad (gamma l)) c (fadd g (fmul dy x_hat));
    Ok (with_gamma (with_beta l (with_grad (beta l) bg)) (with_grad (gamma l) gg))
  else Ok l.

(** [term1 - term2 - term3] of the three [backward] bodies. *)
Definition input_gradient (dy inv_std gamma_val sum_dy sum_dy_x_hat x_hat factor : F) : F :=
  let dx_hat := dy in
  let term1 := fmul (fmul dx_hat inv_std) gamma_val in
  let term2 := fmul (fdiv (fmul inv_std sum_dy) factor) gamma_val in
  let term3 := fmul (fdiv (fmul (fmul inv_std x_hat) sum_dy_x_hat) factor) gamma_val in
  fsub (fsub term1 term2) term3.

Definition BatchNorm1d_forward (l : BatchNorm) (input output : Tensor)
    : result (BatchNorm * Tensor) :=
  if negb (length (shape input) =? 2) || negb (shape input !!! 1 =? num_features l)
  then Err (invalid_argument Bn_input_shape)
  else
    batch_size ← vget (shape input) 0;
    output ← resize (with_shape output [batch_size; num_features l]);
    let l := with_input_data l (data input) in
    '(l, od) ← for_range (num_features l) (λ f '(l, od),
          mean ← for_range batch_size (λ b mean,
                x ← vget (data input) (b * num_features l + f);
                Ok (fadd mean x)) f0;
          let mean := fdiv mean (of_size batch_size) in
          var ← for_range batch_size (λ b var,
                x ← vget (data input) (b * num_features l + f);
                let diff := fsub x mean in
                Ok (fadd var (fmul diff diff))) f0;
          let var := fdiv var (of_size batch_size) in
          l ← update_running l f mean var;
          let inv_std := fdiv f1 (fsqrt (fadd var (eps l))) in
          od ← for_range batch_size (λ b od,
                x ← vget (data input) (b * num_features l + f);
                let x_hat := fmul (fsub x mean) inv_std in
                y ← scale_shift l f x_hat;
                vset od (b * num_features l + f) y) od;
          Ok (l, od))
          (l, data output);
    Ok (with_first_update l false, with_data output od).

Definition BatchNorm1d_backward (l : BatchNorm) (grad_output grad_input : Tensor)
    : result (BatchNorm * Tensor) :=
  if negb (length (shape grad_output) =? 2)
     || negb (shape grad_output !!! 1 =? num_features l)
  then Err (invalid_argument Bn_grad_shape)
  else if length (grad grad_output) =? 0 then Err (runtime_error Bn_grad_empty)
  else if length (input_data l) =? 0 then Err (runtime_error Bn_no_input)
  else if negb (length (input_data l)
                =? wrap64 (Z.of_nat (shape grad_output !!! 0) * Z.of_nat (num_features l)))
  then Err (runtime_error Bn_input_size)
  else
    batch_size ← vget (shape grad_output) 0;
    grad_input ← resize (with_shape grad_input [batch_size; num_features l]);
    grad_input ← resize_grad grad_input;
    '(l, gi) ← for_range (num_features l) (λ f '(l, gi),
          mean ← for_range batch_size (λ b mean,
                x ← vget (input_data l) (b * num_features l + f);
                Ok (fadd mean x)) f0;
          let mean := fdiv mean (of_size batch_size) in
          var ← for_range batch_size (λ b var,
                x ← vget (input_data l) (b * num_features l + f);
                let diff := fsub x mean in
                Ok (fadd var (fmul diff diff))) f0;
          let var := fdiv var (of_size batch_size) in
          let inv_std := fdiv f1 (fsqrt (fadd var (eps l))) in
          x_hat ← vresize f0 batch_size [];
          x_hat ← for_range batch_size (λ b x_hat,
                x ← vget (input_data l) (b * num_features l + f);
                vset x_hat b (fmul (fsub x mean) inv_std)) x_hat;
          '(sum_dy, sum_dy_x_hat) ← for_range batch_size (λ b '(sum_dy, sum_dy_x_hat),
                dy ← vget (grad grad_output) (b * num_features l + f);
                xh ← vget x_hat b;
                Ok (fadd sum_dy dy, fadd sum_dy_x_hat (fmul dy xh))) (f0, f0);
          let factor := of_size batch_size in
          gamma_val ← gamma_value l f;
          for_range batch_size (λ b '(l, gi),
                dy ← vget (grad grad_output) (b * num_features l + f);
                xh ← vget x_hat b;
                gi ← vset gi (b * num_features l + f)
                       (input_gradient dy inv_std gamma_val sum_dy sum_dy_x_hat xh factor);
                l ← accumulate_affine l f dy xh;
                Ok (l, gi)) (l, gi))
          (l, grad grad_input);
    Ok (l, with_grad grad_input gi).

Definition BatchNorm2d_forward (l : BatchNorm) (input output : Tensor)
    : result (BatchNorm * Tensor) :=
  if negb (length (shape input) =? 4) then Err (invalid_argument Bn_input_shape)
  else if negb (shape input !!! 1 =? num_features l) then Err (invalid_argument Bn_channels)
  else
    total ← size input;
    if negb (length (data input) =? total) then Err (runtime_error Bn_data_size)
    else
    N ← vget (shape input) 0;
    C ← vget (shape input) 1;
    H ← vget (shape input) 2;
    W ← vget (shape input) 3;
    output ← resize (with_shape output [N; C; H; W]);
    let l := with_input_data l (data input) in
    '(l, od) ← for_range C (λ c '(l, od),
          let count := wrap64 (Z.of_nat N * Z.of_nat H * Z.of_nat W) in
          mean ← for_range N (λ n,
                  for_range H (λ h,
                    for_range W (λ w mean,
                x ← vget (data input) (n * C * H * W + c * H * W + h * W + w);
                Ok (fadd mean x)))) f0;
          let mean := fdiv mean (of_size count) in
          var ← for_range N (λ n,
                 for_range H (λ h,
                   for_range W (λ w var,
                x ← vget (data input) (n * C * H * W + c * H * W + h * W + w);
                let diff := fsub x mean in
                Ok (fadd var (fmul diff diff))))) f0;
          let var := fdiv var (of_size count) in
          l ← update_running l c mean var;
          let inv_std := fdiv f1 (fsqrt (fadd var (eps l))) in
          od ← for_range N (λ n,
                for_range H (λ h,
                  for_range W (λ w od,
                x ← vget (data input) (n * C * H * W + c * H * W + h * W + w);
                let x_hat := fmul (fsub x mean) inv_std in
                y ← scale_shift l c x_hat;
                vset od (n * C * H * W + c * H * W + h * W + w) y))) od;
          Ok (l, od))
          (l, data output);
    Ok (with_first_update l false, with_data output od).

Definition BatchNorm2d_backward (l : BatchNorm) (grad_output grad_input : Tensor)
    : result (BatchNorm * Tensor) :=
  if length (input_data l) =? 0 then Err (runtime_error Bn_no_input)
  else if negb (length (shape grad_output) =? 4)
          || negb (shape grad_output !!! 1 =? num_features l)
  then Err (invalid_argument Bn_grad_shape)
  else if length (grad grad_output) =? 0 then Err (runtime_error Bn_grad_empty)
  else if negb (length (input_data l)
                =? wrap64 (Z.of_nat (shape grad_output !!! 0) * Z.of_nat (num_features l) * Z.of_nat (shape grad_output !!! 2) * Z.of_nat (shape grad_output !!! 3)))
  then Err (runtime_error Bn_input_size)
  else if affine l
          && (negb (length (grad (gamma l)) =? num_features l)
              || negb (length (grad (beta l)) =? num_features l))
  then Err (runtime_error Bn_param_grad_size)
  else
    N ← vget (shape grad_output) 0;
    C ← vget (shape grad_output) 1;
    H ← vget (shape grad_output) 2;
    W ← vget (shape grad_output) 3;
    grad_input ← resize (with_shape grad_input [N; C; H; W]);
    grad_input ← resize_grad grad_input;
    let l := if affine l
             then with_beta (with_gamma l (with_grad (gamma l) (vfill f0 (grad (gamma l)))))
                    (with_grad (beta l) (vfill f0 (grad (beta l))))
             else l in
    '(l, gi) ← for_range C (λ c '(l, gi),
          let count := wrap64 (Z.of_nat N * Z.of_nat H * Z.of_nat W) in
          mean ← for_range N (λ n,
                  for_range H (λ h,
                    for_range W (λ w mean,
                x ← vget (input_data l) (n * C * H * W + c * H * W + h * W + w);
                Ok (fadd mean x)))) f0;
          let mean := fdiv mean (of_size count) in
          var ← for_range N (λ n,
                 for_range H (λ h,
                   for_range W (λ w var,
                x ← vget (input_data l) (n * C * H * W + c * H * W + h * W + w);
                let diff := fsub x mean in
                Ok (fadd var (fmul diff diff))))) f0;
          let var := fdiv var (of_size count) in
          let inv_std := fdiv f1 (fsqrt (fadd var (eps l))) in
          gamma_val ← gamma_value l c;
          x_hat ← vresize f0 count [];
          '(x_hat, sum_dy, sum_dy_x_hat, pos) ←
            for_range N (λ n,
              for_range H (λ h,
                for_range W (λ w '(x_hat, sum_dy, sum_dy_x_hat, pos),
                x ← vget (input_data l) (n * C * H * W + c * H * W + h * W + w);
                x_hat ← vset x_hat pos (fmul (fsub x mean) inv_std);
                dy ← vget (grad grad_output) (n * C * H * W + c * H * W + h * W + w);
                xh ← vget x_hat pos;
                Ok (x_hat, fadd sum_dy dy, fadd sum_dy_x_hat (fmul dy xh), S pos)))) (x_hat, f0, f0, 0);
          '(l, gi, pos) ←
            for_range N (λ n,
              for_range H (λ h,
                for_range W (λ w '(l, gi, pos),
                dy ← vget (grad grad_output) (n * C * H * W + c * H * W + h * W + w);
                xh ← vget x_hat pos;
                gi ← vset gi (n * C * H * W + c * H * W + h * W + w)
                       (input_gradient dy inv_std gamma_val sum_dy sum_dy_x_hat xh
                          (of_size count));
                l ← accumulate_affine l c dy xh;
                Ok (l, gi, S pos)))) (l, gi, 0);
          Ok (l, gi))
          (l, grad grad_input);
    Ok (l, with_grad grad_input gi).

Definition BatchNorm3d_forward (l : BatchNorm) (input output : Tensor)
    : result (BatchNorm * Tensor) :=
  if negb (length (shape input) =? 5) then Err (invalid_argument Bn_input_shape)
  else if negb (shape input !!! 1 =? num_features l) then Err (invalid_argument Bn_channels)
  else
    total ← size input;
    if negb (length (data input) =? total) then Err (runtime_error Bn_data_size)
    else
    N ← vget (shape input) 0;
    C ← vget (shape input) 1;
    D ← vget (shape input) 2;
    H ← vget (shape input) 3;
    W ← vget (shape input) 4;
    output ← resize (with_shape output [N; C; D; H; W]);
    let l := with_input_data l (data input) in
    '(l, od) ← for_range C (λ c '(l, od),
          let count := wrap64 (Z.of_nat N * Z.of_nat D * Z.of_nat H * Z.of_nat W) in
          mean ← for_range N (λ n,
                  for_range D (λ d,
                    for_range H (λ h,
                      for_range W (λ w mean,
                x ← vget (data input) (n * C * D * H * W + c * D * H * W + d * H * W + h * W + w);
                Ok (fadd mean x))))) f0;
          let mean := fdiv mean (of_size count) in
          var ← for_range N (λ n,
                 for_range D (λ d,
                   for_range H (λ h,
                     for_range W (λ w var,
                x ← vget (data input) (n * C * D * H * W + c * D * H * W + d * H * W + h * W + w);
                let diff := fsub x mean in
                Ok (fadd var (fmul diff diff)))))) f0;
          let var := fdiv var (of_size count) in
          l ← update_running l c mean var;
          let inv_std := fdiv f1 (fsqrt (fadd var (eps l))) in
          od ← for_range N (λ n,
                for_range D (λ d,
                  for_range H (λ h,
                    for_range W (λ w od,
                x ← vget (data input) (n * C * D * H * W + c * D * H * W + d * H * W + h * W + w);
                let x_hat := fmul (fsub x mean) inv_std in
                y ← scale_shift l c x_hat;
                vset od (n * C * D * H * W + c * D * H * W + d * H * W + h * W + w) y)))) od;
          Ok (l, od))
          (l, data output);
    Ok (with_first_update l false, with_data output od).

Definition BatchNorm3d_backward (l : BatchNorm) (grad_output grad_input : Tensor)
    : result (BatchNorm * Tensor) :=
  if length (input_data l) =? 0 then Err (runtime_error Bn_no_input)
  else if negb (length (shape grad_output) =? 5)
          || negb (shape grad_output !!! 1 =? num_features l)
  then Err (invalid_argument Bn_grad_shape)
  else if length (grad grad_output) =? 0 then Err (runtime_error Bn_grad_empty)
  else if negb (length (input_data l)
                =? wrap64 (Z.of_nat (shape grad_output !!! 0) * Z.of_nat (num_features l) * Z.of_nat (shape grad_output !!! 2) * Z.of_nat (shape grad_output !!! 3) * Z.of_nat (shape grad_output !!! 4)))
  then Err (runtime_error Bn_input_size)
  else if affine l
          && (negb (length (grad (gamma l)) =? num_features l)
              || negb (length (grad (beta l)) =? num_features l))
  then Err (runtime_error Bn_param_grad_size)
  else
    N ← vget (shape grad_output) 0;
    C ← vget (shape grad_output) 1;
    D ← vget (shape grad_output) 2;
    H ← vget (shape grad_output) 3;
    W ← vget (shape grad_output) 4;
    grad_input ← resize (with_shape grad_input [N; C; D; H; W]);
    grad_input ← resize_grad grad_input;
    let l := if affine l
             then with_beta (with_gamma l (with_grad (gamma l) (vfill f0 (grad (gamma l)))))
                    (with_grad (beta l) (vfill f0 (grad (beta l))))
             else l in
    '(l, gi) ← for_range C (λ c '(l, gi),
          let count := wrap64 (Z.of_nat N * Z.of_nat D * Z.of_nat H * Z.of_nat W) in
          mean ← for_range N (λ n,
                  for_range D (λ d,
                    for_range H (λ h,
                      for_range W (λ w mean,
                x ← vget (input_data l) (n * C * D * H * W + c * D * H * W + d * H * W + h * W + w);
                Ok (fadd mean x))))) f0;
          let mean := fdiv mean (of_size count) in
          var ← for_range N (λ n,
                 for_range D (λ d,
                   for_range H (λ h,
                     for_range W (λ w var,
                x ← vget (input_data l) (n * C * D * H * W + c * D * H * W + d * H * W + h * W + w);
                let diff := fsub x mean in
                Ok (fadd var (fmul diff diff)))))) f0;
          let var := fdiv var (of_size count) in
          let inv_std := fdiv f1 (fsqrt (fadd var (eps l))) in
          gamma_val ← gamma_value l c;
          x_hat ← vresize f0 count [];
          '(x_hat, sum_dy, sum_dy_x_hat, pos) ←
            for_range N (λ n,
              for_range D (λ d,
                for_range H (λ h,
                  for_range W (λ w '(x_hat, sum_dy, sum_dy_x_hat, pos),
                x ← vget (input_data l) (n * C * D * H * W + c * D * H * W + d * H * W + h * W + w);
                x_hat ← vset x_hat pos (fmul (fsub x mean) inv_std);
                dy ← vget (grad grad_output) (n * C * D * H * W + c * D * H * W + d * H * W + h * W + w);
                xh ← vget x_hat pos;
                Ok (x_hat, fadd sum_dy dy, fadd sum_dy_x_hat (fmul dy xh), S pos))))) (x_hat, f0, f0, 0);
          '(l, gi, pos) ←
            for_range N (λ n,
              for_range D (λ d,
                for_range H (λ h,
                  for_range W (λ w '(l, gi, pos),
                dy ← vget (grad grad_output) (n * C * D * H * W + c * D * H * W + d * H * W + h * W + w);
                xh ← vget x_hat pos;
                gi ← vset gi (n * C * D * H * W + c * D * H * W + d * H * W + h * W + w)
                       (input_gradient dy inv_std gamma_val sum_dy sum_dy_x_hat xh
                          (of_size count));
                l ← accumulate_affine l c dy xh;
                Ok (l, gi, S pos))))) (l, gi, 0);
          Ok (l, gi))
          (l, grad grad_input);
    Ok (l, with_grad grad_input gi).
(** ** Layer *)

(** The classes derived from [Layer]; a virtual call dispatches on the
    constructor.  The activation layers have no members. *)
Inductive Layer : Type :=
| Linear_layer (l : Linear)
| ReLU_layer
| Sigmoid_layer
| Tanh_layer
| BatchNorm1d_layer (l : BatchNorm)
| BatchNorm2d_layer (l : BatchNorm)
| BatchNorm3d_layer (l : BatchNorm).

(** [layer->forward(input, output)]. *)
Definition Layer_forward (layer : Layer) (input output : Tensor) : result (Layer * Tensor) :=
  match layer with
  | Linear_layer l => output ← Linear_forward l input output; Ok (layer, output)
  | ReLU_layer => output ← ReLU_forward input output; Ok (layer, output)
  | Sigmoid_layer => output ← Sigmoid_forward input output; Ok (layer, output)
  | Tanh_layer => output ← Tanh_forward input output; Ok (layer, output)
  | BatchNorm1d_layer l =>
      '(l, output) ← BatchNorm1d_forward l input output; Ok (BatchNorm1d_layer l, output)
  | BatchNorm2d_layer l =>
      '(l, output) ← BatchNorm2d_forward l input output; Ok (BatchNorm2d_layer l, output)
  | BatchNorm3d_layer l =>
      '(l, output) ← BatchNorm3d_forward l input output; Ok (BatchNorm3d_layer l, output)
  end.

(** [layer->backward(grad_output, grad_input)]. *)
Definition Layer_backward (layer : Layer) (grad_output grad_input : Tensor)
    : result (Layer * Tensor) :=
  match layer with
  | Linear_layer l =>
      '(l, grad_input) ← Linear_backward l grad_output grad_input;
      Ok (Linear_layer l, grad_input)
  | ReLU_layer => grad_input ← ReLU_backward grad_output grad_input; Ok (layer, grad_input)
  | Sigmoid_layer => grad_input ← Sigmoid_backward grad_output grad_input; Ok (layer, grad_input)
  | Tanh_layer => grad_input ← Tanh_backward grad_output grad_input; Ok (layer, grad_input)
  | BatchNorm1d_layer l =>
      '(l, grad_input) ← BatchNorm1d_backward l grad_output grad_input;
      Ok (BatchNorm1d_layer l, grad_input)
  | BatchNorm2d_layer l =>
      '(l, grad_input) ← BatchNorm2d_backward l grad_output grad_input;
      Ok (BatchNorm2d_layer l, grad_input)
  | BatchNorm3d_layer l =>
      '(l, grad_input) ← BatchNorm3d_backward l grad_output grad_input;
      Ok (BatchNorm3d_layer l, grad_input)
  end.

(** ** Model *)

Record Model : Type := mkModel {
  layers : list Layer;
  activations : list Tensor
}.

Definition Model_new : Model := mkModel [] [].

Definition add_layer (m : Model) (layer : Layer) : Model :=
  mkModel (layers m ++ [layer]) (activations m).

(** What a [Tensor*] of [forward] and [backward] can point to: the tensor the
    caller passed by mutable reference, or an element of [activations]. *)
Inductive tensor_ptr : Type :=
| to_argument
| to_activation (i : nat).

(** What a [const Tensor*] can point to: the tensor the caller passed by
    [const] reference, or what a [Tensor*] points to. *)
Inductive const_tensor_ptr : Type :=
| to_const_argument
| to_mutable (p : tensor_ptr).

(** The tensors in reach of the two loops: the [const] argument, the mutable
    argument and the activations. *)
Record tensors : Type := mkTensors {
  const_argument : Tensor;
  argument : Tensor;
  cache : list Tensor
}.

(** [*p] *)
Definition load (ts : tensors) (p : tensor_ptr) : result Tensor :=
  match p with
  | to_argument => Ok (argument ts)
  | to_activation i => vget (cache ts) i
  end.

Definition load_const (ts : tensors) (p : const_tensor_ptr) : result Tensor :=
  match p with
  | to_const_argument => Ok (const_argument ts)
  | to_mutable p => load ts p
  end.

(** [*p = t] *)
Definition store (ts : tensors) (p : tensor_ptr) (t : Tensor) : result tensors :=
  match p with
  | to_argument => Ok (mkTensors (const_argument ts) t (cache ts))
  | to_activation i => c ← vset (cache ts) i t; Ok (mkTensors (const_argument ts) (argument ts) c)
  end.

Definition Model_forward (m : Model) (input output : Tensor) : result (Model * Tensor) :=
  acts ← vresize_within tensors_max_size Tensor_empty
           (wrap64 (Z.of_nat (length (layers m)) - 1)) (activations m);
  '(ls, ts, _) ← for_range (length (layers m)) (λ i '(ls, ts, current),
        let next := if i =? wrap64 (Z.of_nat (length ls) - 1)
                    then to_argument else to_activation i in
        layer ← vget ls i;
        src ← load_const ts current;
        dst ← load ts next;
        '(layer, dst) ← Layer_forward layer src dst;
        ls ← vset ls i layer;
        ts ← store ts next dst;
        Ok (ls, ts, to_mutable next))
        (layers m, mkTensors input output acts, to_const_argument);
  Ok (mkModel ls (cache ts), argument ts).

Definition Model_backward (m : Model) (output input : Tensor) : result (Model * Tensor) :=
  if negb (length (activations m) =? wrap64 (Z.of_nat (length (layers m)) - 1))
  then Err IllegalState
  else
    let start := int_of_size (wrap64 (Z.of_nat (length (layers m)) - 1)) in
    '(ls, ts, _) ← for_down (Z.to_nat (start + 1)) (λ i '(ls, ts, current),
          let prev := if 0 <? i then to_activation (i - 1) else to_argument in
          layer ← vget ls i;
          src ← load_const ts current;
          dst ← load ts prev;
          '(layer, dst) ← Layer_backward layer src dst;
          ls ← vset ls i layer;
          ts ← store ts prev dst;
          Ok (ls, ts, to_mutable prev))
          (layers m, mkTensors output input (activations m), to_const_argument);
    Ok (mkModel ls (cache ts), argument ts).
End Engine.

Arguments Tensor F : clear implicits.
Arguments Linear F : clear implicits.
Arguments BatchNorm F : clear implicits.
Arguments Layer F : clear implicits.
Arguments Model F : clear implicits.
Arguments tensors F : clear implicits.

(** * Two arithmetics *)

(** ** IEEE-754 binary32 *)

Module Binary32.

Definition prec : Z := 24.
Definition emax : Z := 128.

(** Conversion of an integer, rounding to nearest even. *)
Definition of_Z (z : Z) : spec_float := binary_normalize prec emax z 0 false.

(** The float nearest to the decimal [n / 10 ^ digits], as a literal such as
    [0.32f] denotes it. *)
Definition decimal (n : Z) (digits : nat) : spec_float :=
  SFdiv prec emax (of_Z n) (of_Z (10 ^ Z.of_nat digits)).

Definition is_finite (x : spec_float) : bool :=
  match x with
  | S754_zero _ | S754_finite _ _ _ => true
  | _ => false
  end.

(** [x == 0.0f] *)
Definition is_zero (x : spec_float) : bool :=
  match x with
  | S754_zero _ => true
  | _ => false
  end.

Definition is_nan (x : spec_float) : bool :=
  match x with
  | S754_nan => true
  | _ => false
  end.

(** The rational a finite float stands for, as a numerator and the
    (positive) denominator. *)
Definition to_fraction (x : spec_float) : Z * Z :=
  match x with
  | S754_finite s m e =>
      let n := if s then Z.neg m else Z.pos m in
      if (0 <=? e)%Z then (n * 2 ^ e, 1)%Z else (n, 2 ^ (- e))%Z
  | _ => (0, 1)%Z
  end.

(** [|x - n / d| <= 1 / tol] for a finite [x], by cross-multiplication. *)
Definition near (x : spec_float) (n d tol : Z) : bool :=
  is_finite x &&
  let '(p, q) := to_fraction x in
  (Z.abs (p * d - n * q) * tol <=? q * d)%Z.

(** [std::exp] and [std::tanh] belong to the C library, not to the
    repository: the arithmetic takes them as arguments. *)
Definition scalar (libm_exp libm_tanh : spec_float → spec_float) : Scalar spec_float := {|
  f0 := S754_zero false;
  f1 := of_Z 1;
  fadd := SFadd prec emax;
  fsub := SFsub prec emax;
  fmul := SFmul prec emax;
  fdiv := SFdiv prec emax;
  fneg := SFopp;
  flt := SFltb;
  fsqrt := SFsqrt prec emax;
  fexp := libm_exp;
  ftanh := libm_tanh;
  of_size := λ n, of_Z (Z.of_nat n)
|}.

(** The closed examples of this file run no code that calls the C library;
    they use this arithmetic, in which such a call would answer NaN. *)
Definition no_libm (x : spec_float) : spec_float := S754_nan.

Definition binary32 : Scalar spec_float := scalar no_libm no_libm.

End Binary32.

(** ** Real numbers *)

(** Not an arithmetic the program runs in: the exact one, in which the
    formulas of the specification are written.  It serves to read a closed
    form off the code, beside the statement in binary32; a property that
    holds only here is no property of the program. *)
Module Exact.

Definition Rltb (x y : R) : bool := if Rlt_dec x y then true else false.

Definition real : Scalar R := {|
  f0 := 0%R;
  f1 := 1%R;
  fadd := Rplus;
  fsub := Rminus;
  fmul := Rmult;
  fdiv := Rdiv;
  fneg := Ropp;
  flt := Rltb;
  fsqrt := sqrt;
  fexp := exp;
  ftanh := tanh;
  of_size := INR
|}.

End Exact.

#[global] Existing Instance Binary32.binary32.
#[global] Existing Instance Exact.real.

(** * Properties *)

(** Number of elements of a shape, as a mathematical product. *)
Definition numel (s : list nat) : nat := foldr Nat.mul 1 s.

Section Sums.
Context {F : Type} {SF : Scalar F}.

(** Accumulation in the order of the source:
    [acc = init; for (i : I) acc += f i]. *)
Definition fsum_over (init : F) (I : list nat) (f : nat → F) : F :=
  foldl (λ acc i, fadd acc (f i)) init I.

(** [init + Σ_{k < n} f k], summed left to right as the loops do. *)
Definition fsum_from (init : F) (n : nat) (f : nat → F) : F :=
  fsum_over init (seq 0 n) f.

Lemma fsum_over_snoc init I i f :
  fsum_over init (I ++ [i]) f = fadd (fsum_over init I f) (f i).
Proof. unfold fsum_over. by rewrite foldl_app. Qed.

Lemma fsum_from_S init n f : fsum_from init (S n) f = fadd (fsum_from init n f) (f n).
Proof. unfold fsum_from. rewrite seq_S. apply fsum_over_snoc. Qed.

Lemma fsum_over_ext init I f g :
  (∀ i, i ∈ I → f i = g i) → fsum_over init I f = fsum_over init I g.
Proof.
  revert init. induction I as [|i I IH]; intros init Hfg; [done|].
  simpl. rewrite Hfg by left. apply IH. intros j Hj. apply Hfg. by right.
Qed.

Lemma fsum_over_fmap init {X} (g : X → nat) (l : list X) f :
  fsum_over init (g <$> l) f = foldl (λ acc x, fadd acc (f (g x))) init l.
Proof. revert init. induction l as [|x l IH]; intros init; [done|]. simpl. apply IH. Qed.

(** A loop that keeps adding into one cell of a buffer. *)
Lemma foldM_rmw {X} (body : X → list F → result (list F)) (term : X → F) I p d :
  p < length d →
  (∀ i d', i ∈ I → length d' = length d →
     body i d' = Ok (<[p := fadd (d' !!! p) (term i)]> d')) →
  foldM body I d = Ok (<[p := foldl (λ acc i, fadd acc (term i)) (d !!! p) I]> d).
Proof.
  revert d. induction I as [|i I IH]; intros d Hp Hb.
  - simpl. f_equal. symmetry. apply list_insert_id.
    by apply list_lookup_lookup_total_lt.
  - simpl. rewrite Hb by (done || by left). simpl.
    rewrite IH.
    + rewrite list_lookup_total_insert_eq by done.
      by rewrite list_insert_insert_eq.
    + by rewrite length_insert.
    + intros j d' Hj Hd'. apply Hb; [by right|]. by rewrite Hd', length_insert.
Qed.

(** A loop that reads buffers and accumulates into a local variable. *)
Lemma foldM_acc {X} (body : X → F → result F) (term : X → F) I (a : F) :
  (∀ i acc, i ∈ I → body i acc = Ok (fadd acc (term i))) →
  foldM body I a = Ok (foldl (λ acc i, fadd acc (term i)) a I).
Proof.
  intros Hb.
  apply (foldM_pure (λ _, True) (λ i acc, fadd acc (term i))); [done|].
  intros i acc Hi _. split; [by apply Hb | done].
Qed.
End Sums.

Section TensorFacts.
Context {F : Type} {SF : Scalar F}.
Implicit Types (t : Tensor F).

Lemma numel_pos s : Forall (λ d, 0 < d) s → 0 < numel s.
Proof. induction 1 as [|d s Hd _ IH]; simpl; [lia | nia]. Qed.

Lemma fold_size_numel s a :
  Forall (λ d, 0 < d) s → (Z.of_nat (a * numel s) ≤ SIZE_MAX)%Z →
  foldl (λ total dim, wrap64 (Z.of_nat total * Z.of_nat dim)) a s = a * numel s.
Proof.
  intros Hs. revert a. induction Hs as [|d s Hd Hs IH]; intros a Ha; simpl in *.
  - lia.
  - pose proof (numel_pos s Hs) as Hpos.
    rewrite <- Nat2Z.inj_mul, wrap64_small by nia.
    rewrite IH by (rewrite <- Nat.mul_assoc; done). lia.
Qed.

Lemma validate_shape_true t :
  shape t ≠ [] → Forall (λ d, 0 < d) (shape t) → validate_shape t = true.
Proof.
  unfold validate_shape. destruct (shape t) as [|d s] eqn:E; [done|]. intros _ Hs.
  apply forallb_forall. intros x Hx. rewrite Forall_forall in Hs.
  apply list_elem_of_In, Hs in Hx. apply negb_true_iff, Nat.eqb_neq. lia.
Qed.

Lemma validate_shape_false t :
  (shape t = [] ∨ 0 ∈ shape t) → validate_shape t = false.
Proof.
  unfold validate_shape. intros [->|H0]; [done|].
  destruct (shape t) as [|d s] eqn:E; [done|].
  apply not_true_is_false. intros Hall. rewrite forallb_forall in Hall.
  apply list_elem_of_In, Hall in H0. done.
Qed.

Lemma size_numel t :
  shape t ≠ [] → Forall (λ d, 0 < d) (shape t) → (Z.of_nat (numel (shape t)) ≤ SIZE_MAX)%Z →
  size t = Ok (numel (shape t)).
Proof.
  intros Hne Hs Hmax. unfold size. rewrite validate_shape_true by done.
  rewrite fold_size_numel by (done || by rewrite Nat.mul_1_l). by rewrite Nat.mul_1_l.
Qed.

Lemma size_invalid t : validate_shape t = false → size t = Err InvalidShape.
Proof. unfold size. by intros ->. Qed.

Lemma resize_numel t :
  shape t ≠ [] → Forall (λ d, 0 < d) (shape t) →
  (Z.of_nat (numel (shape t)) ≤ vector_max_size)%Z →
  resize t = Ok (with_data t (list.resize (numel (shape t)) f0 (data t))).
Proof.
  intros Hne Hs Hmax. unfold resize.
  rewrite size_numel by (done || unfold vector_max_size, SIZE_MAX in *; lia).
  rewrite bind_Ok, vresize_fits by done. done.
Qed.

Lemma resize_grad_numel t :
  shape t ≠ [] → Forall (λ d, 0 < d) (shape t) →
  (Z.of_nat (numel (shape t)) ≤ vector_max_size)%Z →
  resize_grad t = Ok (with_grad t (list.resize (numel (shape t)) f0 (grad t))).
Proof.
  intros Hne Hs Hmax. unfold resize_grad.
  rewrite size_numel by (done || unfold vector_max_size, SIZE_MAX in *; lia).
  rewrite bind_Ok, vresize_fits by done. done.
Qed.
End TensorFacts.

(** ** Linear *)

Section LinearFacts.
Context {F : Type} {SF : Scalar F}.

(** [bias[j] + Σ_k input[b,k] * weight[k,j]], the sum taken in the order of
    [k], starting from [bias[j]]. *)
Definition Linear_output (l : Linear F) (input : Tensor F) (in_features out_features : nat)
    (b j : nat) : F :=
  fsum_from (data (bias l) !!! j) in_features
    (λ k, fmul (data input !!! (b * in_features + k))
               (data (weight l) !!! (k * out_features + j))).

(** One round of the loop over [j]: the cell [(i, j)] receives its final value. *)
Lemma Linear_forward_cell (l : Linear F) (input : Tensor F) inF outF batch i j (d : list F) :
  length (data (weight l)) = inF * outF →
  length (data (bias l)) = outF →
  length (data input) = batch * inF →
  length d = batch * outF →
  i < batch → j < outF →
  (b ← vget (data (bias l)) j;
   d ← vset d (i * outF + j) b;
   for_range inF (λ k d,
     o ← vget d (i * outF + j);
     x ← vget (data input) (i * inF + k);
     w ← vget (data (weight l)) (k * outF + j);
     vset d (i * outF + j) (fadd o (fmul x w))) d)
  = Ok (<[i * outF + j := Linear_output l input inF outF i j]> d).
Proof.
  intros Hw Hb Hx Hd Hi Hj.
  assert (i * outF + j < length d) as Hp by (rewrite Hd; by apply rowmajor_lt).
  rewrite (vget_total _ j) by lia. rewrite bind_Ok.
  rewrite vset_within by done. rewrite bind_Ok.
  rewrite for_range_foldM.
  rewrite (foldM_rmw _ (λ k, fmul (data input !!! (i * inF + k))
                                  (data (weight l) !!! (k * outF + j)))
             _ (i * outF + j)).
  - rewrite list_lookup_total_insert_eq by done.
    by rewrite list_insert_insert_eq.
  - by rewrite length_insert.
  - intros k d' Hk Hd'. apply elem_of_seq in Hk.
    rewrite length_insert in Hd'.
    rewrite (vget_total d') by lia. rewrite bind_Ok.
    rewrite (vget_total (data input)) by (rewrite Hx; apply rowmajor_lt; lia).
    rewrite bind_Ok.
    rewrite (vget_total (data (weight l))) by (rewrite Hw; apply rowmajor_lt; lia).
    rewrite bind_Ok. apply vset_within. lia.
Qed.

Lemma Linear_forward_spec (l : Linear F) (input output : Tensor F) inF outF batch :
  shape (weight l) = [inF; outF] →
  length (data (weight l)) = inF * outF →
  length (data (bias l)) = outF →
  shape input = [batch; inF] →
  length (data input) = batch * inF →
  0 < batch → 0 < outF →
  (Z.of_nat (batch * outF) ≤ vector_max_size)%Z →
  ∃ out,
    Linear_forward l input output = Ok out ∧
    shape out = [batch; outF] ∧
    length (data out) = batch * outF ∧
    grad out = grad output ∧
    ∀ b j, b < batch → j < outF →
      data out !! (b * outF + j) = Some (Linear_output l input inF outF b j).
Proof.
  intros Hws Hw Hb Hxs Hx Hbatch Hout Hmax.
  unfold Linear_forward. rewrite Hws, Hxs.
  change (vget [inF; outF] 0) with (Ok (A:=nat) inF).
  change (vget [inF; outF] 1) with (Ok (A:=nat) outF).
  change (vget [batch; inF] 0) with (Ok (A:=nat) batch).
  rewrite !bind_Ok.
  rewrite resize_numel; simpl shape; simpl numel;
    [| done | repeat constructor; lia | by rewrite Nat.mul_1_r].
  rewrite Nat.mul_1_r, bind_Ok. simpl data.
  set (d0 := list.resize (batch * outF) f0 (data output)).
  assert (length d0 = batch * outF) as Hd0 by apply length_resize.
  rewrite for_range_nest2.
  rewrite (foldM_writes (λ ij, ij.1 * outF + ij.2)
                        (λ ij, Linear_output l input inF outF ij.1 ij.2)).
  - rewrite bind_Ok. eexists. split; [done|]. simpl.
    rewrite length_writes. repeat split; [done|].
    intros b j Hb' Hj. apply lookup_writes_in.
    + rewrite Hd0. by apply rowmajor_lt.
    + eexists. apply list_elem_of_fmap. exists (b, j). split; [done|].
      by apply elem_of_pairs.
    + intros w Hin. apply list_elem_of_fmap in Hin as ([i' j'] & Heq & Hin).
      apply elem_of_pairs in Hin as [Hi' Hj']. simpl in Heq.
      injection Heq as Hpos ->.
      apply rowmajor_inj in Hpos as [-> ->]; done.
  - intros [i j] d' Hin Hd'. apply elem_of_pairs in Hin as [Hi Hj]. simpl.
    apply (Linear_forward_cell l input inF outF batch); (done || lia).
Qed.
End LinearFacts.

(** ** Buffers transformed cell by cell *)

Lemma foldl_ext_in {A B} (f g : A → B → A) (a : A) (l : list B) :
  (∀ a x, x ∈ l → f a x = g a x) → foldl f a l = foldl g a l.
Proof.
  revert a. induction l as [|x l IH]; intros a Hfg; [done|].
  simpl. rewrite Hfg by left. apply IH. intros a' y Hy. apply Hfg. by right.
Qed.

Lemma foldl_unchanged {A B} (f : A → B → A) (a : A) (l : list B) :
  (∀ a x, x ∈ l → f a x = a) → foldl f a l = a.
Proof.
  revert a. induction l as [|x l IH]; intros a Hf; [done|].
  simpl. rewrite Hf by left. apply IH. intros a' y Hy. apply Hf. by right.
Qed.

(** A fold over a range that acts at one index only. *)
Lemma foldl_seq_single {A} (g : A → A) (a : A) (k0 s m : nat) :
  s ≤ k0 < s + m →
  foldl (λ a k, if decide (k = k0) then g a else a) a (seq s m) = g a.
Proof.
  revert s a. induction m as [|m IH]; intros s a Hk; [lia|].
  simpl. destruct (decide (s = k0)) as [->|Hne].
  - apply foldl_unchanged. intros a' k Hin. apply elem_of_seq in Hin.
    destruct (decide (k = k0)); [lia | done].
  - apply IH. lia.
Qed.

Lemma foldl_fst {A B X} (h : X → A * B → A * B) (g : X → A → A) (s : A * B) (l : list X) :
  (∀ x s, (h x s).1 = g x s.1) →
  (foldl (λ s x, h x s) s l).1 = foldl (λ a x, g x a) s.1 l.
Proof.
  intros Hh. revert s. induction l as [|x l IH]; intros s; [done|].
  simpl. rewrite IH. by rewrite Hh.
Qed.

Lemma foldl_snd {A B X} (h : X → A * B → A * B) (g : X → B → B) (s : A * B) (l : list X) :
  (∀ x s, (h x s).2 = g x s.2) →
  (foldl (λ s x, h x s) s l).2 = foldl (λ b x, g x b) s.2 l.
Proof.
  intros Hh. revert s. induction l as [|x l IH]; intros s; [done|].
  simpl. rewrite IH. by rewrite Hh.
Qed.

Section Pointwise.
Context {A : Type} `{Inhabited A}.

(** [G] keeps the length [L] of a buffer and maps the content [a] of the cell
    at [p] to [u p a]. *)
Definition pointwise (L : nat) (G : list A → list A) (u : nat → A → A) : Prop :=
  ∀ d, length d = L → length (G d) = L ∧ ∀ p, p < L → G d !!! p = u p (d !!! p).

Lemma pointwise_insert L q (v : A → A) :
  pointwise L (λ d, <[q := v (d !!! q)]> d) (λ p a, if decide (q = p) then v a else a).
Proof.
  intros d Hd. split; [by rewrite length_insert|].
  intros p Hp. destruct (decide (q = p)) as [->|Hne].
  - by rewrite list_lookup_total_insert_eq by lia.
  - by rewrite list_lookup_total_insert_ne.
Qed.

Lemma pointwise_ext L G (u u' : nat → A → A) :
  (∀ p a, p < L → u p a = u' p a) → pointwise L G u → pointwise L G u'.
Proof.
  intros Hu HG d Hd. destruct (HG d Hd) as [Hlen Hval]. split; [done|].
  intros p Hp. rewrite Hval by done. by apply Hu.
Qed.

Lemma pointwise_compose L G1 G2 (u1 u2 : nat → A → A) :
  pointwise L G1 u1 → pointwise L G2 u2 →
  pointwise L (λ d, G2 (G1 d)) (λ p a, u2 p (u1 p a)).
Proof.
  intros H1 H2 d Hd. destruct (H1 d Hd) as [Hl1 Hv1].
  destruct (H2 (G1 d) Hl1) as [Hl2 Hv2]. split; [done|].
  intros p Hp. by rewrite Hv2, Hv1.
Qed.

Lemma pointwise_foldl {X} L (G : X → list A → list A) (u : X → nat → A → A) (l : list X) :
  (∀ x, x ∈ l → pointwise L (G x) (u x)) →
  pointwise L (λ d, foldl (λ d x, G x d) d l) (λ p a, foldl (λ a x, u x p a) a l).
Proof.
  induction l as [|x l IH]; intros HG.
  - intros d Hd. done.
  - simpl. apply (pointwise_compose L (G x) (λ d, foldl (λ d x, G x d) d l)
                    (u x) (λ p a, foldl (λ a x, u x p a) a l)).
    + apply HG. by left.
    + apply IH. intros y Hy. apply HG. by right.
Qed.
End Pointwise.

(** A loop nest over a matrix that acts on the cell [(r0, c0)] only when it
    visits it. *)
Lemma foldl_matrix_single {A} (g : nat → nat → A → A) (a : A) (n m r0 c0 : nat) :
  r0 < n → c0 < m →
  foldl (λ a r, foldl (λ a c, if decide (r * m + c = r0 * m + c0) then g r c a else a)
                      a (seq 0 m)) a (seq 0 n)
  = g r0 c0 a.
Proof.
  intros Hr Hc.
  rewrite (foldl_ext_in _ (λ a r, if decide (r = r0) then g r0 c0 a else a)).
  - apply (foldl_seq_single (g r0 c0)). lia.
  - intros a' r Hin. destruct (decide (r = r0)) as [->|Hne].
    + rewrite (foldl_ext_in _ (λ a c, if decide (c = c0) then g r0 c0 a else a)).
      * apply (foldl_seq_single (g r0 c0)). lia.
      * intros a'' c Hc'. apply elem_of_seq in Hc'.
        destruct (decide (r0 * m + c = r0 * m + c0)) as [Heq|Hneq];
          destruct (decide (c = c0)) as [->|Hc0]; done || lia.
    + apply foldl_unchanged. intros a'' c Hc'. apply elem_of_seq in Hc'.
      destruct (decide (r * m + c = r0 * m + c0)) as [Heq|]; [|done].
      apply rowmajor_inj in Heq as [? ?]; [done | lia | lia].
Qed.

Lemma numel_2 a b : numel [a; b] = a * b.
Proof. simpl. lia. Qed.

Lemma numel_1 a : numel [a] = a.
Proof. simpl. lia. Qed.

Section LinearBackwardFacts.
Context {F : Type} {SF : Scalar F}.

(** [Σ_j output_grad[b,j] * weight[k,j]], summed in the order of [j] from
    [0.0f]. *)
Definition Linear_input_grad (l : Linear F) (output : Tensor F) (out_features : nat)
    (b k : nat) : F :=
  fsum_from f0 out_features
    (λ j, fmul (grad output !!! (b * out_features + j))
               (data (weight l) !!! (k * out_features + j))).

(** [prior[k,j] + Σ_b output_grad[b,j] * input[b,k]], accumulated onto
    [prior] in the order of [b]. *)
Definition Linear_weight_grad (prior : list F) (output input : Tensor F)
    (in_features out_features batch : nat) (k j : nat) : F :=
  fsum_from (prior !!! (k * out_features + j)) batch
    (λ b, fmul (grad output !!! (b * out_features + j))
               (data input !!! (b * in_features + k))).

(** [prior[j] + Σ_b output_grad[b,j]], accumulated onto [prior]. *)
Definition Linear_bias_grad (prior : list F) (output : Tensor F) (out_features batch : nat)
    (j : nat) : F :=
  fsum_from (prior !!! j) batch (λ b, grad output !!! (b * out_features + j)).

Variables (l : Linear F) (output input : Tensor F) (inF outF batch : nat).
Hypothesis Hw : length (data (weight l)) = inF * outF.
Hypothesis Hog : length (grad output) = batch * outF.
Hypothesis Hx : length (data input) = batch * inF.

(** What one round of the innermost loop does to [(input.grad, weight.grad)]. *)
Definition backward_step (i j k : nat) (s : list F * list F) : list F * list F :=
  (<[i * inF + j :=
       fadd (s.1 !!! (i * inF + j))
            (fmul (grad output !!! (i * outF + k)) (data (weight l) !!! (j * outF + k)))]> s.1,
   <[j * outF + k :=
       fadd (s.2 !!! (j * outF + k))
            (fmul (grad output !!! (i * outF + k)) (data input !!! (i * inF + j)))]> s.2).

Definition backward_cell (i j : nat) (s : list F * list F) : list F * list F :=
  foldl (λ s k, backward_step i j k s) (<[i * inF + j := f0]> s.1, s.2) (seq 0 outF).

Definition backward_row (i : nat) (s : list F * list F) : list F * list F :=
  foldl (λ s j, backward_cell i j s) s (seq 0 inF).

Definition sized (s : list F * list F) : Prop :=
  length s.1 = batch * inF ∧ length s.2 = inF * outF.

Lemma backward_step_sized i j k s : sized s → sized (backward_step i j k s).
Proof. intros [? ?]. split; simpl; by rewrite length_insert. Qed.

Lemma backward_cell_sized i j s : sized s → sized (backward_cell i j s).
Proof.
  intros [H1 H2]. unfold backward_cell.
  assert (sized (<[i * inF + j := f0]> s.1, s.2)) as Hs
    by (split; simpl; [by rewrite length_insert | done]).
  revert Hs. generalize (<[i * inF + j := f0]> s.1, s.2). generalize (seq 0 outF).
  induction l0 as [|k ks IH]; intros s' Hs'; [done|].
  simpl. by apply IH, backward_step_sized.
Qed.

Lemma backward_row_sized i s : sized s → sized (backward_row i s).
Proof.
  unfold backward_row. revert s. generalize (seq 0 inF).
  induction l0 as [|j js IH]; intros s Hs; [done|].
  simpl. by apply IH, backward_cell_sized.
Qed.

Lemma Linear_backward_loops (ig wg : list F) :
  sized (ig, wg) →
  for_range batch (λ i,
    for_range inF (λ j '(ig, wg),
      ig ← vset ig (i * inF + j) f0;
      for_range outF (λ k '(ig, wg),
        a ← vget ig (i * inF + j);
        og ← vget (grad output) (i * outF + k);
        w ← vget (data (weight l)) (j * outF + k);
        ig ← vset ig (i * inF + j) (fadd a (fmul og w));
        b ← vget wg (j * outF + k);
        x ← vget (data input) (i * inF + j);
        wg ← vset wg (j * outF + k) (fadd b (fmul og x));
        Ok (ig, wg)) (ig, wg)))
    (ig, wg)
  = Ok (foldl (λ s i, backward_row i s) (ig, wg) (seq 0 batch)).
Proof.
  intros Hs. rewrite for_range_foldM.
  apply (foldM_pure sized backward_row); [done|].
  intros i s Hi Hsz. apply elem_of_seq in Hi. split; [|by apply backward_row_sized].
  rewrite for_range_foldM.
  apply (foldM_pure sized (backward_cell i)); [done|].
  clear s Hsz. intros j [ig' wg'] Hj [Hig Hwg]. apply elem_of_seq in Hj. simpl in Hig, Hwg.
  split; [|by apply backward_cell_sized].
  assert (i * inF + j < batch * inF) as Hp by (apply rowmajor_lt; lia).
  rewrite vset_within by lia. rewrite bind_Ok, for_range_foldM.
  apply (foldM_pure sized (backward_step i j)).
  { split; simpl; [by rewrite length_insert | done]. }
  intros k [ig'' wg''] Hk [Hig' Hwg']. apply elem_of_seq in Hk. simpl in Hig', Hwg'.
  split; [|by apply backward_step_sized].
  assert (j * outF + k < inF * outF) as Hq by (apply rowmajor_lt; lia).
  assert (i * outF + k < batch * outF) as Hr by (apply rowmajor_lt; lia).
  rewrite (vget_total ig'') by lia. rewrite bind_Ok.
  rewrite (vget_total (grad output)) by lia. rewrite bind_Ok.
  rewrite (vget_total (data (weight l))) by lia. rewrite bind_Ok.
  rewrite vset_within by lia. rewrite bind_Ok.
  rewrite (vget_total wg'') by lia. rewrite bind_Ok.
  rewrite (vget_total (data input)) by lia. rewrite bind_Ok.
  rewrite vset_within by lia. by rewrite bind_Ok.
Qed.

(** The first component: [input.grad]. *)
Lemma backward_input_grad (s : list F * list F) b k :
  sized s → b < batch → k < inF →
  (foldl (λ s i, backward_row i s) s (seq 0 batch)).1 !!! (b * inF + k)
  = Linear_input_grad l output outF b k.
Proof.
  intros [Hlen _] Hb Hk.
  set (cell i j := λ d : list F,
         foldl (λ d k', <[i * inF + j :=
                   fadd (d !!! (i * inF + j))
                        (fmul (grad output !!! (i * outF + k'))
                              (data (weight l) !!! (j * outF + k')))]> d)
               (<[i * inF + j := f0]> d) (seq 0 outF)).
  assert (∀ i j, pointwise (batch * inF) (cell i j)
            (λ p a, if decide (i * inF + j = p) then Linear_input_grad l output outF i j
                    else a)) as Hcell.
  { intros i j.
    apply (pointwise_ext _ _
             (λ p a, foldl (λ a k', if decide (i * inF + j = p)
                                    then fadd a (fmul (grad output !!! (i * outF + k'))
                                                      (data (weight l) !!! (j * outF + k')))
                                    else a)
                           (if decide (i * inF + j = p) then f0 else a) (seq 0 outF))).
    - intros p a Hp. destruct (decide (i * inF + j = p)) as [Heq|Hne]; [done|].
      apply foldl_unchanged. intros a' k' _. done.
    - apply (pointwise_compose (batch * inF)
               (λ d, <[i * inF + j := (λ _, f0) (d !!! (i * inF + j))]> d)
               (λ d, foldl (λ d k', <[i * inF + j :=
                   (λ a, fadd a (fmul (grad output !!! (i * outF + k'))
                                      (data (weight l) !!! (j * outF + k'))))
                     (d !!! (i * inF + j))]> d) d (seq 0 outF))
               (λ p a, if decide (i * inF + j = p) then (λ _, f0) a else a)
               (λ p a, foldl (λ a k', if decide (i * inF + j = p)
                                      then (λ a, fadd a (fmul (grad output !!! (i * outF + k'))
                                                       (data (weight l) !!! (j * outF + k')))) a
                                      else a) a (seq 0 outF))).
      + exact (pointwise_insert (batch * inF) (i * inF + j) (λ _, f0)).
      + apply (pointwise_foldl (batch * inF)
                 (λ k' d, <[i * inF + j :=
                     (λ a, fadd a (fmul (grad output !!! (i * outF + k'))
                                        (data (weight l) !!! (j * outF + k'))))
                       (d !!! (i * inF + j))]> d)
                 (λ k' p a, if decide (i * inF + j = p)
                            then (λ a, fadd a (fmul (grad output !!! (i * outF + k'))
                                               (data (weight l) !!! (j * outF + k')))) a
                            else a)).
        intros k' _.
        exact (pointwise_insert (batch * inF) (i * inF + j)
                 (λ a, fadd a (fmul (grad output !!! (i * outF + k'))
                                    (data (weight l) !!! (j * outF + k'))))). }
  rewrite (foldl_fst _ (λ i d, foldl (λ d j, cell i j d) d (seq 0 inF))).
  - destruct (pointwise_foldl (batch * inF)
               (λ i d, foldl (λ d j, cell i j d) d (seq 0 inF))
               (λ i p a, foldl (λ a j, if decide (i * inF + j = p)
                                       then Linear_input_grad l output outF i j else a)
                               a (seq 0 inF))
               (seq 0 batch)) with s.1 as [_ Hval]; [|done|].
    + intros i _.
      apply (pointwise_foldl (batch * inF) (λ j d, cell i j d)
               (λ j p a, if decide (i * inF + j = p)
                         then Linear_input_grad l output outF i j else a)).
      intros j _. apply Hcell.
    + rewrite Hval by (by apply rowmajor_lt).
      apply (foldl_matrix_single (λ i j _, Linear_input_grad l output outF i j)); done.
  - intros i s'. unfold backward_row.
    apply (foldl_fst (λ j s, backward_cell i j s)). intros j s''. unfold backward_cell.
    rewrite (foldl_fst (backward_step i j)
               (λ k' d, <[i * inF + j :=
                   fadd (d !!! (i * inF + j))
                        (fmul (grad output !!! (i * outF + k'))
                              (data (weight l) !!! (j * outF + k')))]> d)); done.
Qed.

(** The second component: [weight.grad]. *)
Lemma backward_weight_grad (s : list F * list F) k j :
  sized s → k < inF → j < outF →
  (foldl (λ s i, backward_row i s) s (seq 0 batch)).2 !!! (k * outF + j)
  = Linear_weight_grad s.2 output input inF outF batch k j.
Proof.
  intros [_ Hlen] Hk Hj.
  set (term i j' k' := fmul (grad output !!! (i * outF + k')) (data input !!! (i * inF + j'))).
  set (step i j' k' := λ d : list F,
         <[j' * outF + k' := (λ a, fadd a (term i j' k')) (d !!! (j' * outF + k'))]> d).
  rewrite (foldl_snd _ (λ i d, foldl (λ d j', foldl (λ d k', step i j' k' d) d (seq 0 outF))
                                     d (seq 0 inF))).
  - destruct (pointwise_foldl (inF * outF)
               (λ i d, foldl (λ d j', foldl (λ d k', step i j' k' d) d (seq 0 outF))
                             d (seq 0 inF))
               (λ i p a, foldl (λ a j', foldl (λ a k',
                    if decide (j' * outF + k' = p) then fadd a (term i j' k') else a)
                    a (seq 0 outF)) a (seq 0 inF))
               (seq 0 batch)) with s.2 as [_ Hval]; [|done|].
    + intros i _.
      apply (pointwise_foldl (inF * outF)
               (λ j' d, foldl (λ d k', step i j' k' d) d (seq 0 outF))
               (λ j' p a, foldl (λ a k',
                    if decide (j' * outF + k' = p) then fadd a (term i j' k') else a)
                    a (seq 0 outF))).
      intros j' _.
      apply (pointwise_foldl (inF * outF) (λ k' d, step i j' k' d)
               (λ k' p a, if decide (j' * outF + k' = p) then fadd a (term i j' k') else a)).
      intros k' _.
      exact (pointwise_insert (inF * outF) (j' * outF + k') (λ a, fadd a (term i j' k'))).
    + rewrite Hval by (by apply rowmajor_lt).
      unfold Linear_weight_grad, fsum_from, fsum_over.
      apply foldl_ext_in. intros a i _.
      apply (foldl_matrix_single (λ j' k' a, fadd a (term i j' k'))); done.
  - intros i s'. unfold backward_row.
    apply (foldl_snd (λ j' s, backward_cell i j' s)). intros j' s''. unfold backward_cell.
    rewrite (foldl_snd (backward_step i j') (λ k' d, step i j' k' d)); done.
Qed.

(** The loop over [bias.grad]. *)
Lemma Linear_backward_bias_loop (bg : list F) :
  length bg = outF →
  ∃ bg',
    for_range batch (λ i,
      for_range outF (λ k bg,
        b ← vget bg k;
        og ← vget (grad output) (i * outF + k);
        vset bg k (fadd b og))) bg = Ok bg' ∧
    length bg' = outF ∧
    ∀ j, j < outF → bg' !!! j = Linear_bias_grad bg output outF batch j.
Proof.
  intros Hlen.
  set (step i k := λ d : list F,
         <[k := (λ a, fadd a (grad output !!! (i * outF + k))) (d !!! k)]> d).
  destruct (foldM_pure (λ d : list F, length d = outF)
              (λ i d, foldl (λ d k, step i k d) d (seq 0 outF))
              (λ i, for_range outF (λ k bg,
                 b ← vget bg k; og ← vget (grad output) (i * outF + k);
                 vset bg k (fadd b og)))
              (seq 0 batch) bg) as [Heq Hlen']; [done| |].
  - intros i d Hi Hd. apply elem_of_seq in Hi. rewrite for_range_foldM.
    apply (foldM_pure (λ d : list F, length d = outF) (step i)); [done|].
    intros k d' Hk Hd'. apply elem_of_seq in Hk. unfold step.
    rewrite (vget_total d') by lia. rewrite bind_Ok.
    rewrite (vget_total (grad output)) by (rewrite Hog; apply rowmajor_lt; lia).
    rewrite bind_Ok, vset_within by lia. by rewrite length_insert.
  - rewrite for_range_foldM, Heq. eexists. split; [done|]. split; [done|].
    intros j Hj.
    destruct (pointwise_foldl outF
               (λ i d, foldl (λ d k, step i k d) d (seq 0 outF))
               (λ i p a, foldl (λ a k, if decide (k = p)
                                       then fadd a (grad output !!! (i * outF + k)) else a)
                               a (seq 0 outF))
               (seq 0 batch)) with bg as [_ Hval]; [|done|].
    + intros i _.
      apply (pointwise_foldl outF (λ k d, step i k d)
               (λ k p a, if decide (k = p)
                         then fadd a (grad output !!! (i * outF + k)) else a)).
      intros k _.
      exact (pointwise_insert outF k (λ a, fadd a (grad output !!! (i * outF + k)))).
    + rewrite Hval by done. unfold Linear_bias_grad, fsum_from, fsum_over.
      apply foldl_ext_in. intros a i _.
      rewrite (foldl_ext_in _ (λ a k, if decide (k = j)
                 then (λ a, fadd a (grad output !!! (i * outF + j))) a else a)).
      * apply (foldl_seq_single (λ a, fadd a (grad output !!! (i * outF + j)))). lia.
      * intros a' k _. by destruct (decide (k = j)) as [->|].
Qed.
End LinearBackwardFacts.

(** ** The reference values of the test [LinearVSTorch] *)

Module Reference.
Import Binary32.

(** [{0.1f, 0.2f, ...}]: each literal is the float nearest to the decimal. *)
Definition floats (digits : nat) (l : list Z) : list spec_float :=
  (λ n, decimal n digits) <$> l.

Definition linear32 : Linear spec_float :=
  mkLinear (mkTensor [3; 2] (floats 1 [1; 2; 3; 4; 5; 6]%Z) [])
           (mkTensor [2] (floats 1 [1; 2]%Z) []).

Definition input32 : Tensor spec_float :=
  mkTensor [2; 3] (floats 1 [1; 2; 3; 4; 5; 6]%Z) [].

(** The same layer and input over the real numbers. *)
Definition linearR : Linear R :=
  mkLinear (mkTensor [3; 2] [0.1; 0.2; 0.3; 0.4; 0.5; 0.6]%R [])
           (mkTensor [2] [0.1; 0.2]%R []).

Definition inputR : Tensor R :=
  mkTensor [2; 3] [0.1; 0.2; 0.3; 0.4; 0.5; 0.6]%R [].

(** [EXPECT_NEAR(x, n / den, 1 / tol)] for each element [x] and its
    reference numerator [n]. *)
Definition all_near (xs : list spec_float) (ns : list Z) (den tol : Z) : bool :=
  (length xs =? length ns) &&
  forallb (λ xn, near xn.1 xn.2 den tol) (zip xs ns).

End Reference.

(** C1.  [Linear::forward], for an input of shape [[batch, in_features]]
    whose data is populated, returns an output of shape
    [[batch, out_features]] with
    [output[b,j] = bias[j] + Σ_k input[b,k] * weight[k,j]] (the sum is the
    accumulation the loop over [k] performs, starting from [bias[j]]), in any
    arithmetic.  For the reference layer and input the output is
    [[0.32, 0.48], [0.59, 0.84]]: exactly so over the real numbers, and within
    the tolerance [1e-5] of the source's test in binary32, where these
    decimals are not representable. *)
Theorem C1_Linear_forward :
  (∀ (F : Type) (SF : Scalar F) (l : Linear F) (input output : Tensor F)
     (in_features out_features batch : nat),
     shape (weight l) = [in_features; out_features] →
     length (data (weight l)) = in_features * out_features →
     length (data (bias l)) = out_features →
     shape input = [batch; in_features] →
     length (data input) = batch * in_features →
     0 < batch → 0 < out_features →
     (Z.of_nat (batch * out_features) ≤ vector_max_size)%Z →
     ∃ out,
       Linear_forward l input output = Ok out ∧
       shape out = [batch; out_features] ∧
       length (data out) = batch * out_features ∧
       grad out = grad output ∧
       ∀ b j, b < batch → j < out_features →
         data out !! (b * out_features + j)
         = Some (Linear_output l input in_features out_features b j)) ∧
  (∃ out,
     Linear_forward (SF := Exact.real) Reference.linearR Reference.inputR Tensor_empty = Ok out ∧
     shape out = [2; 2] ∧
     data out = [0.32; 0.48; 0.59; 0.84]%R) ∧
  (∃ out,
     Linear_forward (SF := Binary32.binary32) Reference.linear32 Reference.input32
       Tensor_empty = Ok out ∧
     shape out = [2; 2] ∧
     Reference.all_near (data out) [32; 48; 59; 84]%Z 100 100000 = true).
Proof.
  split; [|split].
  - intros F SF l input output inF outF batch. apply Linear_forward_spec.
  - eexists. split; [vm_compute; reflexivity|]. split; [reflexivity|].
    simpl. repeat f_equal; lra.
  - eexists. split; [vm_compute; reflexivity|]. split; reflexivity.
Qed.

(** The general statement of C1 applied to the binary32 reference layer. *)
Lemma C1_Linear_forward_witness :
  ∃ out,
    Linear_forward (SF := Binary32.binary32) Reference.linear32 Reference.input32
       Tensor_empty = Ok out ∧
    shape out = [2; 2] ∧
    length (data out) = 2 * 2 ∧
    grad out = [] ∧
    ∀ b j, b < 2 → j < 2 →
      data out !! (b * 2 + j)
      = Some (Linear_output (SF := Binary32.binary32)
                Reference.linear32 Reference.input32 3 2 b j).
Proof.
  apply (proj1 C1_Linear_forward spec_float Binary32.binary32
           Reference.linear32 Reference.input32 Tensor_empty 3 2 2);
    try reflexivity; try lia.
  vm_compute. discriminate.
Defined.

(** C2.  [Linear::backward], given an upstream gradient of shape
    [[batch, out_features]] in [output.grad] and the input of [forward]:
    [input.grad] is resized and every cell is overwritten with
    [Σ_j output_grad[b,j] * weight[k,j]], whatever it held before, while
    [weight.grad[k,j]] and [bias.grad[j]] receive
    [Σ_b output_grad[b,j] * input[b,k]] and [Σ_b output_grad[b,j]] on top of
    their prior contents.  The prior contents are the buffers as
    [resize_grad] leaves them: unchanged when they already have their size,
    zero-filled when they are fresh. *)
Theorem C2_Linear_backward (F : Type) (SF : Scalar F) (l : Linear F)
    (output input : Tensor F) (in_features out_features batch : nat) :
  shape (weight l) = [in_features; out_features] →
  length (data (weight l)) = in_features * out_features →
  shape (bias l) = [out_features] →
  shape output = [batch; out_features] →
  length (grad output) = batch * out_features →
  shape input = [batch; in_features] →
  length (data input) = batch * in_features →
  0 < batch → 0 < in_features → 0 < out_features →
  (Z.of_nat (batch * in_features) ≤ vector_max_size)%Z →
  (Z.of_nat (in_features * out_features) ≤ vector_max_size)%Z →
  let prior_weight := list.resize (in_features * out_features) f0 (grad (weight l)) in
  let prior_bias := list.resize out_features f0 (grad (bias l)) in
  (length (grad (weight l)) = in_features * out_features → prior_weight = grad (weight l)) ∧
  (length (grad (bias l)) = out_features → prior_bias = grad (bias l)) ∧
  ∃ l' input',
    Linear_backward l output input = Ok (l', input') ∧
    shape input' = shape input ∧ data input' = data input ∧
    length (grad input') = batch * in_features ∧
    (∀ b k, b < batch → k < in_features →
       grad input' !! (b * in_features + k)
       = Some (Linear_input_grad l output out_features b k)) ∧
    shape (weight l') = shape (weight l) ∧ data (weight l') = data (weight l) ∧
    shape (bias l') = shape (bias l) ∧ data (bias l') = data (bias l) ∧
    length (grad (weight l')) = in_features * out_features ∧
    (∀ k j, k < in_features → j < out_features →
       grad (weight l') !! (k * out_features + j)
       = Some (Linear_weight_grad prior_weight output input
                 in_features out_features batch k j)) ∧
    length (grad (bias l')) = out_features ∧
    (∀ j, j < out_features →
       grad (bias l') !! j = Some (Linear_bias_grad prior_bias output out_features batch j)).
Proof.
  intros Hws Hw Hbs Hos Hog Hxs Hx Hbatch Hin Hout Hmax1 Hmax2 prior_weight prior_bias.
  split; [intros Hlen; by apply resize_all_alt|].
  split; [intros Hlen; by apply resize_all_alt|].
  unfold Linear_backward. rewrite Hws, Hos.
  change (vget [in_features; out_features] 0) with (Ok (A:=nat) in_features).
  change (vget [in_features; out_features] 1) with (Ok (A:=nat) out_features).
  change (vget [batch; out_features] 0) with (Ok (A:=nat) batch).
  rewrite !bind_Ok.
  rewrite (resize_grad_numel input); rewrite ?Hxs, ?numel_2;
    [| done | repeat constructor; lia | done].
  rewrite bind_Ok.
  rewrite (resize_grad_numel (weight l)); rewrite ?Hws, ?numel_2;
    [| done | repeat constructor; lia | done].
  rewrite bind_Ok.
  rewrite (resize_grad_numel (bias l)); rewrite ?Hbs, ?numel_1;
    [| done | repeat constructor; lia | nia].
  rewrite bind_Ok. simpl grad. simpl data.
  fold prior_weight. fold prior_bias.
  set (ig0 := list.resize (batch * in_features) f0 (grad input)).
  assert (sized in_features out_features batch (ig0, prior_weight)) as Hsized.
  { split; simpl; apply length_resize. }
  rewrite (Linear_backward_loops l output input in_features out_features batch Hw Hog Hx
             ig0 prior_weight Hsized).
  rewrite bind_Ok.
  set (final := foldl _ _ _).
  assert (sized in_features out_features batch final) as [Hf1 Hf2].
  { subst final. revert Hsized. generalize (ig0, prior_weight). generalize (seq 0 batch).
    induction l0 as [|i rest IH]; intros s Hs; [done|].
    simpl. by apply IH, backward_row_sized. }
  destruct final as [ig wg] eqn:Hfinal. simpl in Hf1, Hf2.
  destruct (Linear_backward_bias_loop l output input in_features out_features batch
              Hw Hog Hx prior_bias)
    as (bg & Hbg & Hbglen & Hbgval); [apply length_resize|].
  rewrite Hbg, bind_Ok.
  eexists _, _. split; [done|]. simpl.
  repeat split; try done.
  - intros b k Hb Hk.
    rewrite (list_lookup_lookup_total_lt ig) by (rewrite Hf1; by apply rowmajor_lt).
    f_equal.
    pose proof (backward_input_grad l output input in_features out_features batch
                  (ig0, prior_weight) b k Hsized Hb Hk) as Hval.
    fold final in Hval. by rewrite Hfinal in Hval.
  - intros k j Hk Hj.
    rewrite (list_lookup_lookup_total_lt wg) by (rewrite Hf2; by apply rowmajor_lt).
    f_equal.
    pose proof (backward_weight_grad l output input in_features out_features batch
                  (ig0, prior_weight) k j Hsized Hk Hj) as Hval.
    fold final in Hval. by rewrite Hfinal in Hval.
  - intros j Hj. rewrite (list_lookup_lookup_total_lt bg) by lia. f_equal. by apply Hbgval.
Qed.

(** The upstream gradient of the test: ones, of shape [[2, 2]]. *)
Definition Reference_upstream32 : Tensor spec_float :=
  mkTensor [2; 2] (replicate 4 (Binary32.of_Z 0)) (replicate 4 (Binary32.of_Z 1)).

(** C2 applied to the reference layer, input and unit upstream gradient. *)
Lemma C2_Linear_backward_witness :
  ∃ l' input',
    Linear_backward (SF := Binary32.binary32)
      Reference.linear32 Reference_upstream32 Reference.input32 = Ok (l', input') ∧
    length (grad input') = 2 * 3 ∧
    grad (weight l') !! (1 * 2 + 0)
    = Some (Linear_weight_grad (SF := Binary32.binary32) (replicate 6 (Binary32.of_Z 0))
              Reference_upstream32 Reference.input32 3 2 2 1 0).
Proof.
  destruct (C2_Linear_backward spec_float Binary32.binary32
              Reference.linear32 Reference_upstream32 Reference.input32 3 2 2)
    as (_ & _ & l' & input' & Hrun & _ & _ & Hlen & _ & _ & _ & _ & _ & _ & Hw & _);
    try reflexivity; try lia; try (vm_compute; discriminate).
  exists l', input'. split; [exact Hrun|]. split; [exact Hlen|].
  apply (Hw 1 0); lia.
Defined.

(** ** Activations *)

(** A loop that stores one value per index, [i]-th value at index [i]. *)
Lemma for_range_elementwise {A} (val : nat → A) n
    (body : nat → list A → result (list A)) (d : list A) :
  n ≤ length d →
  (∀ i d', i < n → length d' = length d → body i d' = Ok (<[i := val i]> d')) →
  ∃ d', for_range n body d = Ok d' ∧ length d' = length d ∧
        (∀ i, i < n → d' !! i = Some (val i)) ∧
        (∀ i, n ≤ i → d' !! i = d !! i).
Proof.
  intros Hn Hb. rewrite for_range_foldM.
  rewrite (foldM_writes (λ i, i) val).
  - eexists. split; [done|]. split; [apply length_writes|]. split.
    + intros i Hi. apply lookup_writes_in; [lia| |].
      * exists (val i). apply list_elem_of_fmap. exists i. split; [done|].
        apply elem_of_seq. lia.
      * intros w Hin. apply list_elem_of_fmap in Hin as (i' & [= -> ->] & _). done.
    + intros i Hi. apply lookup_writes_notin. intros v Hin.
      apply list_elem_of_fmap in Hin as (i' & [= -> ->] & Hin).
      apply elem_of_seq in Hin. lia.
  - intros i d' Hi Hd'. apply elem_of_seq in Hi. apply Hb; [lia | done].
Qed.

Section ActivationFacts.
Context {F : Type} {SF : Scalar F}.

(** The three derivatives, as functions of the forward output [y] and the
    upstream gradient [dy]. *)
Definition ReLU_grad (y dy : F) : F := if flt f0 y then dy else f0.
Definition Sigmoid_grad (s dy : F) : F := fmul (fmul dy s) (fsub f1 s).
Definition Tanh_grad (t dy : F) : F := fmul dy (fsub f1 (fmul t t)).

(** What the claim says of one [backward]: it succeeds, sizes [input.grad]
    by [input.shape], leaves the rest of [input], and writes, at each index
    [i] of the forward output, the derivative computed from [output.data[i]]
    and [output.grad[i]]. *)
Definition backward_from_output (backward : Tensor F → Tensor F → result (Tensor F))
    (derivative : F → F → F) : Prop :=
  ∀ (output input : Tensor F),
    shape input ≠ [] → Forall (λ d, 0 < d) (shape input) →
    (Z.of_nat (numel (shape input)) ≤ vector_max_size)%Z →
    length (data output) ≤ numel (shape input) →
    length (data output) ≤ length (grad output) →
    ∃ input',
      backward output input = Ok input' ∧
      shape input' = shape input ∧ data input' = data input ∧
      length (grad input') = numel (shape input) ∧
      ∀ i, i < length (data output) →
        grad input' !! i = Some (derivative (data output !!! i) (grad output !!! i)).

Lemma elementwise_backward (derivative : F → F → F)
    (body : Tensor F → nat → list F → result (list F)) :
  (∀ output i g, i < length (data output) → length (data output) ≤ length (grad output) →
     i < length g →
     body output i g
     = Ok (<[i := derivative (data output !!! i) (grad output !!! i)]> g)) →
  backward_from_output
    (λ output input,
       input ← resize_grad input;
       g ← for_range (length (data output)) (body output) (grad input);
       Ok (with_grad input g))
    derivative.
Proof.
  intros Hbody output input Hne Hpos Hmax Hsize Hgrad.
  rewrite resize_grad_numel by done. rewrite bind_Ok. simpl grad.
  destruct (for_range_elementwise
              (λ i, derivative (data output !!! i) (grad output !!! i))
              (length (data output)) (body output)
              (list.resize (numel (shape input)) f0 (grad input)))
    as (g & Hrun & Hlen & Hval & _).
  - by rewrite length_resize.
  - intros i d' Hi Hd'. apply Hbody; [done | done |].
    rewrite Hd', length_resize. lia.
  - rewrite Hrun, bind_Ok. eexists. split; [done|]. simpl.
    rewrite Hlen, length_resize. done.
Qed.

Lemma ReLU_backward_spec : backward_from_output ReLU_backward ReLU_grad.
Proof.
  apply (elementwise_backward ReLU_grad
           (λ output i g,
              o ← vget (data output) i;
              v ← (if flt f0 o then vget (grad output) i else Ok f0);
              vset g i v)).
  intros output i g Hi Hg Hlen.
  rewrite (vget_total (data output)) by done. rewrite bind_Ok.
  unfold ReLU_grad. destruct (flt f0 (data output !!! i)).
  - rewrite (vget_total (grad output)) by lia. rewrite bind_Ok. by apply vset_within.
  - rewrite bind_Ok. by apply vset_within.
Qed.

Lemma Sigmoid_backward_spec : backward_from_output Sigmoid_backward Sigmoid_grad.
Proof.
  apply (elementwise_backward Sigmoid_grad
           (λ output i g,
              s ← vget (data output) i;
              og ← vget (grad output) i;
              vset g i (fmul (fmul og s) (fsub f1 s)))).
  intros output i g Hi Hg Hlen.
  rewrite (vget_total (data output)) by done. rewrite bind_Ok.
  rewrite (vget_total (grad output)) by lia. rewrite bind_Ok. by apply vset_within.
Qed.

Lemma Tanh_backward_spec : backward_from_output Tanh_backward Tanh_grad.
Proof.
  apply (elementwise_backward Tanh_grad
           (λ output i g,
              t ← vget (data output) i;
              og ← vget (grad output) i;
              vset g i (fmul og (fsub f1 (fmul t t))))).
  intros output i g Hi Hg Hlen.
  rewrite (vget_total (data output)) by done. rewrite bind_Ok.
  rewrite (vget_total (grad output)) by lia. rewrite bind_Ok. by apply vset_within.
Qed.
End ActivationFacts.

(** C5.  [backward] of ReLU, Sigmoid and Tanh computes each element of the
    input gradient from the forward output and the upstream gradient at the
    same index: [output_grad[i]] if [output[i] > 0] else [0];
    [output_grad[i] * s * (1 - s)] with [s = output[i]];
    [output_grad[i] * (1 - t * t)] with [t = output[i]].  The data of the
    input tensor is not read. *)
Theorem C5_activation_backward (F : Type) (SF : Scalar F) :
  backward_from_output ReLU_backward (λ y dy, if flt f0 y then dy else f0) ∧
  backward_from_output Sigmoid_backward (λ s dy, fmul (fmul dy s) (fsub f1 s)) ∧
  backward_from_output Tanh_backward (λ t dy, fmul dy (fsub f1 (fmul t t))).
Proof.
  split; [apply ReLU_backward_spec|]. split; [apply Sigmoid_backward_spec|].
  apply Tanh_backward_spec.
Qed.

(** C5 applied: a forward output [[2, 0, -3]] with upstream gradient
    [[5, 6, 7]]; the input tensor carries other data, which plays no role. *)
Lemma C5_activation_backward_witness :
  let output := mkTensor [3] (Binary32.of_Z <$> [2; 0; -3]%Z) (Binary32.of_Z <$> [5; 6; 7]%Z) in
  let input := mkTensor [3] (Binary32.of_Z <$> [9; 9; 9]%Z) [] in
  ∃ input',
    ReLU_backward (SF := Binary32.binary32) output input = Ok input' ∧
    grad input' !! 0 = Some (Binary32.of_Z 5) ∧
    grad input' !! 1 = Some (S754_zero false) ∧
    grad input' !! 2 = Some (S754_zero false).
Proof.
  intros output input.
  destruct (proj1 (C5_activation_backward spec_float Binary32.binary32) output input)
    as (input' & Hrun & _ & _ & _ & Hval);
    [done | repeat constructor; lia | vm_compute; discriminate | simpl; lia | simpl; lia |].
  exists input'. split; [exact Hrun|].
  split; [apply (Hval 0); simpl; lia|]. split; [apply (Hval 1); simpl; lia|].
  apply (Hval 2); simpl; lia.
Defined.

(** ** Facts of binary32 arithmetic *)

Section Binary32Facts.
Import Binary32.
Local Open Scope Z_scope.

Lemma shr_1_m mrs : 0 <= shr_m mrs -> shr_m (shr_1 mrs) = shr_m mrs / 2.
Proof.
  destruct mrs as [m r s]. simpl. intros Hm.
  destruct m as [|p|p]; [reflexivity| |lia].
  destruct p as [p|p|]; simpl.
  - rewrite Pos2Z.inj_xI. apply (Z.div_unique _ _ _ 1); lia.
  - rewrite Pos2Z.inj_xO. apply (Z.div_unique _ _ _ 0); lia.
  - reflexivity.
Qed.

Lemma pow2_xO n : 2 ^ Z.pos n~0 = 2 ^ Z.pos n * 2 ^ Z.pos n.
Proof.
  replace (Z.pos n~0) with (Z.pos n + Z.pos n) by lia. apply Z.pow_add_r; lia.
Qed.

Lemma pow2_xI n : 2 ^ Z.pos n~1 = 2 * (2 ^ Z.pos n * 2 ^ Z.pos n).
Proof.
  replace (Z.pos n~1) with (1 + (Z.pos n + Z.pos n)) by lia.
  rewrite Z.pow_add_r, Z.pow_add_r by lia. reflexivity.
Qed.

Lemma iter_shr_1_m n mrs :
  0 <= shr_m mrs -> shr_m (SpecFloat.iter_pos shr_1 n mrs) = shr_m mrs / 2 ^ Z.pos n.
Proof.
  revert mrs. induction n as [n IH|n IH|]; intros mrs Hm; simpl.
  - assert (0 <= shr_m (shr_1 mrs)) as H1 by (rewrite shr_1_m by lia; apply Z.div_pos; lia).
    assert (0 <= shr_m (SpecFloat.iter_pos shr_1 n (shr_1 mrs))) as H2
      by (rewrite IH by lia; apply Z.div_pos; lia).
    rewrite IH, IH, shr_1_m by lia.
    rewrite !Z.div_div by lia. by rewrite pow2_xI, Z.mul_assoc.
  - assert (0 <= shr_m (SpecFloat.iter_pos shr_1 n mrs)) as H2
      by (rewrite IH by lia; apply Z.div_pos; lia).
    rewrite IH, IH by lia.
    rewrite !Z.div_div by lia. by rewrite pow2_xO.
  - rewrite shr_1_m by lia. reflexivity.
Qed.

Lemma digits2_pos_lower q : 2 ^ (Z.pos (digits2_pos q) - 1) <= Z.pos q.
Proof.
  induction q as [q IH|q IH|]; simpl digits2_pos.
  - rewrite Pos2Z.inj_succ. replace (Z.succ (Z.pos (digits2_pos q)) - 1) with (Z.pos (digits2_pos q) - 1 + 1) by lia.
    rewrite Z.pow_add_r by lia. lia.
  - rewrite Pos2Z.inj_succ. replace (Z.succ (Z.pos (digits2_pos q)) - 1) with (Z.pos (digits2_pos q) - 1 + 1) by lia.
    rewrite Z.pow_add_r by lia. lia.
  - simpl. lia.
Qed.

Lemma shr_fexp_positive q e l :
  emin prec emax <= e ->
  let '(mrs, e') := shr_fexp prec emax (Z.pos q) e l in
  0 < shr_m mrs /\ e <= e'.
Proof.
  intros He. unfold shr_fexp, shr. simpl Zdigits2.
  set (d := Z.pos (digits2_pos q)).
  assert (SpecFloat.fexp prec emax (d + e) - e < d) as Hn.
  { unfold SpecFloat.fexp. unfold emin, prec, emax in *. lia. }
  assert (shr_m (shr_record_of_loc (Z.pos q) l) = Z.pos q) as Hm
    by (destruct l as [|[]]; reflexivity).
  destruct (SpecFloat.fexp prec emax (d + e) - e) as [|n|n] eqn:En.
  - split; [|lia]. rewrite Hm. lia.
  - split; [|lia]. rewrite iter_shr_1_m by (rewrite Hm; lia). rewrite Hm.
    pose proof (digits2_pos_lower q) as Hq. fold d in Hq.
    assert (2 ^ Z.pos n <= 2 ^ (d - 1)) by (apply Z.pow_le_mono_r; lia).
    apply Z.div_str_pos. lia.
  - split; [|lia]. rewrite Hm. lia.
Qed.

Lemma round_nearest_even_positive m l : 0 < m -> 0 < round_nearest_even m l.
Proof.
  intros Hm. unfold round_nearest_even. destruct l as [|[]]; try lia.
  destruct (Z.even m); lia.
Qed.

Lemma binary_round_aux_positive q e l :
  emin prec emax <= e ->
  match binary_round_aux prec emax false (Z.pos q) e l with
  | S754_finite false _ _ | S754_infinity false => True
  | _ => False
  end.
Proof.
  intros He. unfold binary_round_aux.
  pose proof (shr_fexp_positive q e l He) as H1.
  destruct (shr_fexp prec emax (Z.pos q) e l) as [mrs' e'].
  destruct H1 as [Hm' He'].
  pose proof (round_nearest_even_positive (shr_m mrs') (loc_of_shr_record mrs') Hm') as Hr.
  destruct (round_nearest_even (shr_m mrs') (loc_of_shr_record mrs')) as [|r|r]; try lia.
  pose proof (shr_fexp_positive r e' loc_Exact ltac:(lia)) as H2.
  destruct (shr_fexp prec emax (Z.pos r) e' loc_Exact) as [mrs'' e''].
  destruct H2 as [Hm'' _].
  destruct (shr_m mrs'') as [|m|m]; try lia.
  destruct (e'' <=? emax - prec); exact I.
Qed.

Lemma of_Z_positive q :
  match of_Z (Z.pos q) with
  | S754_finite false _ _ | S754_infinity false => True
  | _ => False
  end.
Proof.
  unfold of_Z, binary_normalize, binary_round.
  destruct (shl_align q 0 (SpecFloat.fexp prec emax (Z.pos (digits2_pos q) + 0))) as [mz ez] eqn:E.
  apply binary_round_aux_positive.
  unfold shl_align in E.
  destruct (SpecFloat.fexp prec emax (Z.pos (digits2_pos q) + 0) - 0) eqn:E'; injection E as <- <-;
    unfold SpecFloat.fexp, emin, prec, emax in *; lia.
Qed.

(** A positive integer converts to a positive float or to [+inf], never to
    zero or NaN. *)
Lemma of_size_positive (n : nat) :
  (0 < n)%nat →
  match of_size (Scalar := binary32) n with
  | S754_finite false _ _ | S754_infinity false => True
  | _ => False
  end.
Proof.
  intros Hn. simpl. destruct (Z.of_nat n) as [|q|q] eqn:E; [lia| |lia].
  apply of_Z_positive.
Qed.

(** [x - x] is [+0] for a finite [x]. *)
Lemma sub_diag_finite (x : spec_float) :
  is_finite x = true → SFsub prec emax x x = S754_zero false.
Proof.
  destruct x as [s|s| |s m e]; try discriminate; intros _.
  - by destruct s.
  - simpl. by rewrite Z.sub_diag.
Qed.

(** [+0 / n] is [+0] for a positive count [n]. *)
Lemma zero_div_size (n : nat) :
  (0 < n)%nat → SFdiv prec emax (S754_zero false) (of_size (Scalar := binary32) n)
                = S754_zero false.
Proof.
  intros Hn. pose proof (of_size_positive n Hn) as Hpos.
  destruct (of_size n) as [s|s| |s m e]; try done; by destruct s.
Qed.
End Binary32Facts.

(** ** mse_loss *)

Section MseFacts.
Context {F : Type} {SF : Scalar F}.

(** [mean((pred - target)²)]: the squares are summed from [0.0f] in index
    order and the sum is divided by the element count. *)
Definition mean_squared_error (pred target : list F) : F :=
  fdiv (fsum_from f0 (length pred)
          (λ i, let diff := fsub (pred !!! i) (target !!! i) in fmul diff diff))
       (of_size (length pred)).

Lemma mse_loss_mismatch (pred target : Tensor F) :
  length (data pred) ≠ length (data target) → mse_loss pred target = Err SizeMismatch.
Proof.
  intros Hne. unfold mse_loss. by rewrite (proj2 (Nat.eqb_neq _ _) Hne).
Qed.

Lemma mse_loss_value (pred target : Tensor F) :
  length (data pred) = length (data target) →
  mse_loss pred target
  = Ok (mkTensor [1] [mean_squared_error (data pred) (data target)] []).
Proof.
  intros Heq. unfold mse_loss. rewrite (proj2 (Nat.eqb_eq _ _) Heq). simpl negb. cbv iota.
  change (resize (mkTensor [1] [] [])) with (Ok (mkTensor [1] [f0 (F := F)] [])).
  rewrite bind_Ok. simpl data.
  change (vset [f0] 0 f0) with (Ok [f0 (F := F)]). rewrite bind_Ok.
  rewrite for_range_foldM.
  rewrite (foldM_rmw _ (λ i, let diff := fsub (data pred !!! i) (data target !!! i) in
                             fmul diff diff) _ 0).
  - rewrite bind_Ok. done.
  - simpl. lia.
  - intros i d Hi Hd. apply elem_of_seq in Hi.
    rewrite (vget_total (data pred)) by lia. rewrite bind_Ok.
    rewrite (vget_total (data target)) by lia. rewrite bind_Ok.
    rewrite (vget_total d) by (rewrite Hd; simpl; lia). rewrite bind_Ok.
    apply vset_within. rewrite Hd. simpl. lia.
Qed.
End MseFacts.

(** In binary32 the squared differences of a finite buffer with itself sum
    to [+0]. *)
Lemma squares_of_self_sum_to_zero (d : list spec_float) (I : list nat) :
  Forall (λ x, Binary32.is_finite x = true) d →
  (∀ i, i ∈ I → i < length d) →
  fsum_over (SF := Binary32.binary32) (S754_zero false) I
    (λ i, let diff := fsub (d !!! i) (d !!! i) in fmul diff diff)
  = S754_zero false.
Proof.
  intros Hfin. induction I as [|i I IH]; intros HI; [done|].
  simpl. rewrite sub_diag_finite.
  - simpl. apply IH. intros j Hj. apply HI. by right.
  - rewrite Forall_lookup in Hfin. apply (Hfin i).
    apply list_lookup_lookup_total_lt. apply HI. by left.
Qed.

(** The claim's third part fails on the source: two identical tensors that
    hold no element give [0.0f / 0], which is NaN. *)
Lemma C7_mse_loss_counterexample :
  mse_loss (SF := Binary32.binary32) Tensor_empty Tensor_empty
  = Ok (mkTensor [1] [S754_nan] []).
Proof. reflexivity. Qed.

(** C7, amended.  [mse_loss] fails with [SizeMismatch] exactly when the two
    data buffers differ in length; otherwise it returns a tensor of shape
    [[1]] whose single element is the mean of the squared elementwise
    differences.  On two identical tensors that hold at least one element,
    all elements finite, that element is exactly [+0] in binary32. *)
Theorem C7_mse_loss :
  (∀ (F : Type) (SF : Scalar F) (pred target : Tensor F),
     (mse_loss pred target = Err SizeMismatch
      ↔ length (data pred) ≠ length (data target)) ∧
     (length (data pred) = length (data target) →
      mse_loss pred target
      = Ok (mkTensor [1] [mean_squared_error (data pred) (data target)] []))) ∧
  (∀ t : Tensor spec_float,
     data t ≠ [] → Forall (λ x, Binary32.is_finite x = true) (data t) →
     mse_loss (SF := Binary32.binary32) t t = Ok (mkTensor [1] [S754_zero false] [])).
Proof.
  split.
  - intros F SF pred target. split; [split|].
    + intros Herr Heq. by rewrite mse_loss_value in Herr.
    + apply mse_loss_mismatch.
    + apply mse_loss_value.
  - intros t Hne Hfin. rewrite mse_loss_value by done. do 2 f_equal.
    unfold mean_squared_error, fsum_from. f_equal.
    rewrite (squares_of_self_sum_to_zero (data t)); [|done|].
    + apply zero_div_size. destruct (data t); [done | simpl; lia].
    + intros i Hi. apply elem_of_seq in Hi. lia.
Qed.

(** C7 applied to a tensor that holds [1.5] and [-2]. *)
Lemma C7_mse_loss_witness :
  let t := mkTensor [2] [Binary32.decimal 15 1; Binary32.of_Z (-2)] [] in
  mse_loss (SF := Binary32.binary32) t t = Ok (mkTensor [1] [S754_zero false] []).
Proof.
  intros t. apply (proj2 C7_mse_loss t); [discriminate|].
  repeat constructor.
Defined.

(** ** Model *)

Lemma insert_app_length {A} (l1 l2 : list A) (x y : A) :
  <[length l1 := x]> (l1 ++ y :: l2) = l1 ++ x :: l2.
Proof.
  replace (length l1) with (length l1 + 0) by lia. by rewrite insert_app_r.
Qed.

Section ModelFacts.
Context {F : Type} {SF : Scalar F}.

(** The forward sweep as the specification words it: the current tensor goes
    through the layers in order; every layer but the last writes into the
    next activation slot, which becomes the current tensor; the last layer
    writes into the caller's output.  The result is the layers and the
    activation slots after the sweep, and the output. *)
Fixpoint stream (ls : list (Layer F)) (slots : list (Tensor F)) (current output : Tensor F)
    : result (list (Layer F) * list (Tensor F) * Tensor F) :=
  match ls with
  | [] => Ok ([], slots, output)
  | [last] =>
      '(last, output) ← Layer_forward last current output;
      Ok ([last], slots, output)
  | layer :: rest =>
      match slots with
      | [] => Err Undefined
      | slot :: slots =>
          '(layer, slot) ← Layer_forward layer current slot;
          '(rest, slots, output) ← stream rest slots slot output;
          Ok (layer :: rest, slot :: slots, output)
      end
  end.

Lemma stream_lengths ls slots current output ls' slots' output' :
  stream ls slots current output = Ok (ls', slots', output') →
  length ls' = length ls ∧ length slots' = length slots.
Proof.
  revert slots current ls' slots' output'.
  induction ls as [|layer rest IH]; intros slots current ls' slots' output' Hrun.
  - by injection Hrun as <- <- <-.
  - simpl in Hrun. destruct rest as [|layer2 rest].
    + apply bind_eq_Ok in Hrun as ([last out] & _ & Hrun). by injection Hrun as <- <- <-.
    + destruct slots as [|slot slots]; [done|].
      apply bind_eq_Ok in Hrun as ([layer' slot'] & _ & Hrun).
      apply bind_eq_Ok in Hrun as ([[rest' slots''] out] & Hrest & Hrun).
      injection Hrun as <- <- <-. apply IH in Hrest as [Hl Hs]. simpl in *. lia.
Qed.

(** The pointer [current] of the loop of [Model::forward] before round [i]. *)
Definition current_before (i : nat) : const_tensor_ptr :=
  match i with
  | 0 => to_const_argument
  | S i' => to_mutable (to_activation i')
  end.

(** The loop of [Model::forward] from round [length done] on. *)
Lemma forward_loop_stream (rest done : list (Layer F)) (slots_done slots : list (Tensor F))
    (input output current : Tensor F) (n : nat) :
  n = length done + length rest →
  (Z.of_nat n ≤ SIZE_MAX)%Z →
  length slots_done = length done →
  length slots = length rest - 1 →
  load_const (mkTensors input output (slots_done ++ slots)) (current_before (length done))
  = Ok current →
  ('(ls, ts, _) ← for_loop (λ i '(ls, ts, current),
        let next := if i =? wrap64 (Z.of_nat (length ls) - 1)
                    then to_argument else to_activation i in
        layer ← vget ls i;
        src ← load_const ts current;
        dst ← load ts next;
        '(layer, dst) ← Layer_forward layer src dst;
        ls ← vset ls i layer;
        ts ← store ts next dst;
        Ok (ls, ts, to_mutable next))
      (length done) (length rest)
      (done ++ rest, mkTensors input output (slots_done ++ slots),
       current_before (length done));
   Ok (mkModel ls (cache ts), argument ts))
  = ('(rest', slots', output') ← stream rest slots current output;
     Ok (mkModel (done ++ rest') (slots_done ++ slots'), output')).
Proof.
  revert done slots_done slots output current.
  induction rest as [|layer rest IH]; intros done slots_done slots output current Hn Hmax Hsd Hs Hcur.
  - simpl. by rewrite app_nil_r.
  - simpl for_loop. rewrite length_app. simpl length.
    replace (Z.of_nat (length done + S (length rest)) - 1)%Z
      with (Z.of_nat (length done + length rest)) by lia.
    simpl in Hn. rewrite wrap64_small by lia.
    rewrite (vget_lookup _ _ layer) by (by rewrite lookup_app_r, Nat.sub_diag by lia).
    rewrite bind_Ok, Hcur, bind_Ok.
    destruct rest as [|layer2 rest].
    + (* the last layer *)
      rewrite Nat.add_0_r, Nat.eqb_refl. simpl load. rewrite bind_Ok.
      simpl stream. destruct (Layer_forward layer current output) as [[layer' out']|e]; [|done].
      rewrite !bind_Ok. rewrite vset_within by (rewrite length_app; simpl; lia).
      rewrite bind_Ok, insert_app_length. simpl store. rewrite bind_Ok.
      simpl for_loop. by rewrite !bind_Ok.
    + (* an inner layer *)
      rewrite (proj2 (Nat.eqb_neq _ _)) by (simpl; lia).
      destruct slots as [|slot slots]; [simpl in Hs; lia|].
      simpl load.
      rewrite (vget_lookup _ _ slot) by (by rewrite lookup_app_r, Hsd, Nat.sub_diag by lia).
      rewrite bind_Ok.
      change (stream (layer :: layer2 :: rest) (slot :: slots) current output)
        with ('(layer, slot) ← Layer_forward layer current slot;
              '(rest, slots, output) ← stream (layer2 :: rest) slots slot output;
              Ok (layer :: rest, slot :: slots, output)).
      destruct (Layer_forward layer current slot) as [[layer' slot']|e]; [|done].
      rewrite !bind_Ok. rewrite vset_within by (rewrite length_app; simpl; lia).
      rewrite bind_Ok, insert_app_length. simpl store.
      rewrite vset_within by (rewrite length_app; simpl; lia).
      rewrite !bind_Ok. rewrite <- Hsd, insert_app_length, Hsd.
      replace (done ++ layer' :: layer2 :: rest)
        with ((done ++ [layer']) ++ layer2 :: rest) by (by rewrite <- app_assoc).
      replace (slots_done ++ slot' :: slots)
        with ((slots_done ++ [slot']) ++ slots) by (by rewrite <- app_assoc).
      change (to_mutable (to_activation (length done)))
        with (current_before (S (length done))).
      pose proof (IH (done ++ [layer']) (slots_done ++ [slot']) slots output slot') as IH'.
      rewrite !length_app in IH'. simpl length in IH'. rewrite !Nat.add_1_r in IH'.
      etrans; [apply IH'|].
      * simpl in *. lia.
      * done.
      * lia.
      * simpl in *. lia.
      * simpl. apply vget_lookup.
        rewrite lookup_app_l by (rewrite length_app; simpl; lia).
        rewrite lookup_app_r by lia. by rewrite Hsd, Nat.sub_diag.
      * destruct (stream (layer2 :: rest) slots slot' output) as [[[r s] o]|e]; [|done].
        rewrite !bind_Ok. by rewrite <- !app_assoc.
Qed.

Lemma Model_forward_stream (m : Model F) (input output : Tensor F) :
  layers m ≠ [] →
  (Z.of_nat (length (layers m)) - 1 ≤ tensors_max_size)%Z →
  Model_forward m input output
  = ('(ls, slots, output) ←
       stream (layers m)
         (list.resize (length (layers m) - 1) Tensor_empty (activations m)) input output;
     Ok (mkModel ls slots, output)).
Proof.
  intros Hne Hmax. unfold Model_forward.
  assert (0 < length (layers m)) as Hpos by (destruct (layers m); [done | simpl; lia]).
  replace (Z.of_nat (length (layers m)) - 1)%Z with (Z.of_nat (length (layers m) - 1)) by lia.
  unfold tensors_max_size, SIZE_MAX in *.
  rewrite wrap64_small by (unfold SIZE_MAX; lia).
  rewrite vresize_within_fits by (unfold tensors_max_size; lia). rewrite bind_Ok.
  unfold for_range.
  apply (forward_loop_stream (layers m) [] []
           (list.resize (length (layers m) - 1) Tensor_empty (activations m))
           input output input (length (layers m))).
  - done.
  - unfold SIZE_MAX. lia.
  - done.
  - apply length_resize.
  - done.
Qed.

Lemma Model_forward_no_layers (slots : list (Tensor F)) (input output : Tensor F) :
  Model_forward (mkModel [] slots) input output = Err length_error.
Proof.
  unfold Model_forward. rewrite vresize_within_too_long; [done|].
  unfold wrap64. simpl layers. simpl length.
  rewrite Z2Nat.id by (by apply Z.mod_pos_bound).
  change (Z.of_nat 0 - 1)%Z with (-1)%Z. by vm_compute.
Qed.
End ModelFacts.

(** The model of the test [ForwardAndBackwardVSTorch]:
    Linear(3,2), ReLU, Linear(2,1), with the weights the test assigns. *)
Definition Reference_model32 : Model spec_float :=
  add_layer
    (add_layer
       (add_layer Model_new (Linear_layer Reference.linear32))
       ReLU_layer)
    (Linear_layer
       (mkLinear (mkTensor [2; 1] (Reference.floats 1 [7; 8]%Z) [])
                 (mkTensor [1] (Reference.floats 1 [3]%Z) []))).

(** C8.  On a model with at least one layer, [Model::forward] sizes the
    activation cache to [layer_count - 1] slots and is the sweep [stream]:
    the input goes through the layers in registration order, each layer but
    the last writing into its activation slot and the last one into the
    caller's output.  On a model without layers, [layers.size() - 1] wraps
    around to [SIZE_MAX] and the call fails in [activations.resize] with
    [std::length_error]; it is no clean no-op. *)
Theorem C8_Model_forward (F : Type) (SF : Scalar F) :
  (∀ (m : Model F) (input output : Tensor F),
     layers m ≠ [] →
     (Z.of_nat (length (layers m)) - 1 ≤ tensors_max_size)%Z →
     Model_forward m input output
     = ('(ls, slots, output) ←
          stream (layers m)
            (list.resize (length (layers m) - 1) Tensor_empty (activations m))
            input output;
        Ok (mkModel ls slots, output)) ∧
     ∀ m' output',
       Model_forward m input output = Ok (m', output') →
       length (activations m') = length (layers m) - 1 ∧
       length (layers m') = length (layers m)) ∧
  (∀ (slots : list (Tensor F)) (input output : Tensor F),
     wrap64 (Z.of_nat (length (@nil (Layer F))) - 1) = Z.to_nat SIZE_MAX ∧
     Model_forward (mkModel [] slots) input output = Err length_error).
Proof.
  split.
  - intros m input output Hne Hmax.
    pose proof (Model_forward_stream m input output Hne Hmax) as Heq.
    split; [done|]. intros m' output' Hrun. rewrite Heq in Hrun.
    apply bind_eq_Ok in Hrun as ([[ls slots] out] & Hstream & Hrun).
    injection Hrun as <- <-. apply stream_lengths in Hstream as [Hl Hs].
    simpl. rewrite Hs, length_resize. done.
  - intros slots input output. split; [|apply Model_forward_no_layers].
    unfold wrap64. f_equal.
Qed.

(** C8 applied to the three-layer model of the test. *)
Lemma C8_Model_forward_witness :
  ∃ m' output',
    Model_forward Reference_model32 Reference.input32 Tensor_empty = Ok (m', output') ∧
    length (activations m') = 2 ∧
    shape output' = [2; 1] ∧
    Reference.all_near (data output') [908; 1385]%Z 1000 10000 = true.
Proof.
  destruct (proj1 (C8_Model_forward spec_float Binary32.binary32)
              Reference_model32 Reference.input32 Tensor_empty)
    as [Heq Hlen]; [discriminate | vm_compute; discriminate |].
  eexists _, _. split; [rewrite Heq; vm_compute; reflexivity|].
  split; [reflexivity|]. split; reflexivity.
Defined.

(** The guard of [Model::backward] on a model that never ran [forward]: it
    throws unless the model has exactly one layer. *)
Lemma Model_backward_guard {F : Type} {SF : Scalar F}
    (ls : list (Layer F)) (output input : Tensor F) :
  length ls ≠ 1 → (Z.of_nat (length ls) ≤ SIZE_MAX)%Z →
  Model_backward (mkModel ls []) output input = Err IllegalState.
Proof.
  intros Hne Hmax. unfold Model_backward. simpl layers. simpl activations.
  destruct ls as [|l1 [|l2 ls]]; [done| simpl in Hne; lia |].
  replace (Z.of_nat (length (l1 :: l2 :: ls)) - 1)%Z
    with (Z.of_nat (S (length ls))) by (simpl length; lia).
  rewrite wrap64_small by (simpl length in Hmax; lia). done.
Qed.

(** C4 fails on a model of one layer: with [layers.size() - 1 = 0] the guard
    [activations.size() != layers.size() - 1] does not fire on the empty
    cache, and [backward] runs the layer although [forward] was never
    called.  Here: one ReLU layer, upstream gradient [[1]]. *)
Theorem C4_backward_before_forward_single_layer :
  Model_backward (add_layer Model_new ReLU_layer)
    (mkTensor [1] [Binary32.of_Z 1] [Binary32.of_Z 1])
    (mkTensor [1] [] [])
  = Ok (mkModel [ReLU_layer] [], mkTensor [1] [] [Binary32.of_Z 1]).
Proof. reflexivity. Qed.

(** ** BatchNorm: the positions of a channel *)

(** The flat positions of channel [f] (1d), [c] (2d, 3d) of a row-major
    tensor, in the order the loops of the source visit them. *)
Definition channel1d (B nf f : nat) : list nat :=
  (λ b, b * nf + f) <$> seq 0 B.

Definition channel2d (N C H W c : nat) : list nat :=
  n ← seq 0 N; h ← seq 0 H;
  (λ w, n * C * H * W + c * H * W + h * W + w) <$> seq 0 W.

Definition channel3d (N C D H W c : nat) : list nat :=
  n ← seq 0 N; d ← seq 0 D; h ← seq 0 H;
  (λ w, n * C * D * H * W + c * D * H * W + d * H * W + h * W + w) <$> seq 0 W.

Lemma elem_of_channel1d B nf f i :
  i ∈ channel1d B nf f ↔ ∃ b, b < B ∧ i = b * nf + f.
Proof.
  unfold channel1d. rewrite list_elem_of_fmap. split.
  - intros (b & -> & Hb). apply elem_of_seq in Hb. exists b. lia.
  - intros (b & Hb & ->). exists b. split; [done|]. apply elem_of_seq. lia.
Qed.

Lemma elem_of_channel2d N C H W c i :
  i ∈ channel2d N C H W c ↔
  ∃ n h w, n < N ∧ h < H ∧ w < W ∧ i = n * C * H * W + c * H * W + h * W + w.
Proof.
  unfold channel2d. rewrite list_elem_of_bind. split.
  - intros (n & Hi & Hn). apply list_elem_of_bind in Hi as (h & Hi & Hh).
    apply list_elem_of_fmap in Hi as (w & -> & Hw).
    apply elem_of_seq in Hn, Hh, Hw. exists n, h, w. lia.
  - intros (n & h & w & Hn & Hh & Hw & ->). exists n. split; [|apply elem_of_seq; lia].
    apply list_elem_of_bind. exists h. split; [|apply elem_of_seq; lia].
    apply list_elem_of_fmap. exists w. split; [done|]. apply elem_of_seq. lia.
Qed.

Lemma elem_of_channel3d N C D H W c i :
  i ∈ channel3d N C D H W c ↔
  ∃ n d h w, n < N ∧ d < D ∧ h < H ∧ w < W ∧
    i = n * C * D * H * W + c * D * H * W + d * H * W + h * W + w.
Proof.
  unfold channel3d. rewrite list_elem_of_bind. split.
  - intros (n & Hi & Hn). apply list_elem_of_bind in Hi as (d & Hi & Hd).
    apply list_elem_of_bind in Hi as (h & Hi & Hh).
    apply list_elem_of_fmap in Hi as (w & -> & Hw).
    apply elem_of_seq in Hn, Hd, Hh, Hw. exists n, d, h, w. lia.
  - intros (n & d & h & w & Hn & Hd & Hh & Hw & ->).
    exists n. split; [|apply elem_of_seq; lia].
    apply list_elem_of_bind. exists d. split; [|apply elem_of_seq; lia].
    apply list_elem_of_bind. exists h. split; [|apply elem_of_seq; lia].
    apply list_elem_of_fmap. exists w. split; [done|]. apply elem_of_seq. lia.
Qed.

(** The positions of a channel lie inside the tensor, and two channels share
    no position. *)
Lemma channel1d_lt B nf f i : f < nf → i ∈ channel1d B nf f → i < B * nf.
Proof.
  intros Hf (b & Hb & ->)%elem_of_channel1d. by apply rowmajor_lt.
Qed.

Lemma channel1d_disjoint B nf f f' i :
  f < nf → f' < nf → i ∈ channel1d B nf f → i ∈ channel1d B nf f' → f = f'.
Proof.
  intros Hf Hf' (b & Hb & ->)%elem_of_channel1d (b' & Hb' & Heq)%elem_of_channel1d.
  by apply rowmajor_inj in Heq as [_ ?].
Qed.

Lemma channel2d_lt N C H W c i : c < C → i ∈ channel2d N C H W c → i < N * C * H * W.
Proof.
  intros Hc (n & h & w & Hn & Hh & Hw & ->)%elem_of_channel2d.
  replace (n * C * H * W + c * H * W + h * W + w)
    with (((n * C + c) * H + h) * W + w) by lia.
  apply rowmajor_lt; [|done]. apply rowmajor_lt; [|done]. by apply rowmajor_lt.
Qed.

Lemma channel2d_disjoint N C H W c c' i :
  c < C → c' < C → i ∈ channel2d N C H W c → i ∈ channel2d N C H W c' → c = c'.
Proof.
  intros Hc Hc' (n & h & w & Hn & Hh & Hw & ->)%elem_of_channel2d
    (n' & h' & w' & Hn' & Hh' & Hw' & Heq)%elem_of_channel2d.
  replace (n * C * H * W + c * H * W + h * W + w)
    with (((n * C + c) * H + h) * W + w) in Heq by lia.
  replace (n' * C * H * W + c' * H * W + h' * W + w')
    with (((n' * C + c') * H + h') * W + w') in Heq by lia.
  apply rowmajor_inj in Heq as [Heq _]; [|done..].
  apply rowmajor_inj in Heq as [Heq _]; [|done..].
  by apply rowmajor_inj in Heq as [_ ?].
Qed.

Lemma channel3d_lt N C D H W c i :
  c < C → i ∈ channel3d N C D H W c → i < N * C * D * H * W.
Proof.
  intros Hc (n & d & h & w & Hn & Hd & Hh & Hw & ->)%elem_of_channel3d.
  replace (n * C * D * H * W + c * D * H * W + d * H * W + h * W + w)
    with ((((n * C + c) * D + d) * H + h) * W + w) by lia.
  apply rowmajor_lt; [|done]. apply rowmajor_lt; [|done].
  apply rowmajor_lt; [|done]. by apply rowmajor_lt.
Qed.

Lemma channel3d_disjoint N C D H W c c' i :
  c < C → c' < C → i ∈ channel3d N C D H W c → i ∈ channel3d N C D H W c' → c = c'.
Proof.
  intros Hc Hc' (n & d & h & w & Hn & Hd & Hh & Hw & ->)%elem_of_channel3d
    (n' & d' & h' & w' & Hn' & Hd' & Hh' & Hw' & Heq)%elem_of_channel3d.
  replace (n * C * D * H * W + c * D * H * W + d * H * W + h * W + w)
    with ((((n * C + c) * D + d) * H + h) * W + w) in Heq by lia.
  replace (n' * C * D * H * W + c' * D * H * W + d' * H * W + h' * W + w')
    with ((((n' * C + c') * D + d') * H + h') * W + w') in Heq by lia.
  apply rowmajor_inj in Heq as [Heq _]; [|done..].
  apply rowmajor_inj in Heq as [Heq _]; [|done..].
  apply rowmajor_inj in Heq as [Heq _]; [|done..].
  by apply rowmajor_inj in Heq as [_ ?].
Qed.

Lemma length_bind_const {A B} (f : A → list B) (l : list A) k :
  (∀ x, length (f x) = k) → length (l ≫= f) = length l * k.
Proof.
  intros Hf. induction l as [|x l IH]; [done|].
  rewrite bind_cons, length_app, Hf, IH. simpl. lia.
Qed.

Lemma length_channel1d B nf f : length (channel1d B nf f) = B.
Proof. unfold channel1d. by rewrite length_fmap, length_seq. Qed.

Lemma length_channel2d N C H W c : length (channel2d N C H W c) = N * H * W.
Proof.
  unfold channel2d. rewrite (length_bind_const _ _ (H * W)), length_seq; [lia|].
  intros n. rewrite (length_bind_const _ _ W), length_seq; [lia|].
  intros h. by rewrite length_fmap, length_seq.
Qed.

Lemma length_channel3d N C D H W c : length (channel3d N C D H W c) = N * D * H * W.
Proof.
  unfold channel3d. rewrite (length_bind_const _ _ (D * H * W)), length_seq; [lia|].
  intros n. rewrite (length_bind_const _ _ (H * W)), length_seq; [lia|].
  intros d. rewrite (length_bind_const _ _ W), length_seq; [lia|].
  intros h. by rewrite length_fmap, length_seq.
Qed.

(** The loop nests over the positions of a channel. *)
Section Nests.
Context {S : Type}.

Lemma for_range_positions1 (B : nat) (idx : nat → nat) (body : nat → S → result S) s :
  for_range B (λ b, body (idx b)) s = foldM body (idx <$> seq 0 B) s.
Proof. by rewrite for_range_foldM, foldM_map. Qed.

Lemma for_range_positions3 (N H W : nat) (idx : nat → nat → nat → nat)
    (body : nat → S → result S) s :
  for_range N (λ n, for_range H (λ h, for_range W (λ w, body (idx n h w)))) s
  = foldM body (n ← seq 0 N; h ← seq 0 H; (λ w, idx n h w) <$> seq 0 W) s.
Proof.
  rewrite for_range_foldM, <- foldM_nest. apply foldM_ext. intros n s1 _.
  rewrite for_range_foldM, <- foldM_nest. apply foldM_ext. intros h s2 _.
  apply for_range_positions1.
Qed.

Lemma for_range_positions4 (N D H W : nat) (idx : nat → nat → nat → nat → nat)
    (body : nat → S → result S) s :
  for_range N (λ n, for_range D (λ d, for_range H (λ h,
    for_range W (λ w, body (idx n d h w))))) s
  = foldM body (n ← seq 0 N; d ← seq 0 D; h ← seq 0 H; (λ w, idx n d h w) <$> seq 0 W) s.
Proof.
  rewrite for_range_foldM, <- foldM_nest. apply foldM_ext. intros n s1 _.
  apply for_range_positions3.
Qed.

(** Invariant rule for a counted loop. *)
Lemma for_range_inv (P : nat → S → Prop) n (body : nat → S → result S) s :
  P 0 s →
  (∀ i s, i < n → P i s → ∃ s', body i s = Ok s' ∧ P (Datatypes.S i) s') →
  ∃ s', for_range n body s = Ok s' ∧ P n s'.
Proof.
  intros H0 Hstep. unfold for_range.
  assert (∀ count from s, from + count = n → P from s →
            ∃ s', for_loop body from count s = Ok s' ∧ P n s') as Hgen.
  { induction count as [|count IH]; intros from s0 Hn HP.
    - exists s0. split; [done|]. by replace n with from by lia.
    - destruct (Hstep from s0) as (s1 & Hb & HP1); [lia | done |].
      simpl. rewrite Hb, bind_Ok. apply IH; [lia | done]. }
  by apply (Hgen n 0).
Qed.
End Nests.

(** ** BatchNorm: forward *)

Section BatchNormForward.
Context {F : Type} {SF : Scalar F}.

(** The statistics of the positions [I] of the buffer [X]: the mean, the
    biased variance (both divide by [count], the number of positions) and the
    normalised value at position [i]. *)
Definition bn_mean (X : list F) (I : list nat) (count : nat) : F :=
  fdiv (fsum_over f0 I (λ i, X !!! i)) (of_size count).

Definition bn_var (X : list F) (I : list nat) (count : nat) : F :=
  fdiv (fsum_over f0 I
          (λ i, fmul (fsub (X !!! i) (bn_mean X I count))
                     (fsub (X !!! i) (bn_mean X I count))))
       (of_size count).

Definition bn_inv_std (eps var : F) : F := fdiv f1 (fsqrt (fadd var eps)).

Definition bn_x_hat (X : list F) (I : list nat) (count : nat) (eps : F) (i : nat) : F :=
  fmul (fsub (X !!! i) (bn_mean X I count)) (bn_inv_std eps (bn_var X I count)).

(** [gamma[c] * x_hat + beta[c]] for an affine layer, [x_hat] otherwise. *)
Definition bn_output (l : BatchNorm F) (c : nat) (x_hat : F) : F :=
  if affine l then fadd (fmul (data (gamma l) !!! c) x_hat) (data (beta l) !!! c)
  else x_hat.

(** A running statistic after a forward call: the batch statistic itself on
    the first call, the blend [(1 - momentum) * old + momentum * stat] later. *)
Definition running_update (first : bool) (momentum old stat : F) : F :=
  if first then stat else fadd (fmul (fsub f1 momentum) old) (fmul momentum stat).

(** The layer with other running statistics. *)
Definition set_running (l : BatchNorm F) (rm rv : list F) : BatchNorm F :=
  with_running_var (with_running_mean l (with_data (running_mean l) rm))
    (with_data (running_var l) rv).

Lemma set_running_same (l : BatchNorm F) :
  set_running l (data (running_mean l)) (data (running_var l)) = l.
Proof. destruct l as [? ? ? ? ? ? ? [? ? ?] [? ? ?] ? ?]. reflexivity. Qed.

Lemma set_running_twice (l : BatchNorm F) rm rv rm' rv' :
  set_running (set_running l rm rv) rm' rv' = set_running l rm' rv'.
Proof. reflexivity. Qed.

Lemma update_running_tracked (l : BatchNorm F) rm rv c mean var :
  track_running_stats l = true → c < length rm → c < length rv →
  update_running (set_running l rm rv) c mean var
  = Ok (set_running l
          (<[c := running_update (first_update l) (momentum l) (rm !!! c) mean]> rm)
          (<[c := running_update (first_update l) (momentum l) (rv !!! c) var]> rv)).
Proof.
  intros Ht Hm Hv. unfold update_running, running_update. simpl. rewrite Ht.
  destruct (first_update l).
  - rewrite !vset_within by done. by rewrite !bind_Ok.
  - rewrite (vget_total rm), bind_Ok, vset_within, bind_Ok by done.
    rewrite (vget_total rv), bind_Ok, vset_within, bind_Ok by done. done.
Qed.

Lemma update_running_untracked (l : BatchNorm F) c mean var :
  track_running_stats l = false → update_running l c mean var = Ok l.
Proof. intros Ht. unfold update_running. by rewrite Ht. Qed.

Lemma scale_shift_value (l : BatchNorm F) rm rv c x_hat :
  (affine l = true → c < length (data (gamma l)) ∧ c < length (data (beta l))) →
  scale_shift (set_running l rm rv) c x_hat = Ok (bn_output l c x_hat).
Proof.
  intros Ha. unfold scale_shift, bn_output. simpl. destruct (affine l); [|done].
  destruct Ha as [Hg Hb]; [done|].
  rewrite (vget_total (data (gamma l))), bind_Ok by done.
  by rewrite (vget_total (data (beta l))), bind_Ok by done.
Qed.

(** The loop over the channels, with the positions of each channel given as a
    list: what the three [forward] functions run after their checks. *)
Definition forward_channels (I : nat → list nat) (count : nat) (X : list F) (C : nat)
    (s : BatchNorm F * list F) : result (BatchNorm F * list F) :=
  for_range C (λ c '(l, od),
    mean ← foldM (λ i mean, x ← vget X i; Ok (fadd mean x)) (I c) f0;
    let mean := fdiv mean (of_size count) in
    var ← foldM (λ i var,
            x ← vget X i;
            let diff := fsub x mean in
            Ok (fadd var (fmul diff diff))) (I c) f0;
    let var := fdiv var (of_size count) in
    l ← update_running l c mean var;
    let inv_std := fdiv f1 (fsqrt (fadd var (eps l))) in
    od ← foldM (λ i od,
            x ← vget X i;
            let x_hat := fmul (fsub x mean) inv_std in
            y ← scale_shift l c x_hat;
            vset od i y) (I c) od;
    Ok (l, od)) s.

Lemma mean_loop (X : list F) (I : list nat) :
  (∀ i, i ∈ I → i < length X) →
  foldM (λ i mean, x ← vget X i; Ok (fadd mean x)) I f0
  = Ok (fsum_over f0 I (λ i, X !!! i)).
Proof.
  intros HI. apply (foldM_acc _ (λ i, X !!! i)).
  intros i acc Hi. by rewrite vget_total, bind_Ok by (by apply HI).
Qed.

Lemma var_loop (X : list F) (I : list nat) (mean : F) :
  (∀ i, i ∈ I → i < length X) →
  foldM (λ i var, x ← vget X i; Ok (fadd var (fmul (fsub x mean) (fsub x mean)))) I f0
  = Ok (fsum_over f0 I (λ i, fmul (fsub (X !!! i) mean) (fsub (X !!! i) mean))).
Proof.
  intros HI.
  apply (foldM_acc _ (λ i, fmul (fsub (X !!! i) mean) (fsub (X !!! i) mean))).
  intros i acc Hi. by rewrite vget_total, bind_Ok by (by apply HI).
Qed.

(** What the loop over the channels leaves behind. *)
Lemma forward_channels_spec (I : nat → list nat) (count : nat) (X : list F) (C : nat)
    (l : BatchNorm F) (od : list F) :
  (∀ c i, c < C → i ∈ I c → i < length X ∧ i < length od) →
  (∀ c c' i, c < C → c' < C → i ∈ I c → i ∈ I c' → c = c') →
  (affine l = true → C ≤ length (data (gamma l)) ∧ C ≤ length (data (beta l))) →
  (track_running_stats l = true →
   C ≤ length (data (running_mean l)) ∧ C ≤ length (data (running_var l))) →
  ∃ rm rv od',
    forward_channels I count X C (l, od) = Ok (set_running l rm rv, od') ∧
    length rm = length (data (running_mean l)) ∧
    length rv = length (data (running_var l)) ∧
    (track_running_stats l = false →
     rm = data (running_mean l) ∧ rv = data (running_var l)) ∧
    (track_running_stats l = true → ∀ c, c < C →
       rm !! c = Some (running_update (first_update l) (momentum l)
                         (data (running_mean l) !!! c) (bn_mean X (I c) count)) ∧
       rv !! c = Some (running_update (first_update l) (momentum l)
                         (data (running_var l) !!! c) (bn_var X (I c) count))) ∧
    length od' = length od ∧
    ∀ c i, c < C → i ∈ I c →
      od' !! i = Some (bn_output l c (bn_x_hat X (I c) count (eps l) i)).
Proof.
  intros HI Hdisj Haff Htrack.
  set (rm0 := data (running_mean l)). set (rv0 := data (running_var l)).
  destruct (for_range_inv
    (λ k (s : BatchNorm F * list F), ∃ rm rv,
       s.1 = set_running l rm rv ∧
       length rm = length rm0 ∧ length rv = length rv0 ∧
       (track_running_stats l = false → rm = rm0 ∧ rv = rv0) ∧
       (∀ c, k ≤ c → rm !! c = rm0 !! c ∧ rv !! c = rv0 !! c) ∧
       (track_running_stats l = true → ∀ c, c < k →
          rm !! c = Some (running_update (first_update l) (momentum l)
                            (rm0 !!! c) (bn_mean X (I c) count)) ∧
          rv !! c = Some (running_update (first_update l) (momentum l)
                            (rv0 !!! c) (bn_var X (I c) count))) ∧
       length s.2 = length od ∧
       ∀ c i, c < k → i ∈ I c →
         s.2 !! i = Some (bn_output l c (bn_x_hat X (I c) count (eps l) i)))
    C
    (λ c '(l, od),
      mean ← foldM (λ i mean, x ← vget X i; Ok (fadd mean x)) (I c) f0;
      let mean := fdiv mean (of_size count) in
      var ← foldM (λ i var,
              x ← vget X i;
              let diff := fsub x mean in
              Ok (fadd var (fmul diff diff))) (I c) f0;
      let var := fdiv var (of_size count) in
      l ← update_running l c mean var;
      let inv_std := fdiv f1 (fsqrt (fadd var (eps l))) in
      od ← foldM (λ i od,
              x ← vget X i;
              let x_hat := fmul (fsub x mean) inv_std in
              y ← scale_shift l c x_hat;
              vset od i y) (I c) od;
      Ok (l, od))
    (l, od)) as ([l' od'] & Hrun & rm & rv & Hl' & Hlm & Hlv & Hun & _ & Htr & Hlen & Hval).
  - exists rm0, rv0. simpl. rewrite set_running_same.
    repeat split; try done; intros; lia.
  - intros c [l1 od1] Hc (rm & rv & Hl1 & Hlm & Hlv & Hun & Hrest & Htr & Hlen & Hval).
    simpl in Hl1, Hlen, Hval. subst l1.
    assert (∀ i, i ∈ I c → i < length X) as HX by (intros i Hi; by apply (HI c)).
    cbv zeta. rewrite mean_loop, bind_Ok by done. rewrite var_loop, bind_Ok by done.
    fold (bn_mean X (I c) count). fold (bn_var X (I c) count).
    assert (∃ rm' rv',
      update_running (set_running l rm rv) c (bn_mean X (I c) count) (bn_var X (I c) count)
      = Ok (set_running l rm' rv') ∧
      length rm' = length rm0 ∧ length rv' = length rv0 ∧
      (track_running_stats l = false → rm' = rm0 ∧ rv' = rv0) ∧
      (∀ c', S c ≤ c' → rm' !! c' = rm0 !! c' ∧ rv' !! c' = rv0 !! c') ∧
      (track_running_stats l = true → ∀ c', c' < S c →
         rm' !! c' = Some (running_update (first_update l) (momentum l)
                             (rm0 !!! c') (bn_mean X (I c') count)) ∧
         rv' !! c' = Some (running_update (first_update l) (momentum l)
                             (rv0 !!! c') (bn_var X (I c') count))))
      as (rm' & rv' & Hupd & Hlm' & Hlv' & Hun' & Hrest' & Htr').
    { destruct (track_running_stats l) eqn:Ht.
      - destruct Htrack as [Hm Hv]; [done|]. fold rm0 rv0 in Hm, Hv.
        eexists _, _. split; [apply update_running_tracked; (done || lia)|].
        rewrite !length_insert.
        split; [done|]. split; [done|]. split; [done|]. split.
        + intros c' Hc'. rewrite !list_lookup_insert_ne by lia. apply Hrest. lia.
        + intros _ c' Hc'. destruct (decide (c' = c)) as [->|Hne].
          * rewrite !list_lookup_insert_eq by lia.
            destruct (Hrest c) as [Hr1 Hr2]; [lia|].
            rewrite !(list_lookup_total_alt rm), !(list_lookup_total_alt rv), Hr1, Hr2.
            by rewrite <- !list_lookup_total_alt.
          * rewrite !list_lookup_insert_ne by done. apply Htr; [done | lia].
      - exists rm, rv. split; [by apply update_running_untracked|].
        split; [done|]. split; [done|]. split; [done|]. split; [|done].
        intros c' Hc'. apply Hrest. lia. }
    rewrite Hupd, bind_Ok.
    rewrite (foldM_writes (λ i, i)
               (λ i, bn_output l c (bn_x_hat X (I c) count (eps l) i))).
    + rewrite bind_Ok. eexists. split; [done|]. exists rm', rv'. simpl.
      split; [done|]. split; [done|]. split; [done|]. split; [done|].
      split; [done|]. split; [done|]. split; [by rewrite length_writes|].
      intros c' i Hc' Hi. destruct (decide (c' = c)) as [->|Hne].
      * apply lookup_writes_in.
        -- rewrite Hlen. by apply (HI c).
        -- eexists. apply list_elem_of_fmap. by exists i.
        -- intros w Hin. apply list_elem_of_fmap in Hin as (i' & [= -> ->] & _). done.
      * rewrite lookup_writes_notin; [apply Hval; [lia | done]|].
        intros v Hin. apply list_elem_of_fmap in Hin as (i' & [= -> ->] & Hin).
        apply Hne. apply (Hdisj c' c i'); (done || lia).
    + intros i d' Hi Hd'.
      rewrite vget_total, bind_Ok by (by apply HX).
      rewrite scale_shift_value, bind_Ok.
      * apply vset_within. rewrite Hd', Hlen. by apply (HI c).
      * intros Ha. destruct (Haff Ha). lia.
  - simpl in Hl', Hlen, Hval. subst l'.
    exists rm, rv, od'. split; [exact Hrun|].
    split; [done|]. split; [done|]. split; [done|]. split; [done|]. done.
Qed.
End BatchNormForward.

Lemma foldM_ext_inv {S I} (Inv : S → Prop) (b1 b2 : I → S → result S) (l : list I) (s : S) :
  (∀ i s, i ∈ l → Inv s → b1 i s = b2 i s ∧ ∀ s', b2 i s = Ok s' → Inv s') →
  Inv s → foldM b1 l s = foldM b2 l s.
Proof.
  revert s. induction l as [|i l IH]; intros s Hb Hs; [done|].
  simpl. destruct (Hb i s) as [Heq Hinv]; [by left | done |].
  rewrite Heq. destruct (b2 i s) as [s'|e]; [|done]. simpl.
  apply IH; [|by apply Hinv]. intros j s'' Hj. apply Hb. by right.
Qed.

Lemma bind_ext {A B} (r1 r2 : result A) (k1 k2 : A → result B) :
  (∀ a, k1 a = k2 a) → r1 = r2 → (r1 ≫= k1) = (r2 ≫= k2).
Proof. intros Hk ->. destruct r2; [apply Hk | done]. Qed.

Lemma numel_4 a b c d : numel [a; b; c; d] = a * b * c * d.
Proof. simpl. lia. Qed.

Lemma numel_5 a b c d e : numel [a; b; c; d; e] = a * b * c * d * e.
Proof. simpl. lia. Qed.

Section BatchNormForwardVariants.
Context {F : Type} {SF : Scalar F}.

(** The bodies of the three innermost loops of [forward], at position [i]. *)
Definition mean_body (X : list F) (i : nat) (mean : F) : result F :=
  x ← vget X i; Ok (fadd mean x).

Definition var_body (X : list F) (mean : F) (i : nat) (var : F) : result F :=
  x ← vget X i; Ok (fadd var (fmul (fsub x mean) (fsub x mean))).

Definition output_body (X : list F) (l : BatchNorm F) (c : nat) (mean inv_std : F)
    (i : nat) (od : list F) : result (list F) :=
  x ← vget X i; y ← scale_shift l c (fmul (fsub x mean) inv_std); vset od i y.

(** The state after a successful [forward]: the loop over the channels ran
    on the layer that has cached the input, and [first_update] is cleared. *)
Definition forward_result (I : nat → list nat) (count C : nat) (dims : list nat)
    (l : BatchNorm F) (input output : Tensor F) : result (BatchNorm F * Tensor F) :=
  '(l, od) ← forward_channels I count (data input) C
               (with_input_data l (data input),
                list.resize (numel dims) f0 (data output));
  Ok (with_first_update l false, mkTensor dims od (grad output)).

Lemma update_running_num_features (l l' : BatchNorm F) c mean var :
  update_running l c mean var = Ok l' → num_features l' = num_features l.
Proof.
  unfold update_running. destruct (track_running_stats l); [|by intros [= <-]].
  destruct (first_update l).
  - intros (rm & _ & (rv & _ & [= <-])%bind_eq_Ok)%bind_eq_Ok. done.
  - intros (m & _ & (rm & _ & (v & _ & (rv & _ & [= <-])%bind_eq_Ok)%bind_eq_Ok)%bind_eq_Ok)
      %bind_eq_Ok. done.
Qed.

Lemma forward_channel_num_features (I : nat → list nat) (count : nat) (X : list F)
    (c : nat) (s s' : BatchNorm F * list F) :
  (let '(l, od) := s in
   mean ← foldM (mean_body X) (I c) f0;
   var ← foldM (var_body X (fdiv mean (of_size count))) (I c) f0;
   l ← update_running l c (fdiv mean (of_size count)) (fdiv var (of_size count));
   od ← foldM (output_body X l c (fdiv mean (of_size count))
                 (fdiv f1 (fsqrt (fadd (fdiv var (of_size count)) (eps l))))) (I c) od;
   Ok (l, od)) = Ok s' →
  num_features s'.1 = num_features s.1.
Proof.
  destruct s as [l od]. intros (mean & _ & Hrun)%bind_eq_Ok.
  apply bind_eq_Ok in Hrun as (var & _ & Hrun).
  apply bind_eq_Ok in Hrun as (l2 & Hupd & Hrun).
  apply bind_eq_Ok in Hrun as (od2 & _ & [= <-]). simpl.
  by apply update_running_num_features in Hupd.
Qed.

Lemma BatchNorm1d_forward_channels (l : BatchNorm F) (input output : Tensor F) (B : nat) :
  shape input = [B; num_features l] →
  0 < B → 0 < num_features l →
  (Z.of_nat (B * num_features l) ≤ vector_max_size)%Z →
  BatchNorm1d_forward l input output
  = forward_result (channel1d B (num_features l)) B (num_features l)
      [B; num_features l] l input output.
Proof.
  intros Hs HB Hnf Hmax. unfold BatchNorm1d_forward, forward_result.
  rewrite Hs. simpl length. rewrite Nat.eqb_refl.
  change ([B; num_features l] !!! 1) with (num_features l). rewrite Nat.eqb_refl.
  simpl negb. simpl orb. cbv iota.
  change (vget [B; num_features l] 0) with (Ok (A:=nat) B). rewrite bind_Ok.
  rewrite resize_numel; simpl shape;
    [| done | repeat constructor; lia | by rewrite numel_2].
  rewrite bind_Ok. simpl data.
  apply bind_ext.
  - intros [l' od']. reflexivity.
  - unfold forward_channels. rewrite !for_range_foldM. simpl num_features.
    apply (foldM_ext_inv (λ s : BatchNorm F * list F, num_features s.1 = num_features l));
      [|done].
    intros f [l1 od1] _ Hl1. simpl in Hl1. split.
    + cbv zeta. rewrite Hl1.
      apply bind_ext; [|apply (for_range_positions1 B (λ b, b * num_features l + f)
                                 (mean_body (data input)))].
      intros mean.
      apply bind_ext; [|apply (for_range_positions1 B (λ b, b * num_features l + f)
                                 (var_body (data input) (fdiv mean (of_size B))))].
      intros var.
      destruct (update_running l1 f (fdiv mean (of_size B)) (fdiv var (of_size B)))
        as [l2|e] eqn:Hupd; [|done].
      rewrite !bind_Ok. apply update_running_num_features in Hupd.
      rewrite Hupd, Hl1. apply bind_ext; [done|].
      apply (for_range_positions1 B (λ b, b * num_features l + f)
               (output_body (data input) l2 f (fdiv mean (of_size B))
                  (fdiv f1 (fsqrt (fadd (fdiv var (of_size B)) (eps l2)))))).
    + intros s' Hs'.
      rewrite (forward_channel_num_features (channel1d B (num_features l)) B (data input)
                 f (l1, od1) s' Hs'). done.
Qed.

Lemma BatchNorm2d_forward_channels (l : BatchNorm F) (input output : Tensor F)
    (N C H W : nat) :
  shape input = [N; C; H; W] → num_features l = C →
  length (data input) = N * C * H * W →
  0 < N → 0 < C → 0 < H → 0 < W →
  (Z.of_nat (N * C * H * W) ≤ vector_max_size)%Z →
  BatchNorm2d_forward l input output
  = forward_result (channel2d N C H W) (N * H * W) C [N; C; H; W] l input output.
Proof.
  intros Hs Hnf Hlen HN HC HH HW Hmax. unfold BatchNorm2d_forward, forward_result.
  rewrite Hs. simpl length. simpl Nat.eqb. simpl negb. cbv iota.
  change ([N; C; H; W] !!! 1) with C. rewrite Hnf, Nat.eqb_refl. simpl negb. cbv iota.
  assert (Z.of_nat (N * C * H * W) ≤ SIZE_MAX)%Z as Hmax'
    by (unfold vector_max_size, SIZE_MAX in *; lia).
  rewrite size_numel; rewrite ?Hs, ?numel_4; [| done | repeat constructor; lia | done].
  rewrite bind_Ok, Hlen, Nat.eqb_refl. simpl negb. cbv iota.
  change (vget [N; C; H; W] 0) with (Ok (A:=nat) N).
  change (vget [N; C; H; W] 1) with (Ok (A:=nat) C).
  change (vget [N; C; H; W] 2) with (Ok (A:=nat) H).
  change (vget [N; C; H; W] 3) with (Ok (A:=nat) W).
  rewrite !bind_Ok.
  rewrite resize_numel; simpl shape; [| done | repeat constructor; lia | by rewrite numel_4].
  rewrite numel_4, bind_Ok.
  change (data (with_data (with_shape output [N; C; H; W])
                  (list.resize (N * C * H * W) f0 (data (with_shape output [N; C; H; W])))))
    with (list.resize (N * C * H * W) f0 (data output)).
  assert (wrap64 (Z.of_nat N * Z.of_nat H * Z.of_nat W) = N * H * W) as ->.
  { rewrite <- !Nat2Z.inj_mul. apply wrap64_small. nia. }
  apply bind_ext.
  - intros [l' od']. reflexivity.
  - unfold forward_channels. rewrite !for_range_foldM.
    apply foldM_ext. intros c [l1 od1] _. cbv zeta.
    apply bind_ext;
      [|apply (for_range_positions3 N H W (λ n h w, n * C * H * W + c * H * W + h * W + w)
                 (mean_body (data input)))].
    intros mean.
    apply bind_ext;
      [|apply (for_range_positions3 N H W (λ n h w, n * C * H * W + c * H * W + h * W + w)
                 (var_body (data input) (fdiv mean (of_size (N * H * W)))))].
    intros var. apply bind_ext; [|done]. intros l2. apply bind_ext; [done|].
    apply (for_range_positions3 N H W (λ n h w, n * C * H * W + c * H * W + h * W + w)
             (output_body (data input) l2 c (fdiv mean (of_size (N * H * W)))
                (fdiv f1 (fsqrt (fadd (fdiv var (of_size (N * H * W))) (eps l2)))))).
Qed.

Lemma BatchNorm3d_forward_channels (l : BatchNorm F) (input output : Tensor F)
    (N C D H W : nat) :
  shape input = [N; C; D; H; W] → num_features l = C →
  length (data input) = N * C * D * H * W →
  0 < N → 0 < C → 0 < D → 0 < H → 0 < W →
  (Z.of_nat (N * C * D * H * W) ≤ vector_max_size)%Z →
  BatchNorm3d_forward l input output
  = forward_result (channel3d N C D H W) (N * D * H * W) C [N; C; D; H; W] l input output.
Proof.
  intros Hs Hnf Hlen HN HC HD HH HW Hmax. unfold BatchNorm3d_forward, forward_result.
  rewrite Hs. simpl length. simpl Nat.eqb. simpl negb. cbv iota.
  change ([N; C; D; H; W] !!! 1) with C. rewrite Hnf, Nat.eqb_refl. simpl negb. cbv iota.
  assert (Z.of_nat (N * C * D * H * W) ≤ SIZE_MAX)%Z as Hmax'
    by (unfold vector_max_size, SIZE_MAX in *; lia).
  rewrite size_numel; rewrite ?Hs, ?numel_5; [| done | repeat constructor; lia | done].
  rewrite bind_Ok, Hlen, Nat.eqb_refl. simpl negb. cbv iota.
  change (vget [N; C; D; H; W] 0) with (Ok (A:=nat) N).
  change (vget [N; C; D; H; W] 1) with (Ok (A:=nat) C).
  change (vget [N; C; D; H; W] 2) with (Ok (A:=nat) D).
  change (vget [N; C; D; H; W] 3) with (Ok (A:=nat) H).
  change (vget [N; C; D; H; W] 4) with (Ok (A:=nat) W).
  rewrite !bind_Ok.
  rewrite resize_numel; simpl shape; [| done | repeat constructor; lia | by rewrite numel_5].
  rewrite numel_5, bind_Ok.
  change (data (with_data (with_shape output [N; C; D; H; W])
                  (list.resize (N * C * D * H * W) f0
                     (data (with_shape output [N; C; D; H; W])))))
    with (list.resize (N * C * D * H * W) f0 (data output)).
  assert (wrap64 (Z.of_nat N * Z.of_nat D * Z.of_nat H * Z.of_nat W) = N * D * H * W) as ->.
  { rewrite <- !Nat2Z.inj_mul. apply wrap64_small. nia. }
  apply bind_ext.
  - intros [l' od']. reflexivity.
  - unfold forward_channels. rewrite !for_range_foldM.
    apply foldM_ext. intros c [l1 od1] _. cbv zeta.
    apply bind_ext;
      [|apply (for_range_positions4 N D H W
                 (λ n d h w, n * C * D * H * W + c * D * H * W + d * H * W + h * W + w)
                 (mean_body (data input)))].
    intros mean.
    apply bind_ext;
      [|apply (for_range_positions4 N D H W
                 (λ n d h w, n * C * D * H * W + c * D * H * W + d * H * W + h * W + w)
                 (var_body (data input) (fdiv mean (of_size (N * D * H * W)))))].
    intros var. apply bind_ext; [|done]. intros l2. apply bind_ext; [done|].
    apply (for_range_positions4 N D H W
             (λ n d h w, n * C * D * H * W + c * D * H * W + d * H * W + h * W + w)
             (output_body (data input) l2 c (fdiv mean (of_size (N * D * H * W)))
                (fdiv f1 (fsqrt (fadd (fdiv var (of_size (N * D * H * W))) (eps l2)))))).
Qed.
End BatchNormForwardVariants.

Section BatchNormForwardSpec.
Context {F : Type} {SF : Scalar F}.

(** The parameter and statistics buffers have one cell per feature. *)
Definition bn_wf (l : BatchNorm F) : Prop :=
  (affine l = true →
   length (data (gamma l)) = num_features l ∧ length (data (beta l)) = num_features l ∧
   length (grad (gamma l)) = num_features l ∧ length (grad (beta l)) = num_features l) ∧
  (track_running_stats l = true →
   length (data (running_mean l)) = num_features l ∧
   length (data (running_var l)) = num_features l).

(** What a successful [forward] returns, for the positions [I c] of channel
    [c]: the layer has cached the input and cleared [first_update]; with
    [track_running_stats] the running statistics of every channel are
    updated from the batch statistics; every position of the output holds
    the normalised, scaled and shifted input. *)
Definition forward_spec (forward : BatchNorm F → Tensor F → Tensor F
                                   → result (BatchNorm F * Tensor F))
    (I : nat → list nat) (count C : nat) (dims : list nat)
    (l : BatchNorm F) (input output : Tensor F) : Prop :=
  ∃ rm rv od,
    forward l input output
    = Ok (with_first_update (set_running (with_input_data l (data input)) rm rv) false,
          mkTensor dims od (grad output)) ∧
    length rm = length (data (running_mean l)) ∧
    length rv = length (data (running_var l)) ∧
    (track_running_stats l = false →
     rm = data (running_mean l) ∧ rv = data (running_var l)) ∧
    (track_running_stats l = true → ∀ c, c < C →
       rm !! c = Some (running_update (first_update l) (momentum l)
                         (data (running_mean l) !!! c) (bn_mean (data input) (I c) count)) ∧
       rv !! c = Some (running_update (first_update l) (momentum l)
                         (data (running_var l) !!! c) (bn_var (data input) (I c) count))) ∧
    length od = numel dims ∧
    ∀ c i, c < C → i ∈ I c →
      od !! i = Some (bn_output l c (bn_x_hat (data input) (I c) count (eps l) i)).

Lemma forward_result_spec (I : nat → list nat) (count C : nat) (dims : list nat)
    (l : BatchNorm F) (input output : Tensor F) :
  num_features l = C → bn_wf l →
  (∀ c i, c < C → i ∈ I c → i < length (data input) ∧ i < numel dims) →
  (∀ c c' i, c < C → c' < C → i ∈ I c → i ∈ I c' → c = c') →
  forward_spec (forward_result I count C dims) I count C dims l input output.
Proof.
  intros Hnf [Haff Htrack] HI Hdisj. unfold forward_spec, forward_result.
  destruct (forward_channels_spec I count (data input) C
              (with_input_data l (data input))
              (list.resize (numel dims) f0 (data output)))
    as (rm & rv & od & Hrun & Hlm & Hlv & Hun & Htr & Hlen & Hval).
  - intros c i Hc Hi. rewrite length_resize. by apply (HI c).
  - done.
  - simpl. intros Ha. destruct (Haff Ha) as (? & ? & _). lia.
  - simpl. intros Ht. destruct (Htrack Ht). lia.
  - exists rm, rv, od. rewrite Hrun, bind_Ok. rewrite length_resize in Hlen.
    split; [done|]. split; [done|]. split; [done|]. split; [done|]. split; [done|].
    split; done.
Qed.

Lemma BatchNorm1d_forward_spec (l : BatchNorm F) (input output : Tensor F) (B : nat) :
  bn_wf l →
  shape input = [B; num_features l] → length (data input) = B * num_features l →
  0 < B → 0 < num_features l →
  (Z.of_nat (B * num_features l) ≤ vector_max_size)%Z →
  forward_spec BatchNorm1d_forward (channel1d B (num_features l)) B (num_features l)
    [B; num_features l] l input output.
Proof.
  intros Hwf Hs Hlen HB Hnf Hmax.
  pose proof (forward_result_spec (channel1d B (num_features l)) B (num_features l)
                [B; num_features l] l input output eq_refl Hwf) as Hspec.
  unfold forward_spec in *.
  rewrite (BatchNorm1d_forward_channels l input output B) by done. apply Hspec.
  - intros c i Hc Hi. rewrite Hlen, numel_2. split; by apply (channel1d_lt _ _ c).
  - intros c c' i. apply channel1d_disjoint.
Qed.

Lemma BatchNorm2d_forward_spec (l : BatchNorm F) (input output : Tensor F)
    (N C H W : nat) :
  bn_wf l →
  shape input = [N; C; H; W] → num_features l = C →
  length (data input) = N * C * H * W →
  0 < N → 0 < C → 0 < H → 0 < W →
  (Z.of_nat (N * C * H * W) ≤ vector_max_size)%Z →
  forward_spec BatchNorm2d_forward (channel2d N C H W) (N * H * W) C
    [N; C; H; W] l input output.
Proof.
  intros Hwf Hs Hnf Hlen HN HC HH HW Hmax.
  pose proof (forward_result_spec (channel2d N C H W) (N * H * W) C
                [N; C; H; W] l input output Hnf Hwf) as Hspec.
  unfold forward_spec in *.
  rewrite (BatchNorm2d_forward_channels l input output N C H W) by done. apply Hspec.
  - intros c i Hc Hi. rewrite Hlen, numel_4. split; by apply (channel2d_lt _ _ _ _ c).
  - intros c c' i. apply channel2d_disjoint.
Qed.

Lemma BatchNorm3d_forward_spec (l : BatchNorm F) (input output : Tensor F)
    (N C D H W : nat) :
  bn_wf l →
  shape input = [N; C; D; H; W] → num_features l = C →
  length (data input) = N * C * D * H * W →
  0 < N → 0 < C → 0 < D → 0 < H → 0 < W →
  (Z.of_nat (N * C * D * H * W) ≤ vector_max_size)%Z →
  forward_spec BatchNorm3d_forward (channel3d N C D H W) (N * D * H * W) C
    [N; C; D; H; W] l input output.
Proof.
  intros Hwf Hs Hnf Hlen HN HC HD HH HW Hmax.
  pose proof (forward_result_spec (channel3d N C D H W) (N * D * H * W) C
                [N; C; D; H; W] l input output Hnf Hwf) as Hspec.
  unfold forward_spec in *.
  rewrite (BatchNorm3d_forward_channels l input output N C D H W) by done. apply Hspec.
  - intros c i Hc Hi. rewrite Hlen, numel_5. split; by apply (channel3d_lt _ _ _ _ _ c).
  - intros c c' i. apply channel3d_disjoint.
Qed.
End BatchNormForwardSpec.

(** ** BatchNorm: the constructor *)

Section BatchNormNew.
Context {F : Type} {SF : Scalar F}.

Lemma resize_fresh (n : nat) :
  0 < n → (Z.of_nat n ≤ vector_max_size)%Z →
  resize (mkTensor [n] [] []) = Ok (mkTensor [n] (replicate n (f0 (F := F))) []).
Proof.
  intros Hn Hmax.
  rewrite resize_numel; simpl shape; rewrite ?numel_1;
    [| done | repeat constructor; lia | done].
  unfold with_data. simpl. by rewrite resize_nil.
Qed.

Lemma resize_grad_fresh (n : nat) (d : list F) :
  0 < n → (Z.of_nat n ≤ vector_max_size)%Z →
  resize_grad (mkTensor [n] d []) = Ok (mkTensor [n] d (replicate n f0)).
Proof.
  intros Hn Hmax.
  rewrite resize_grad_numel; simpl shape; rewrite ?numel_1;
    [| done | repeat constructor; lia | done].
  unfold with_grad. simpl. by rewrite resize_nil.
Qed.

(** The loop of the constructor over [gamma.data] and [beta.data]. *)
Lemma BatchNorm_new_loop (nf : nat) (dis : nat → F) :
  ∃ gd,
    for_range nf (λ i '(gd, bd),
      gd ← vset gd i (dis i);
      bd ← vset bd i f0;
      Ok (gd, bd)) (replicate nf f0, replicate nf f0)
    = Ok (gd, replicate nf f0) ∧
    length gd = nf ∧ ∀ i, i < nf → gd !! i = Some (dis i).
Proof.
  destruct (for_range_inv
    (λ k (s : list F * list F),
       length s.1 = nf ∧ s.2 = replicate nf f0 ∧ ∀ i, i < k → s.1 !! i = Some (dis i))
    nf
    (λ i '(gd, bd), gd ← vset gd i (dis i); bd ← vset bd i f0; Ok (gd, bd))
    (replicate nf f0, replicate nf f0)) as ([gd bd] & Hrun & Hl & Hbd & Hval).
  - simpl. rewrite length_replicate. split; [done|]. split; [done|]. intros; lia.
  - intros i [gd bd] Hi (Hl & Hbd & Hval). simpl in Hl, Hbd, Hval. subst bd.
    rewrite (vset_within gd), bind_Ok by lia.
    rewrite vset_within, bind_Ok by (rewrite length_replicate; lia).
    eexists. split; [done|]. simpl. rewrite length_insert. split; [done|]. split.
    + apply list_insert_id. by apply lookup_replicate_2.
    + intros j Hj. destruct (decide (j = i)) as [->|Hne].
      * by rewrite list_lookup_insert_eq by lia.
      * rewrite list_lookup_insert_ne by done. apply Hval. lia.
  - simpl in Hl, Hbd, Hval. subst bd. by exists gd.
Qed.

(** A freshly constructed layer: [gamma] holds the draws, [beta] and the
    running statistics are zero, no input is cached and [first_update] is
    set. *)
Lemma BatchNorm_new_spec (nf : nat) (eps momentum : F) (affine track : bool)
    (dis : nat → F) :
  0 < nf → (Z.of_nat nf ≤ vector_max_size)%Z →
  ∃ gd,
    BatchNorm_new nf eps momentum affine track dis
    = Ok (mkBatchNorm nf eps momentum affine track
            (if affine then mkTensor [nf] gd (replicate nf f0) else Tensor_empty)
            (if affine then mkTensor [nf] (replicate nf f0) (replicate nf f0)
             else Tensor_empty)
            (if track then mkTensor [nf] (replicate nf f0) [] else Tensor_empty)
            (if track then mkTensor [nf] (replicate nf f0) [] else Tensor_empty)
            [] true) ∧
    length gd = nf ∧ ∀ i, i < nf → gd !! i = Some (dis i).
Proof.
  intros Hnf Hmax. destruct (BatchNorm_new_loop nf dis) as (gd & Hloop & Hlen & Hgd).
  exists gd. split; [|done]. unfold BatchNorm_new.
  rewrite !resize_fresh by done. rewrite !bind_Ok.
  destruct affine.
  - rewrite !resize_grad_fresh by done. rewrite !bind_Ok.
    rewrite !resize_grad_fresh by done. rewrite !bind_Ok.
    simpl data. rewrite Hloop, !bind_Ok. by destruct track.
  - rewrite !bind_Ok. by destruct track.
Qed.
End BatchNormNew.

(** ** C3: the running statistics *)

Section RunningStatistics.
Context {F : Type} {SF : Scalar F}.

(** [forward] succeeds, clears [first_update], and leaves in
    [running_mean] and [running_var], for each channel [c], the batch mean and
    the biased batch variance of the positions [I c] if [first_update] was
    set, and the blend [(1 - momentum) * running + momentum * batch_stat]
    otherwise. *)
Definition tracks_running_statistics
    (forward : BatchNorm F → Tensor F → Tensor F → result (BatchNorm F * Tensor F))
    (I : nat → list nat) (count C : nat) (l : BatchNorm F) (input output : Tensor F) : Prop :=
  ∃ l' out,
    forward l input output = Ok (l', out) ∧
    first_update l' = false ∧ bn_wf l' ∧
    track_running_stats l' = true ∧ momentum l' = momentum l ∧
    num_features l' = num_features l ∧
    ∀ c, c < C →
      length (I c) = count ∧
      data (running_mean l') !! c
      = Some (if first_update l then bn_mean (data input) (I c) count
              else fadd (fmul (fsub f1 (momentum l)) (data (running_mean l) !!! c))
                        (fmul (momentum l) (bn_mean (data input) (I c) count))) ∧
      data (running_var l') !! c
      = Some (if first_update l then bn_var (data input) (I c) count
              else fadd (fmul (fsub f1 (momentum l)) (data (running_var l) !!! c))
                        (fmul (momentum l) (bn_var (data input) (I c) count))).

Lemma forward_spec_running forward I count C dims (l : BatchNorm F) input output :
  forward_spec forward I count C dims l input output →
  (∀ c, c < C → length (I c) = count) →
  track_running_stats l = true → bn_wf l →
  tracks_running_statistics forward I count C l input output.
Proof.
  intros (rm & rv & od & Hrun & Hlm & Hlv & _ & Htr & _) Hcount Ht [Haff Htrack].
  eexists _, _. split; [exact Hrun|]. simpl.
  split; [done|]. split; [|split; [done|]; split; [done|]; split; [done|]].
  - split; simpl; [done|]. intros _. destruct (Htrack Ht) as [? ?]. split; congruence.
  - intros c Hc. split; [by apply Hcount|]. destruct (Htr Ht c Hc) as [Hm Hv].
    unfold running_update in Hm, Hv. done.
Qed.
End RunningStatistics.

(** C3.  A constructed layer has [first_update] set; a successful [forward]
    clears it.  With [track_running_stats], [forward] of each of the three
    variants assigns to [running_mean[c]] and [running_var[c]] the batch mean
    and the biased variance (the sum over the positions of the channel divided
    by their number) when [first_update] is set, that is on the first call,
    and [(1 - momentum) * running + momentum * batch_stat] on every later
    call. *)
Theorem C3_running_statistics (F : Type) (SF : Scalar F) :
  (∀ nf eps momentum affine dis,
     0 < nf → (Z.of_nat nf ≤ vector_max_size)%Z →
     ∃ l, BatchNorm_new nf eps momentum affine true dis = Ok l ∧
          first_update l = true ∧ bn_wf l ∧ track_running_stats l = true ∧
          num_features l = nf) ∧
  (∀ (l : BatchNorm F) (input output : Tensor F) (B : nat),
     bn_wf l → track_running_stats l = true →
     shape input = [B; num_features l] → length (data input) = B * num_features l →
     0 < B → 0 < num_features l →
     (Z.of_nat (B * num_features l) ≤ vector_max_size)%Z →
     tracks_running_statistics BatchNorm1d_forward
       (channel1d B (num_features l)) B (num_features l) l input output) ∧
  (∀ (l : BatchNorm F) (input output : Tensor F) (N C H W : nat),
     bn_wf l → track_running_stats l = true →
     shape input = [N; C; H; W] → num_features l = C →
     length (data input) = N * C * H * W →
     0 < N → 0 < C → 0 < H → 0 < W →
     (Z.of_nat (N * C * H * W) ≤ vector_max_size)%Z →
     tracks_running_statistics BatchNorm2d_forward
       (channel2d N C H W) (N * H * W) C l input output) ∧
  (∀ (l : BatchNorm F) (input output : Tensor F) (N C D H W : nat),
     bn_wf l → track_running_stats l = true →
     shape input = [N; C; D; H; W] → num_features l = C →
     length (data input) = N * C * D * H * W →
     0 < N → 0 < C → 0 < D → 0 < H → 0 < W →
     (Z.of_nat (N * C * D * H * W) ≤ vector_max_size)%Z →
     tracks_running_statistics BatchNorm3d_forward
       (channel3d N C D H W) (N * D * H * W) C l input output).
Proof.
  split; [|split; [|split]].
  - intros nf eps momentum affine dis Hnf Hmax.
    destruct (BatchNorm_new_spec nf eps momentum affine true dis Hnf Hmax)
      as (gd & Hnew & Hlen & _).
    eexists. split; [exact Hnew|]. simpl. split; [done|]. split; [|done].
    split; simpl.
    + intros ->. simpl. by rewrite !length_replicate.
    + intros _. simpl. by rewrite !length_replicate.
  - intros l input output B Hwf Ht Hs Hlen HB Hnf Hmax.
    apply (forward_spec_running _ _ _ _ [B; num_features l]); [|  |done|done].
    + by apply BatchNorm1d_forward_spec.
    + intros c _. apply length_channel1d.
  - intros l input output N C H W Hwf Ht Hs Hnf Hlen HN HC HH HW Hmax.
    apply (forward_spec_running _ _ _ _ [N; C; H; W]); [|  |done|done].
    + by apply BatchNorm2d_forward_spec.
    + intros c _. apply length_channel2d.
  - intros l input output N C D H W Hwf Ht Hs Hnf Hlen HN HC HD HH HW Hmax.
    apply (forward_spec_running _ _ _ _ [N; C; D; H; W]); [|  |done|done].
    + by apply BatchNorm3d_forward_spec.
    + intros c _. apply length_channel3d.
Qed.

(** C3 applied: [BatchNorm1d(2)] on the input of the test
    [ForwardValidInput], whose first feature holds 1, 3, 5, 7. *)
Lemma C3_running_statistics_witness :
  let input := mkTensor [4; 2] (Binary32.of_Z <$> [1; 2; 3; 4; 5; 6; 7; 8]%Z) [] in
  ∃ l l' out,
    BatchNorm1d_new 2 (Binary32.decimal 1 5) (Binary32.decimal 1 1) true true
      (λ _, Binary32.of_Z 1) = Ok l ∧
    BatchNorm1d_forward l input Tensor_empty = Ok (l', out) ∧
    first_update l' = false ∧
    data (running_mean l') !! 0 = Some (Binary32.of_Z 4) ∧
    data (running_var l') !! 0 = Some (Binary32.of_Z 5).
Proof.
  intros input.
  destruct (proj1 (C3_running_statistics spec_float Binary32.binary32)
              2 (Binary32.decimal 1 5) (Binary32.decimal 1 1) true (λ _, Binary32.of_Z 1))
    as (l & Hnew & Hfirst & Hwf & Ht & Hnf); [lia | vm_compute; discriminate |].
  destruct (proj1 (proj2 (C3_running_statistics spec_float Binary32.binary32))
              l input Tensor_empty 4 Hwf Ht)
    as (l' & out & Hrun & Hfirst' & _ & _ & _ & _ & Hstat);
    rewrite ?Hnf; try reflexivity; try lia; [vm_compute; discriminate|].
  exists l, l', out. split; [exact Hnew|]. split; [exact Hrun|]. split; [exact Hfirst'|].
  destruct (Hstat 0) as (_ & Hm & Hv); [lia|]. rewrite Hfirst, Hnf in Hm, Hv.
  split; [exact Hm | exact Hv].
Defined.

(** ** C9: a constant channel *)

Section ConstantChannel.
Import Binary32.

Lemma mul_zero_finite (z y : spec_float) :
  is_zero z = true → is_finite y = true → is_zero (SFmul prec emax z y) = true.
Proof. destruct z; try discriminate. destruct y; try discriminate; done. Qed.

Lemma mul_finite_zero (y z : spec_float) :
  is_finite y = true → is_zero z = true → is_zero (SFmul prec emax y z) = true.
Proof. destruct z; try discriminate. destruct y; try discriminate; done. Qed.

Lemma add_zero_plus_zero (z : spec_float) :
  is_zero z = true → SFadd prec emax z (S754_zero false) = S754_zero false.
Proof. destruct z as [[]| | |]; try discriminate; done. Qed.

(** The mean of [n] copies of [x] as [forward] computes it: the copies are
    added up from [0.0f] and the sum is divided by [n]. *)
Definition mean_of_copies (x : spec_float) (n : nat) : spec_float :=
  fdiv (fsum_from f0 n (λ _, x)) (of_size n).

Lemma fsum_over_constant (init : spec_float) (I : list nat) (f : nat → spec_float) x :
  (∀ i, i ∈ I → f i = x) →
  fsum_over init I f = fsum_from init (length I) (λ _, x).
Proof.
  intros Hf. rewrite (fsum_over_ext init I f (λ _, x)) by done.
  unfold fsum_from, fsum_over. generalize 0. revert init. clear Hf.
  induction I as [|i I IH]; intros init k; [done|]. simpl. apply IH.
Qed.

Lemma fsum_zeros (n : nat) :
  fsum_from (S754_zero false) n (λ _, S754_zero false) = S754_zero false.
Proof.
  unfold fsum_from, fsum_over. generalize 0.
  induction n as [|n IH]; intros k; [done|]. simpl. apply IH.
Qed.

(** On a channel whose elements all equal a finite [x], and whose computed
    mean is [x], the variance is [+0] and the normalised value a zero. *)
Lemma constant_channel_statistics (X : list spec_float) (I : list nat) (eps x : spec_float) :
  I ≠ [] → (∀ i, i ∈ I → X !!! i = x) → is_finite x = true →
  mean_of_copies x (length I) = x →
  is_finite (bn_inv_std eps (S754_zero false)) = true →
  bn_mean X I (length I) = x ∧
  bn_var X I (length I) = S754_zero false ∧
  ∀ i, i ∈ I → is_zero (bn_x_hat X I (length I) eps i) = true.
Proof.
  intros Hne HX Hfin Hmean Hinv.
  assert (bn_mean X I (length I) = x) as Hm.
  { unfold bn_mean. by rewrite (fsum_over_constant _ _ _ x). }
  assert (bn_var X I (length I) = S754_zero false) as Hv.
  { unfold bn_var. rewrite Hm.
    rewrite (fsum_over_constant _ _ _ (S754_zero false)).
    - rewrite fsum_zeros. apply zero_div_size. destruct I; [done | simpl; lia].
    - intros i Hi. rewrite HX by done. simpl. by rewrite sub_diag_finite. }
  split; [done|]. split; [done|].
  intros i Hi. unfold bn_x_hat. rewrite Hm, Hv, HX by done.
  simpl fsub. rewrite sub_diag_finite by done. by apply mul_zero_finite.
Qed.

(** With a finite [gamma[c]] and [beta[c] = +0], the output of a zero
    normalised value is a zero. *)
Lemma bn_output_zero (l : BatchNorm spec_float) (c : nat) (z : spec_float) :
  is_zero z = true →
  (affine l = true →
   is_finite (data (gamma l) !!! c) = true ∧ data (beta l) !!! c = S754_zero false) →
  is_zero (bn_output l c z) = true.
Proof.
  intros Hz Ha. unfold bn_output. destruct (affine l); [|done].
  destruct Ha as [Hg ->]; [done|]. simpl.
  rewrite add_zero_plus_zero; [done|]. by apply mul_finite_zero.
Qed.

(** [forward], on a freshly constructed layer, writes a zero at every
    position of a channel whose elements are all equal, provided the mean of
    these equal elements is computed without rounding error. *)
Definition zero_on_constant_channel
    (forward : BatchNorm spec_float → Tensor spec_float → Tensor spec_float
               → result (BatchNorm spec_float * Tensor spec_float))
    (I : nat → list nat) (C : nat) (l : BatchNorm spec_float)
    (input output : Tensor spec_float) : Prop :=
  ∀ c x,
    c < C → (∀ i, i ∈ I c → data input !!! i = x) → is_finite x = true →
    mean_of_copies x (length (I c)) = x →
    ∃ l' out,
      forward l input output = Ok (l', out) ∧
      ∀ i, i ∈ I c → ∃ z, data out !! i = Some z ∧ is_zero z = true.

Lemma forward_spec_constant forward I count C dims nf epsilon mom aff track dis
    (l : BatchNorm spec_float) (input output : Tensor spec_float) :
  BatchNorm_new nf epsilon mom aff track dis = Ok l →
  0 < nf → (Z.of_nat nf ≤ vector_max_size)%Z → C ≤ nf →
  (∀ c, c < C → is_finite (dis c) = true) →
  is_finite (bn_inv_std epsilon (S754_zero false)) = true →
  (∀ c, c < C → length (I c) = count ∧ I c ≠ []) →
  forward_spec forward I count C dims l input output →
  zero_on_constant_channel forward I C l input output.
Proof.
  intros Hnew Hnf Hmax HC Hdis Hinv Hcount
    (rm & rv & od & Hrun & _ & _ & _ & _ & _ & Hval) c x Hc HX Hfin Hmean.
  destruct (BatchNorm_new_spec nf epsilon mom aff track dis Hnf Hmax)
    as (gd & Hnew' & Hlen & Hgd).
  rewrite Hnew in Hnew'. injection Hnew' as ->.
  destruct (Hcount c Hc) as [Hcnt Hne].
  eexists _, _. split; [exact Hrun|]. simpl data.
  intros i Hi. eexists. split; [by apply Hval|].
  destruct (constant_channel_statistics (data input) (I c) epsilon x) as (_ & _ & Hz);
    try done.
  apply bn_output_zero.
  - simpl. rewrite <- Hcnt. by apply Hz.
  - simpl. intros ->. simpl. split.
    + rewrite (list_lookup_total_correct gd c (dis c)); [by apply Hdis|]. apply Hgd. lia.
    + apply lookup_total_replicate_2. lia.
Qed.
End ConstantChannel.

Lemma BatchNorm_new_wf {F : Type} {SF : Scalar F} nf epsilon mom aff track dis
    (l : BatchNorm F) :
  BatchNorm_new nf epsilon mom aff track dis = Ok l →
  0 < nf → (Z.of_nat nf ≤ vector_max_size)%Z →
  num_features l = nf ∧ bn_wf l ∧ first_update l = true ∧
  affine l = aff ∧ track_running_stats l = track.
Proof.
  intros Hnew Hnf Hmax.
  destruct (BatchNorm_new_spec nf epsilon mom aff track dis Hnf Hmax)
    as (gd & Hnew' & Hlen & _).
  rewrite Hnew in Hnew'. injection Hnew' as ->. simpl.
  split; [done|]. split; [|done]. split; simpl.
  - intros ->. simpl. by rewrite !length_replicate.
  - intros ->. simpl. by rewrite !length_replicate.
Qed.

Lemma nonempty_length {A} (l : list A) : 0 < length l → l ≠ [].
Proof. destruct l; simpl; [lia | done]. Qed.

Lemma le_mul_pos_r (a b : nat) : 0 < b → a ≤ a * b.
Proof. nia. Qed.

Lemma le_mul_pos_l (a b : nat) : 0 < b → a ≤ b * a.
Proof. nia. Qed.

Lemma features_le_2d (N C H W : nat) :
  0 < N → 0 < H → 0 < W → C ≤ N * C * H * W ∧ 0 < N * H * W.
Proof.
  intros HN HH HW.
  pose proof (le_mul_pos_l C N HN). pose proof (le_mul_pos_r (N * C) H HH).
  pose proof (le_mul_pos_r (N * C * H) W HW).
  pose proof (le_mul_pos_r N H HH). pose proof (le_mul_pos_r (N * H) W HW). lia.
Qed.

Lemma features_le_3d (N C D H W : nat) :
  0 < N → 0 < D → 0 < H → 0 < W →
  C ≤ N * C * D * H * W ∧ 0 < N * D * H * W.
Proof.
  intros HN HD HH HW.
  destruct (features_le_2d N C D H HN HD HH).
  pose proof (le_mul_pos_r (N * C * D * H) W HW).
  pose proof (le_mul_pos_r (N * D * H) W HW). lia.
Qed.

(** The claim fails on the source: a fresh [BatchNorm1d(1)] (gamma drawn
    as 1.0, eps 1e-5, momentum 0.1) on ten inputs that all equal [0.1f].  The
    ten copies add up to a float above 1, the mean is one unit in the last
    place above [0.1f], and every output is about [-2.36e-6], not 0. *)
Lemma C9_constant_channel_counterexample :
  ∃ l l' out,
    BatchNorm1d_new 1 (Binary32.decimal 1 5) (Binary32.decimal 1 1) true true
      (λ _, Binary32.of_Z 1) = Ok l ∧
    BatchNorm1d_forward l (mkTensor [10; 1] (replicate 10 (Binary32.decimal 1 1)) [])
      Tensor_empty = Ok (l', out) ∧
    data out = replicate 10 (S754_finite true 10362152 (-42)) ∧
    Binary32.near (S754_finite true 10362152 (-42)) (-236) 100000000 100000000 = true.
Proof.
  eexists _, _, _. split; [vm_compute; reflexivity|].
  split; [vm_compute; reflexivity|]. split; reflexivity.
Qed.

(** C9, amended.  For a freshly constructed BatchNorm layer of any rank,
    affine or not, whose [gamma] draws are finite and whose [eps] makes
    [1 / sqrt(0 + eps)] finite, and for a valid input in which all elements
    of one channel equal a finite [x]: if the mean of these equal elements is
    computed without rounding error ([mean_of_copies x count = x], as for
    [x = 1.0]), [forward] writes a zero at every position of that channel. *)
Theorem C9_constant_channel nf epsilon mom aff track dis (l : BatchNorm spec_float) :
  BatchNorm_new nf epsilon mom aff track dis = Ok l →
  (∀ c, c < nf → Binary32.is_finite (dis c) = true) →
  Binary32.is_finite (bn_inv_std epsilon (S754_zero false)) = true →
  (∀ (input output : Tensor spec_float) (B : nat),
     shape input = [B; nf] → length (data input) = B * nf →
     0 < B → 0 < nf → (Z.of_nat (B * nf) ≤ vector_max_size)%Z →
     zero_on_constant_channel BatchNorm1d_forward (channel1d B nf) nf l input output) ∧
  (∀ (input output : Tensor spec_float) (N H W : nat),
     shape input = [N; nf; H; W] → length (data input) = N * nf * H * W →
     0 < N → 0 < nf → 0 < H → 0 < W →
     (Z.of_nat (N * nf * H * W) ≤ vector_max_size)%Z →
     zero_on_constant_channel BatchNorm2d_forward (channel2d N nf H W) nf l input output) ∧
  (∀ (input output : Tensor spec_float) (N D H W : nat),
     shape input = [N; nf; D; H; W] → length (data input) = N * nf * D * H * W →
     0 < N → 0 < nf → 0 < D → 0 < H → 0 < W →
     (Z.of_nat (N * nf * D * H * W) ≤ vector_max_size)%Z →
     zero_on_constant_channel BatchNorm3d_forward (channel3d N nf D H W) nf l
       input output).
Proof.
  intros Hnew Hdis Hinv. split; [|split].
  - intros input output B Hs Hlen HB Hnf Hmax.
    assert (Z.of_nat nf ≤ vector_max_size)%Z as Hmax' by nia.
    destruct (BatchNorm_new_wf _ _ _ _ _ _ _ Hnew Hnf Hmax') as (Hn & Hwf & _).
    apply (forward_spec_constant _ _ B nf [B; nf] nf epsilon mom aff track dis);
      try done.
    + intros c _. rewrite length_channel1d. split; [done|].
      apply nonempty_length. by rewrite length_channel1d.
    + rewrite <- Hn in *. by apply BatchNorm1d_forward_spec.
  - intros input output N H W Hs Hlen HN Hnf HH HW Hmax.
    destruct (features_le_2d N nf H W HN HH HW) as [Hle Hpos].
    assert (Z.of_nat nf ≤ vector_max_size)%Z as Hmax' by lia.
    destruct (BatchNorm_new_wf _ _ _ _ _ _ _ Hnew Hnf Hmax') as (Hn & Hwf & _).
    apply (forward_spec_constant _ _ (N * H * W) nf [N; nf; H; W]
             nf epsilon mom aff track dis); try done.
    + intros c _. rewrite length_channel2d. split; [done|].
      apply nonempty_length. by rewrite length_channel2d.
    + by apply BatchNorm2d_forward_spec.
  - intros input output N D H W Hs Hlen HN Hnf HD HH HW Hmax.
    destruct (features_le_3d N nf D H W HN HD HH HW) as [Hle Hpos].
    assert (Z.of_nat nf ≤ vector_max_size)%Z as Hmax' by lia.
    destruct (BatchNorm_new_wf _ _ _ _ _ _ _ Hnew Hnf Hmax') as (Hn & Hwf & _).
    apply (forward_spec_constant _ _ (N * D * H * W) nf [N; nf; D; H; W]
             nf epsilon mom aff track dis); try done.
    + intros c _. rewrite length_channel3d. split; [done|].
      apply nonempty_length. by rewrite length_channel3d.
    + by apply BatchNorm3d_forward_spec.
Qed.

Lemma C9_constant_channel_witness :
  let input := mkTensor [2; 2; 3; 3] (replicate 36 (Binary32.of_Z 1)) [] in
  ∃ l l' out,
    BatchNorm2d_new 2 (Binary32.decimal 1 5) (Binary32.decimal 1 1) true true
      (λ _, Binary32.of_Z 1) = Ok l ∧
    BatchNorm2d_forward l input Tensor_empty = Ok (l', out) ∧
    ∀ i, i ∈ channel2d 2 2 3 3 0 →
      ∃ z, data out !! i = Some z ∧ Binary32.is_zero z = true.
Proof.
  intros input.
  assert (∃ l, BatchNorm2d_new 2 (Binary32.decimal 1 5) (Binary32.decimal 1 1) true true
                 (λ _, Binary32.of_Z 1) = Ok l) as [l Hnew]
    by (eexists; vm_compute; reflexivity).
  destruct (proj1 (proj2 (C9_constant_channel 2 (Binary32.decimal 1 5)
                            (Binary32.decimal 1 1) true true (λ _, Binary32.of_Z 1) l
                            Hnew (λ _ _, eq_refl) eq_refl))
              input Tensor_empty 2 3 3 eq_refl eq_refl
              ltac:(lia) ltac:(lia) ltac:(lia) ltac:(lia) ltac:(vm_compute; discriminate)
              0 (Binary32.of_Z 1))
    as (l' & out & Hrun & Hzero).
  - lia.
  - intros i Hi%channel2d_lt; [|lia]. apply lookup_total_replicate_2. simpl in Hi. lia.
  - reflexivity.
  - vm_compute. reflexivity.
  - exists l, l', out. split; [exact Hnew|]. split; [exact Hrun | exact Hzero].
Defined.

(** ** C10: the upstream gradient is read from [grad] *)

(** C10.  With an empty [grad_output.grad], [backward] of each BatchNorm
    variant throws, whatever the layer and the tensors.  When a [forward] has
    cached an input and [grad_output.shape] has the rank and the channel count
    the variant asks for, the exception is the one of the emptiness check,
    [runtime_error("grad_output.grad ...")]: the buffer is rejected before any
    element is read, whatever [grad_output.data] holds. *)
Theorem C10_backward_empty_grad (F : Type) (SF : Scalar F)
    (l : BatchNorm F) (grad_output grad_input : Tensor F) :
  grad grad_output = [] →
  ((∃ e, BatchNorm1d_backward l grad_output grad_input = Err e) ∧
   (∃ e, BatchNorm2d_backward l grad_output grad_input = Err e) ∧
   (∃ e, BatchNorm3d_backward l grad_output grad_input = Err e)) ∧
  (input_data l ≠ [] →
   ((∃ B, shape grad_output = [B; num_features l]) →
    BatchNorm1d_backward l grad_output grad_input
    = Err (runtime_error Bn_grad_empty)) ∧
   ((∃ N H W, shape grad_output = [N; num_features l; H; W]) →
    BatchNorm2d_backward l grad_output grad_input
    = Err (runtime_error Bn_grad_empty)) ∧
   ((∃ N D H W, shape grad_output = [N; num_features l; D; H; W]) →
    BatchNorm3d_backward l grad_output grad_input
    = Err (runtime_error Bn_grad_empty))).
Proof.
  intros Hg. split; [split; [|split]|].
  - unfold BatchNorm1d_backward. rewrite Hg. simpl.
    destruct (_ || _); eauto.
  - unfold BatchNorm2d_backward. rewrite Hg. simpl.
    destruct (length (input_data l) =? 0); [eauto|]. destruct (_ || _); eauto.
  - unfold BatchNorm3d_backward. rewrite Hg. simpl.
    destruct (length (input_data l) =? 0); [eauto|]. destruct (_ || _); eauto.
  - intros Hin.
    assert ((length (input_data l) =? 0) = false) as Hcached.
    { apply Nat.eqb_neq. destruct (input_data l); simpl; [done | lia]. }
    split; [|split].
    + intros [B Hs]. unfold BatchNorm1d_backward. rewrite Hs, Hg. simpl.
      by rewrite Nat.eqb_refl.
    + intros (N & H & W & Hs). unfold BatchNorm2d_backward.
      rewrite Hcached, Hs, Hg. simpl. by rewrite Nat.eqb_refl.
    + intros (N & D & H & W & Hs). unfold BatchNorm3d_backward.
      rewrite Hcached, Hs, Hg. simpl. by rewrite Nat.eqb_refl.
Qed.

Lemma C10_backward_empty_grad_witness :
  let input := mkTensor [4; 2] (Binary32.of_Z <$> [1; 2; 3; 4; 5; 6; 7; 8]%Z) [] in
  ∃ l l' out,
    BatchNorm1d_new 2 (Binary32.decimal 1 5) (Binary32.decimal 1 1) true true
      (λ _, Binary32.of_Z 1) = Ok l ∧
    BatchNorm1d_forward l input Tensor_empty = Ok (l', out) ∧
    shape out = [4; 2] ∧ length (data out) = 8 ∧ grad out = [] ∧
    BatchNorm1d_backward l' out Tensor_empty = Err (runtime_error Bn_grad_empty).
Proof.
  intros input. eexists _, _, _.
  split; [vm_compute; reflexivity|]. split; [vm_compute; reflexivity|].
  split; [reflexivity|]. split; [reflexivity|]. split; [reflexivity|].
  apply (C10_backward_empty_grad spec_float Binary32.binary32);
    [reflexivity | discriminate | by exists 4].
Defined.

(** ** C6: the parameter gradients of BatchNorm *)

Lemma foldM_cons {S I} (body : I → S → result S) (i : I) (l : list I) (s : S) :
  foldM body (i :: l) s = body i s ≫= foldM body l.
Proof. reflexivity. Qed.

Section BatchNormBackward.
Context {F : Type} {SF : Scalar F}.

(** The layer with other contents of [gamma.grad] and [beta.grad]. *)
Definition set_grads (l : BatchNorm F) (gg bg : list F) : BatchNorm F :=
  with_gamma (with_beta l (with_grad (beta l) bg)) (with_grad (gamma l) gg).

Lemma set_grads_same (l : BatchNorm F) :
  set_grads l (grad (gamma l)) (grad (beta l)) = l.
Proof. destruct l as [? ? ? ? ? [? ? ?] [? ? ?] ? ? ? ?]. reflexivity. Qed.

Lemma accumulate_affine_set_grads (l : BatchNorm F) gg bg c dy xh :
  affine l = true → c < length gg → c < length bg →
  accumulate_affine (set_grads l gg bg) c dy xh
  = Ok (set_grads l (<[c := fadd (gg !!! c) (fmul dy xh)]> gg)
          (<[c := fadd (bg !!! c) dy]> bg)).
Proof.
  intros Ha Hg Hb. unfold accumulate_affine. simpl. rewrite Ha.
  rewrite (vget_total bg), bind_Ok, (vset_within bg), bind_Ok by done.
  rewrite (vget_total gg), bind_Ok, (vset_within gg), bind_Ok by done.
  reflexivity.
Qed.

(** The bodies of the two last loops of [BatchNorm2d::backward] and
    [BatchNorm3d::backward] at position [i]: [x_hat] is filled through the
    counter [pos], which the second loop runs again from 0. *)
Definition x_hat_body (X G : list F) (mean inv_std : F) (i : nat)
    (s : list F * F * F * nat) : result (list F * F * F * nat) :=
  let '(x_hat, sum_dy, sum_dy_x_hat, pos) := s in
  x ← vget X i;
  x_hat ← vset x_hat pos (fmul (fsub x mean) inv_std);
  dy ← vget G i;
  xh ← vget x_hat pos;
  Ok (x_hat, fadd sum_dy dy, fadd sum_dy_x_hat (fmul dy xh), S pos).

Definition grad_body (G x_hat : list F) (c : nat)
    (inv_std gamma_val sum_dy sum_dy_x_hat factor : F) (i : nat)
    (s : BatchNorm F * list F * nat) : result (BatchNorm F * list F * nat) :=
  let '(l, gi, pos) := s in
  dy ← vget G i;
  xh ← vget x_hat pos;
  gi ← vset gi i (input_gradient dy inv_std gamma_val sum_dy sum_dy_x_hat xh factor);
  l ← accumulate_affine l c dy xh;
  Ok (l, gi, S pos).

Lemma x_hat_loop (X G : list F) (mean inv_std : F) (rest : list nat) :
  ∀ (xh : list F) (sd sdx : F) (pos : nat),
    (∀ i, i ∈ rest → i < length X ∧ i < length G) →
    pos + length rest ≤ length xh →
    ∃ xh',
      foldM (x_hat_body X G mean inv_std) rest (xh, sd, sdx, pos)
      = Ok (xh', fsum_over sd rest (λ i, G !!! i),
            fsum_over sdx rest
              (λ i, fmul (G !!! i) (fmul (fsub (X !!! i) mean) inv_std)),
            pos + length rest) ∧
      length xh' = length xh ∧
      (∀ k, k < pos → xh' !! k = xh !! k) ∧
      (∀ k i, rest !! k = Some i →
         xh' !! (pos + k) = Some (fmul (fsub (X !!! i) mean) inv_std)).
Proof.
  induction rest as [|i rest IH]; intros xh sd sdx pos Hin Hlen.
  - exists xh. simpl. rewrite Nat.add_0_r. split; [done|]. split; [done|].
    split; [done|]. intros k i Hk. done.
  - simpl in Hlen. destruct (Hin i) as [HX HG]; [by left|].
    assert (x_hat_body X G mean inv_std i (xh, sd, sdx, pos)
            = Ok (<[pos := fmul (fsub (X !!! i) mean) inv_std]> xh, fadd sd (G !!! i),
                  fadd sdx (fmul (G !!! i) (fmul (fsub (X !!! i) mean) inv_std)),
                  S pos)) as Hstep.
    { unfold x_hat_body.
      rewrite (vget_total X), bind_Ok by done.
      rewrite vset_within, bind_Ok by lia.
      rewrite (vget_total G), bind_Ok by done.
      rewrite (vget_lookup _ _ (fmul (fsub (X !!! i) mean) inv_std)), bind_Ok
        by (apply list_lookup_insert_eq; lia).
      done. }
    destruct (IH (<[pos := fmul (fsub (X !!! i) mean) inv_std]> xh)
                (fadd sd (G !!! i))
                (fadd sdx (fmul (G !!! i) (fmul (fsub (X !!! i) mean) inv_std)))
                (S pos))
      as (xh' & Hrun & Hl & Hbefore & Hat).
    + intros j Hj. apply Hin. by right.
    + rewrite length_insert. lia.
    + exists xh'. rewrite foldM_cons, Hstep, bind_Ok, Hrun. simpl length.
      replace (pos + S (length rest)) with (S pos + length rest) by lia.
      split; [done|]. rewrite length_insert in Hl. split; [done|]. split.
      * intros k Hk. rewrite Hbefore by lia. apply list_lookup_insert_ne. lia.
      * intros [|k] j Hk.
        -- simpl in Hk. injection Hk as <-. rewrite Nat.add_0_r, Hbefore by lia.
           apply list_lookup_insert_eq. lia.
        -- simpl in Hk. replace (pos + S k) with (S pos + k) by lia. by apply Hat.
Qed.

Lemma grad_loop (l : BatchNorm F) (G xh : list F) (c : nat)
    (inv_std gamma_val sum_dy sum_dy_x_hat factor : F) (xv : nat → F) (rest : list nat) :
  affine l = true →
  ∀ (gg bg gi : list F) (pos : nat),
    c < length gg → c < length bg →
    (∀ i, i ∈ rest → i < length G ∧ i < length gi) →
    (∀ k i, rest !! k = Some i → xh !! (pos + k) = Some (xv i)) →
    ∃ gi',
      foldM (grad_body G xh c inv_std gamma_val sum_dy sum_dy_x_hat factor) rest
        (set_grads l gg bg, gi, pos)
      = Ok (set_grads l
              (<[c := fsum_over (gg !!! c) rest (λ i, fmul (G !!! i) (xv i))]> gg)
              (<[c := fsum_over (bg !!! c) rest (λ i, G !!! i)]> bg),
            gi', pos + length rest) ∧
      length gi' = length gi.
Proof.
  intros Ha. induction rest as [|i rest IH]; intros gg bg gi pos Hg Hb Hin Hxh.
  - exists gi. simpl. rewrite Nat.add_0_r.
    rewrite !list_insert_id by (by apply list_lookup_lookup_total_lt). done.
  - destruct (Hin i) as [HG Hgi]; [by left|].
    assert (grad_body G xh c inv_std gamma_val sum_dy sum_dy_x_hat factor i
              (set_grads l gg bg, gi, pos)
            = Ok (set_grads l (<[c := fadd (gg !!! c) (fmul (G !!! i) (xv i))]> gg)
                    (<[c := fadd (bg !!! c) (G !!! i)]> bg),
                  <[i := input_gradient (G !!! i) inv_std gamma_val sum_dy sum_dy_x_hat
                           (xv i) factor]> gi, S pos)) as Hstep.
    { unfold grad_body.
      rewrite (vget_total G), bind_Ok by done.
      rewrite (vget_lookup xh pos (xv i)), bind_Ok
        by (rewrite <- (Nat.add_0_r pos); by apply Hxh).
      rewrite vset_within, bind_Ok by done.
      rewrite accumulate_affine_set_grads, bind_Ok by done. done. }
    destruct (IH (<[c := fadd (gg !!! c) (fmul (G !!! i) (xv i))]> gg)
                (<[c := fadd (bg !!! c) (G !!! i)]> bg)
                (<[i := input_gradient (G !!! i) inv_std gamma_val sum_dy sum_dy_x_hat
                          (xv i) factor]> gi) (S pos))
      as (gi' & Hrun & Hl).
    + by rewrite length_insert.
    + by rewrite length_insert.
    + intros j Hj. rewrite length_insert. apply Hin. by right.
    + intros k j Hk. replace (S pos + k) with (pos + S k) by lia. by apply Hxh.
    + exists gi'. rewrite foldM_cons, Hstep, bind_Ok, Hrun. simpl length.
      unfold fsum_over at 1 2. simpl foldl. fold (fsum_over (F:=F)).
      rewrite !list_lookup_total_insert_eq, !list_insert_insert_eq by done.
      replace (pos + S (length rest)) with (S pos + length rest) by lia.
      split; [done|]. by rewrite length_insert in Hl.
Qed.
End BatchNormBackward.

Section BatchNormBackwardChannels.
Context {F : Type} {SF : Scalar F}.

(** The sums that one [backward] call adds to [beta.grad[c]] and
    [gamma.grad[c]], in the order of the positions [I c] of the channel and
    starting from [init]: [Σ dy] and [Σ dy * x_hat], [x_hat] being recomputed
    from the cached input [X]. *)
Definition beta_sum (G : list F) (I : nat → list nat) (c : nat) (init : F) : F :=
  fsum_over init (I c) (λ i, G !!! i).

Definition gamma_sum (X G : list F) (I : nat → list nat) (count : nat) (epsilon : F)
    (c : nat) (init : F) : F :=
  fsum_over init (I c) (λ i, fmul (G !!! i) (bn_x_hat X (I c) count epsilon i)).

(** A loop over the channels whose round [c] adds into cell [c] of the two
    gradient buffers. *)
Lemma affine_channels_loop (body : nat → BatchNorm F * list F → result (BatchNorm F * list F))
    (sum_g sum_b : nat → F → F) (C : nat) (l : BatchNorm F) (gg0 bg0 gi0 : list F) :
  (∀ c gg bg gi, c < C → c < length gg → c < length bg → length gi = length gi0 →
     ∃ gi', body c (set_grads l gg bg, gi)
            = Ok (set_grads l (<[c := sum_g c (gg !!! c)]> gg)
                    (<[c := sum_b c (bg !!! c)]> bg), gi') ∧
            length gi' = length gi0) →
  C ≤ length gg0 → C ≤ length bg0 →
  ∃ gg bg gi,
    for_range C body (set_grads l gg0 bg0, gi0) = Ok (set_grads l gg bg, gi) ∧
    length gg = length gg0 ∧ length bg = length bg0 ∧ length gi = length gi0 ∧
    (∀ c, c < C → gg !! c = Some (sum_g c (gg0 !!! c)) ∧
                  bg !! c = Some (sum_b c (bg0 !!! c))) ∧
    (∀ c, C ≤ c → gg !! c = gg0 !! c ∧ bg !! c = bg0 !! c).
Proof.
  intros Hstep Hg Hb.
  destruct (for_range_inv
    (λ k (s : BatchNorm F * list F), ∃ gg bg,
       s.1 = set_grads l gg bg ∧
       length gg = length gg0 ∧ length bg = length bg0 ∧ length s.2 = length gi0 ∧
       (∀ c, c < k → gg !! c = Some (sum_g c (gg0 !!! c)) ∧
                     bg !! c = Some (sum_b c (bg0 !!! c))) ∧
       (∀ c, k ≤ c → gg !! c = gg0 !! c ∧ bg !! c = bg0 !! c))
    C body (set_grads l gg0 bg0, gi0))
    as ([l' gi'] & Hrun & gg & bg & Hl' & Hlg & Hlb & Hlgi & Hdone & Hrest).
  - exists gg0, bg0. simpl. split; [done|]. split; [done|]. split; [done|].
    split; [done|]. split; [intros; lia | done].
  - intros c [l1 gi1] Hc (gg & bg & Hl1 & Hlg & Hlb & Hlgi & Hdone & Hrest).
    simpl in Hl1, Hlgi. subst l1.
    destruct (Hstep c gg bg gi1) as (gi2 & Hbody & Hlgi2); [done | lia | lia | done |].
    eexists. split; [exact Hbody|].
    eexists _, _. simpl. split; [done|]. rewrite !length_insert.
    split; [done|]. split; [done|]. split; [done|]. split.
    + intros c' Hc'. destruct (decide (c' = c)) as [->|Hne].
      * rewrite !list_lookup_insert_eq by lia.
        destruct (Hrest c) as [Hr1 Hr2]; [lia|].
        rewrite (list_lookup_total_alt gg), (list_lookup_total_alt bg), Hr1, Hr2.
        by rewrite <- !list_lookup_total_alt.
      * rewrite !list_lookup_insert_ne by done. apply Hdone. lia.
    + intros c' Hc'. rewrite !list_lookup_insert_ne by lia. apply Hrest. lia.
  - simpl in Hl', Hlgi. subst l'. exists gg, bg, gi'. done.
Qed.

(** The loop over the channels of [BatchNorm2d::backward] and
    [BatchNorm3d::backward], with the positions of each channel given as a
    list. *)
Definition backward_channels (I : nat → list nat) (count : nat) (G : list F) (C : nat)
    (s : BatchNorm F * list F) : result (BatchNorm F * list F) :=
  for_range C (λ c '(l, gi),
    mean ← foldM (mean_body (input_data l)) (I c) f0;
    let mean := fdiv mean (of_size count) in
    var ← foldM (var_body (input_data l) mean) (I c) f0;
    let var := fdiv var (of_size count) in
    let inv_std := fdiv f1 (fsqrt (fadd var (eps l))) in
    gamma_val ← gamma_value l c;
    x_hat ← vresize f0 count [];
    '(x_hat, sum_dy, sum_dy_x_hat, pos) ←
      foldM (x_hat_body (input_data l) G mean inv_std) (I c) (x_hat, f0, f0, 0);
    '(l, gi, pos) ←
      foldM (grad_body G x_hat c inv_std gamma_val sum_dy sum_dy_x_hat (of_size count))
        (I c) (l, gi, 0);
    Ok (l, gi)) s.

Lemma backward_channels_spec (I : nat → list nat) (count : nat) (G : list F) (C : nat)
    (l : BatchNorm F) (gg0 bg0 gi0 : list F) :
  affine l = true →
  (∀ c i, c < C → i ∈ I c →
     i < length (input_data l) ∧ i < length G ∧ i < length gi0) →
  (∀ c, c < C → length (I c) ≤ count) →
  (Z.of_nat count ≤ vector_max_size)%Z →
  C ≤ length (data (gamma l)) → C ≤ length gg0 → C ≤ length bg0 →
  ∃ gg bg gi,
    backward_channels I count G C (set_grads l gg0 bg0, gi0)
    = Ok (set_grads l gg bg, gi) ∧
    length gg = length gg0 ∧ length bg = length bg0 ∧ length gi = length gi0 ∧
    (∀ c, c < C →
       gg !! c = Some (gamma_sum (input_data l) G I count (eps l) c (gg0 !!! c)) ∧
       bg !! c = Some (beta_sum G I c (bg0 !!! c))) ∧
    (∀ c, C ≤ c → gg !! c = gg0 !! c ∧ bg !! c = bg0 !! c).
Proof.
  intros Ha HI Hcount Hmax Hgd Hg Hb.
  apply (affine_channels_loop _
           (gamma_sum (input_data l) G I count (eps l)) (beta_sum G I)); [|done..].
  intros c gg bg gi Hc Hcg Hcb Hlgi. cbv zeta. simpl input_data. simpl eps.
  assert (∀ i, i ∈ I c → i < length (input_data l)) as HX
    by (intros i Hi; by apply (HI c)).
  unfold mean_body. rewrite mean_loop, bind_Ok by done.
  unfold var_body. rewrite var_loop, bind_Ok by done.
  fold (bn_mean (input_data l) (I c) count). fold (bn_var (input_data l) (I c) count).
  fold (bn_inv_std (eps l) (bn_var (input_data l) (I c) count)).
  unfold gamma_value. simpl affine. rewrite Ha. simpl data.
  rewrite (vget_total (data (gamma l))), bind_Ok by lia.
  rewrite vresize_fits, bind_Ok by done.
  destruct (x_hat_loop (input_data l) G (bn_mean (input_data l) (I c) count)
              (bn_inv_std (eps l) (bn_var (input_data l) (I c) count)) (I c)
              (list.resize count f0 []) f0 f0 0)
    as (xh & Hxh & _ & _ & Hat).
  { intros i Hi. destruct (HI c i) as (? & ? & ?); done. }
  { rewrite length_resize. simpl. by apply Hcount. }
  rewrite Hxh, bind_Ok.
  destruct (grad_loop l G xh c (bn_inv_std (eps l) (bn_var (input_data l) (I c) count))
              (data (gamma l) !!! c)
              (fsum_over f0 (I c) (λ i, G !!! i))
              (fsum_over f0 (I c)
                 (λ i, fmul (G !!! i)
                         (fmul (fsub (input_data l !!! i)
                                  (bn_mean (input_data l) (I c) count))
                            (bn_inv_std (eps l) (bn_var (input_data l) (I c) count)))))
              (of_size count)
              (bn_x_hat (input_data l) (I c) count (eps l)) (I c) Ha gg bg gi 0)
    as (gi' & Hgrad & Hlgi'); [done | done | | |].
  { intros i Hi. rewrite Hlgi. destruct (HI c i) as (? & ? & ?); done. }
  { intros k i Hk. by apply Hat. }
  rewrite Hgrad, bind_Ok. exists gi'. split; [done|]. by rewrite Hlgi'.
Qed.
End BatchNormBackwardChannels.

Section BatchNormBackwardVariants.
Context {F : Type} {SF : Scalar F}.

(** What [BatchNorm2d::backward] and [BatchNorm3d::backward] run on an affine
    layer once their checks have passed: [grad_input] is sized, the two
    parameter gradients are filled with zeros, and the loop over the channels
    runs. *)
Definition backward_result (I : nat → list nat) (count C : nat) (dims : list nat)
    (l : BatchNorm F) (grad_output grad_input : Tensor F)
    : result (BatchNorm F * Tensor F) :=
  '(l, gi) ← backward_channels I count (grad grad_output) C
               (set_grads l (vfill f0 (grad (gamma l))) (vfill f0 (grad (beta l))),
                list.resize (numel dims) f0 (grad grad_input));
  Ok (l, mkTensor dims (list.resize (numel dims) f0 (data grad_input)) gi).

Lemma eqb_positive (n : nat) : 0 < n → (n =? 0) = false.
Proof. intros Hn. apply Nat.eqb_neq. lia. Qed.

Lemma BatchNorm2d_backward_channels (l : BatchNorm F) (grad_output grad_input : Tensor F)
    (N C H W : nat) :
  affine l = true →
  shape grad_output = [N; C; H; W] → num_features l = C →
  length (grad grad_output) = N * C * H * W → length (input_data l) = N * C * H * W →
  length (grad (gamma l)) = C → length (grad (beta l)) = C →
  0 < N → 0 < C → 0 < H → 0 < W →
  (Z.of_nat (N * C * H * W) ≤ vector_max_size)%Z →
  BatchNorm2d_backward l grad_output grad_input
  = backward_result (channel2d N C H W) (N * H * W) C [N; C; H; W]
      l grad_output grad_input.
Proof.
  intros Ha Hs Hnf Hlg Hlx Hgg Hbg HN HC HH HW Hmax.
  destruct (features_le_2d N C H W HN HH HW) as [HCle Hpos].
  assert (0 < N * C * H * W) as Htotal by lia.
  unfold BatchNorm2d_backward, backward_result.
  rewrite Hlx, (eqb_positive _ Htotal), Hs. simpl length. simpl Nat.eqb.
  change ([N; C; H; W] !!! 0) with N. change ([N; C; H; W] !!! 1) with C.
  change ([N; C; H; W] !!! 2) with H. change ([N; C; H; W] !!! 3) with W.
  rewrite Hnf, Nat.eqb_refl. simpl negb. simpl orb. cbv iota.
  rewrite Hlg, (eqb_positive _ Htotal).
  rewrite <- !Nat2Z.inj_mul, wrap64_small
    by (unfold vector_max_size, SIZE_MAX in *; lia).
  rewrite Nat.eqb_refl, Ha, Hgg, Hbg, Nat.eqb_refl. simpl negb. simpl orb. simpl andb.
  cbv iota.
  change (vget [N; C; H; W] 0) with (Ok (A:=nat) N).
  change (vget [N; C; H; W] 1) with (Ok (A:=nat) C).
  change (vget [N; C; H; W] 2) with (Ok (A:=nat) H).
  change (vget [N; C; H; W] 3) with (Ok (A:=nat) W).
  rewrite !bind_Ok.
  rewrite resize_numel; simpl shape; [| done | repeat constructor; lia | by rewrite numel_4].
  rewrite bind_Ok.
  rewrite resize_grad_numel; simpl shape;
    [| done | repeat constructor; lia | by rewrite numel_4].
  rewrite bind_Ok. cbv zeta. simpl grad. simpl data.
  assert (wrap64 (Z.of_nat N * Z.of_nat H * Z.of_nat W) = N * H * W) as ->.
  { rewrite <- !Nat2Z.inj_mul. apply wrap64_small.
    unfold vector_max_size, SIZE_MAX in *. nia. }
  apply bind_ext.
  - intros [l' g]. reflexivity.
  - unfold backward_channels. rewrite !for_range_foldM.
    apply foldM_ext. intros c [l1 gi1] _. cbv zeta.
    apply bind_ext;
      [|apply (for_range_positions3 N H W (λ n h w, n * C * H * W + c * H * W + h * W + w)
                 (mean_body (input_data l1)))].
    intros mean.
    apply bind_ext;
      [|apply (for_range_positions3 N H W (λ n h w, n * C * H * W + c * H * W + h * W + w)
                 (var_body (input_data l1) (fdiv mean (of_size (N * H * W)))))].
    intros var. apply bind_ext; [|done]. intros gamma_val.
    apply bind_ext; [|done]. intros x_hat.
    apply bind_ext;
      [|apply (for_range_positions3 N H W (λ n h w, n * C * H * W + c * H * W + h * W + w)
                 (x_hat_body (input_data l1) (grad grad_output)
                    (fdiv mean (of_size (N * H * W)))
                    (fdiv f1 (fsqrt (fadd (fdiv var (of_size (N * H * W))) (eps l1))))))].
    intros [[[xh sd] sdx] pos].
    apply bind_ext; [done|].
    apply (for_range_positions3 N H W (λ n h w, n * C * H * W + c * H * W + h * W + w)
             (grad_body (grad grad_output) xh c
                (fdiv f1 (fsqrt (fadd (fdiv var (of_size (N * H * W))) (eps l1))))
                gamma_val sd sdx (of_size (N * H * W)))).
Qed.

Lemma BatchNorm3d_backward_channels (l : BatchNorm F) (grad_output grad_input : Tensor F)
    (N C D H W : nat) :
  affine l = true →
  shape grad_output = [N; C; D; H; W] → num_features l = C →
  length (grad grad_output) = N * C * D * H * W →
  length (input_data l) = N * C * D * H * W →
  length (grad (gamma l)) = C → length (grad (beta l)) = C →
  0 < N → 0 < C → 0 < D → 0 < H → 0 < W →
  (Z.of_nat (N * C * D * H * W) ≤ vector_max_size)%Z →
  BatchNorm3d_backward l grad_output grad_input
  = backward_result (channel3d N C D H W) (N * D * H * W) C [N; C; D; H; W]
      l grad_output grad_input.
Proof.
  intros Ha Hs Hnf Hlg Hlx Hgg Hbg HN HC HD HH HW Hmax.
  destruct (features_le_3d N C D H W HN HD HH HW) as [HCle Hpos].
  assert (0 < N * C * D * H * W) as Htotal by lia.
  unfold BatchNorm3d_backward, backward_result.
  rewrite Hlx, (eqb_positive _ Htotal), Hs. simpl length. simpl Nat.eqb.
  change ([N; C; D; H; W] !!! 0) with N. change ([N; C; D; H; W] !!! 1) with C.
  change ([N; C; D; H; W] !!! 2) with D. change ([N; C; D; H; W] !!! 3) with H.
  change ([N; C; D; H; W] !!! 4) with W.
  rewrite Hnf, Nat.eqb_refl. simpl negb. simpl orb. cbv iota.
  rewrite Hlg, (eqb_positive _ Htotal).
  rewrite <- !Nat2Z.inj_mul, wrap64_small
    by (unfold vector_max_size, SIZE_MAX in *; lia).
  rewrite Nat.eqb_refl, Ha, Hgg, Hbg, Nat.eqb_refl. simpl negb. simpl orb. simpl andb.
  cbv iota.
  change (vget [N; C; D; H; W] 0) with (Ok (A:=nat) N).
  change (vget [N; C; D; H; W] 1) with (Ok (A:=nat) C).
  change (vget [N; C; D; H; W] 2) with (Ok (A:=nat) D).
  change (vget [N; C; D; H; W] 3) with (Ok (A:=nat) H).
  change (vget [N; C; D; H; W] 4) with (Ok (A:=nat) W).
  rewrite !bind_Ok.
  rewrite resize_numel; simpl shape; [| done | repeat constructor; lia | by rewrite numel_5].
  rewrite bind_Ok.
  rewrite resize_grad_numel; simpl shape;
    [| done | repeat constructor; lia | by rewrite numel_5].
  rewrite bind_Ok. cbv zeta. simpl grad. simpl data.
  assert (wrap64 (Z.of_nat N * Z.of_nat D * Z.of_nat H * Z.of_nat W) = N * D * H * W)
    as ->.
  { rewrite <- !Nat2Z.inj_mul. apply wrap64_small.
    unfold vector_max_size, SIZE_MAX in *. lia. }
  apply bind_ext.
  - intros [l' g]. reflexivity.
  - unfold backward_channels. rewrite !for_range_foldM.
    apply foldM_ext. intros c [l1 gi1] _. cbv zeta.
    apply bind_ext;
      [|apply (for_range_positions4 N D H W
                 (λ n d h w, n * C * D * H * W + c * D * H * W + d * H * W + h * W + w)
                 (mean_body (input_data l1)))].
    intros mean.
    apply bind_ext;
      [|apply (for_range_positions4 N D H W
                 (λ n d h w, n * C * D * H * W + c * D * H * W + d * H * W + h * W + w)
                 (var_body (input_data l1) (fdiv mean (of_size (N * D * H * W)))))].
    intros var. apply bind_ext; [|done]. intros gamma_val.
    apply bind_ext; [|done]. intros x_hat.
    apply bind_ext;
      [|apply (for_range_positions4 N D H W
                 (λ n d h w, n * C * D * H * W + c * D * H * W + d * H * W + h * W + w)
                 (x_hat_body (input_data l1) (grad grad_output)
                    (fdiv mean (of_size (N * D * H * W)))
                    (fdiv f1 (fsqrt (fadd (fdiv var (of_size (N * D * H * W)))
                                       (eps l1))))))].
    intros [[[xh sd] sdx] pos].
    apply bind_ext; [done|].
    apply (for_range_positions4 N D H W
             (λ n d h w, n * C * D * H * W + c * D * H * W + d * H * W + h * W + w)
             (grad_body (grad grad_output) xh c
                (fdiv f1 (fsqrt (fadd (fdiv var (of_size (N * D * H * W))) (eps l1))))
                gamma_val sd sdx (of_size (N * D * H * W)))).
Qed.
End BatchNormBackwardVariants.

Section BatchNorm1dBackward.
Context {F : Type} {SF : Scalar F}.
Context (X G : list F) (B nf f : nat).
Hypothesis HX : ∀ b, b < B → b * nf + f < length X.
Hypothesis HG : ∀ b, b < B → b * nf + f < length G.

(** The loops of one round of [BatchNorm1d::backward], feature [f]. *)
Lemma mean1d_loop :
  for_range B (λ b mean, x ← vget X (b * nf + f); Ok (fadd mean x)) f0
  = Ok (fsum_over f0 (channel1d B nf f) (λ i, X !!! i)).
Proof using HX.
  etrans; [apply (for_range_positions1 B (λ b, b * nf + f) (mean_body X))|].
  apply mean_loop. intros i (b & Hb & ->)%elem_of_channel1d. by apply HX.
Qed.

Lemma var1d_loop (mean : F) :
  for_range B (λ b var,
    x ← vget X (b * nf + f); Ok (fadd var (fmul (fsub x mean) (fsub x mean)))) f0
  = Ok (fsum_over f0 (channel1d B nf f)
          (λ i, fmul (fsub (X !!! i) mean) (fsub (X !!! i) mean))).
Proof using HX.
  etrans; [apply (for_range_positions1 B (λ b, b * nf + f) (var_body X mean))|].
  apply var_loop. intros i (b & Hb & ->)%elem_of_channel1d. by apply HX.
Qed.

Lemma x_hat1d_loop (mean inv_std : F) (xh0 : list F) :
  length xh0 = B →
  ∃ xh,
    for_range B (λ b x_hat,
      x ← vget X (b * nf + f); vset x_hat b (fmul (fsub x mean) inv_std)) xh0
    = Ok xh ∧
    length xh = B ∧
    ∀ b, b < B → xh !! b = Some (fmul (fsub (X !!! (b * nf + f)) mean) inv_std).
Proof using HX.
  intros Hl.
  destruct (for_range_inv
    (λ k (xh : list F), length xh = B ∧
       ∀ b, b < k → xh !! b = Some (fmul (fsub (X !!! (b * nf + f)) mean) inv_std))
    B (λ b x_hat, x ← vget X (b * nf + f); vset x_hat b (fmul (fsub x mean) inv_std))
    xh0) as (xh & Hrun & Hlen & Hval).
  - split; [done|]. intros; lia.
  - intros b xh Hb [Hlen Hval].
    rewrite (vget_total X), bind_Ok by (by apply HX).
    rewrite vset_within by lia. eexists. split; [done|].
    rewrite length_insert. split; [done|]. intros b' Hb'.
    destruct (decide (b' = b)) as [->|Hne].
    + apply list_lookup_insert_eq. lia.
    + rewrite list_lookup_insert_ne by done. apply Hval. lia.
  - exists xh. split; [done|]. split; [done|]. intros b Hb. by apply Hval.
Qed.

Lemma sums1d_loop (xh : list F) :
  length xh = B →
  ∃ sd sdx,
    for_range B (λ b '(sum_dy, sum_dy_x_hat),
      dy ← vget G (b * nf + f);
      xh ← vget xh b;
      Ok (fadd sum_dy dy, fadd sum_dy_x_hat (fmul dy xh))) (f0, f0)
    = Ok (sd, sdx).
Proof using HG.
  intros Hl.
  destruct (for_range_inv (λ _ (_ : F * F), True) B
    (λ b '(sum_dy, sum_dy_x_hat),
      dy ← vget G (b * nf + f);
      xh ← vget xh b;
      Ok (fadd sum_dy dy, fadd sum_dy_x_hat (fmul dy xh))) (f0, f0))
    as ([sd sdx] & Hrun & _).
  - done.
  - intros b [sd sdx] Hb _.
    rewrite (vget_total G), bind_Ok by (by apply HG).
    rewrite (vget_total xh), bind_Ok by lia. eexists. done.
  - by exists sd, sdx.
Qed.

Lemma grad1d_loop (l : BatchNorm F) (xh : list F) (xv : nat → F)
    (inv_std gamma_val sum_dy sum_dy_x_hat factor : F) (gg bg gi : list F) :
  affine l = true → num_features l = nf → f < length gg → f < length bg →
  (∀ b, b < B → b * nf + f < length gi) →
  (∀ b, b < B → xh !! b = Some (xv (b * nf + f))) →
  ∃ gi',
    for_range B (λ b '(l, gi),
      dy ← vget G (b * num_features l + f);
      xh ← vget xh b;
      gi ← vset gi (b * num_features l + f)
             (input_gradient dy inv_std gamma_val sum_dy sum_dy_x_hat xh factor);
      l ← accumulate_affine l f dy xh;
      Ok (l, gi)) (set_grads l gg bg, gi)
    = Ok (set_grads l
            (<[f := fsum_over (gg !!! f) (channel1d B nf f)
                      (λ i, fmul (G !!! i) (xv i))]> gg)
            (<[f := fsum_over (bg !!! f) (channel1d B nf f) (λ i, G !!! i)]> bg),
          gi') ∧
    length gi' = length gi.
Proof using HG.
  intros Ha Hfeatures Hg Hb Hgi Hxh.
  destruct (for_range_inv
    (λ k (s : BatchNorm F * list F),
       s.1 = set_grads l
               (<[f := fsum_from (gg !!! f) k
                         (λ b, fmul (G !!! (b * nf + f)) (xv (b * nf + f)))]> gg)
               (<[f := fsum_from (bg !!! f) k (λ b, G !!! (b * nf + f))]> bg) ∧
       length s.2 = length gi)
    B (λ b '(l, gi),
      dy ← vget G (b * num_features l + f);
      xh ← vget xh b;
      gi ← vset gi (b * num_features l + f)
             (input_gradient dy inv_std gamma_val sum_dy sum_dy_x_hat xh factor);
      l ← accumulate_affine l f dy xh;
      Ok (l, gi)) (set_grads l gg bg, gi)) as ([l' gi'] & Hrun & Hl' & Hlen).
  - simpl. split; [|done]. unfold fsum_from. simpl.
    by rewrite !list_insert_id by (by apply list_lookup_lookup_total_lt).
  - intros b [l1 gi1] Hb' [Hl1 Hlen]. simpl in Hl1, Hlen. subst l1.
    simpl num_features. rewrite Hfeatures.
    rewrite (vget_total G), bind_Ok by (by apply HG).
    rewrite (vget_lookup xh b (xv (b * nf + f))), bind_Ok by (by apply Hxh).
    rewrite vset_within, bind_Ok by (rewrite Hlen; by apply Hgi).
    rewrite accumulate_affine_set_grads, bind_Ok by (by rewrite ?length_insert).
    eexists. split; [done|]. simpl. rewrite length_insert. split; [|done].
    by rewrite !list_lookup_total_insert_eq, !list_insert_insert_eq, !fsum_from_S.
  - simpl in Hl', Hlen. subst l'. exists gi'. split; [|done]. rewrite Hrun.
    unfold channel1d. rewrite !fsum_over_fmap. reflexivity.
Qed.
End BatchNorm1dBackward.

Section BatchNormBackwardSpec.
Context {F : Type} {SF : Scalar F}.

(** The value a cell of a parameter gradient is accumulated from: zero when
    [backward] has cleared the buffer, the cell as the caller left it
    otherwise. *)
Definition accumulated_from (zeroed : bool) (g : list F) (c : nat) : F :=
  if zeroed then f0 else g !!! c.

(** What a successful [backward] leaves in [beta.grad] and [gamma.grad] of an
    affine layer: for every channel [c], with [dy] read from
    [grad_output.grad] and [x_hat] recomputed from the cached input over the
    positions [I c], [Σ dy] and [Σ dy * x_hat] added term by term to the
    starting value. *)
Definition parameter_grads_after
    (backward : BatchNorm F → Tensor F → Tensor F → result (BatchNorm F * Tensor F))
    (I : nat → list nat) (count C : nat) (zeroed : bool)
    (l : BatchNorm F) (grad_output grad_input : Tensor F) : Prop :=
  ∃ l' gi,
    backward l grad_output grad_input = Ok (l', gi) ∧
    length (grad (beta l')) = length (grad (beta l)) ∧
    length (grad (gamma l')) = length (grad (gamma l)) ∧
    ∀ c, c < C →
      grad (beta l') !! c
      = Some (beta_sum (grad grad_output) I c
                (accumulated_from zeroed (grad (beta l)) c)) ∧
      grad (gamma l') !! c
      = Some (gamma_sum (input_data l) (grad grad_output) I count (eps l) c
                (accumulated_from zeroed (grad (gamma l)) c)).

Lemma backward_result_spec (I : nat → list nat) (count C : nat) (dims : list nat)
    (l : BatchNorm F) (grad_output grad_input : Tensor F) :
  affine l = true → num_features l = C → bn_wf l →
  (∀ c i, c < C → i ∈ I c →
     i < length (input_data l) ∧ i < length (grad grad_output) ∧ i < numel dims) →
  (∀ c, c < C → length (I c) ≤ count) →
  (Z.of_nat count ≤ vector_max_size)%Z →
  parameter_grads_after (backward_result I count C dims) I count C true
    l grad_output grad_input.
Proof.
  intros Ha Hnf [Hwf _] HI Hcount Hmax.
  destruct (Hwf Ha) as (Hgd & Hbd & Hgg & Hbg).
  destruct (backward_channels_spec I count (grad grad_output) C l
              (vfill f0 (grad (gamma l))) (vfill f0 (grad (beta l)))
              (list.resize (numel dims) f0 (grad grad_input)) Ha)
    as (gg & bg & gi & Hrun & Hlg & Hlb & _ & Hsum & _).
  - intros c i Hc Hi. rewrite length_resize. by apply (HI c).
  - done.
  - done.
  - lia.
  - rewrite length_vfill. lia.
  - rewrite length_vfill. lia.
  - unfold parameter_grads_after, backward_result. rewrite Hrun, bind_Ok.
    eexists _, _. split; [done|]. simpl.
    rewrite length_vfill in Hlg, Hlb. split; [done|]. split; [done|].
    intros c Hc. destruct (Hsum c Hc) as [Hg Hb].
    rewrite (list_lookup_total_correct _ _ f0) in Hg by (apply lookup_vfill; lia).
    rewrite (list_lookup_total_correct _ _ f0) in Hb by (apply lookup_vfill; lia).
    done.
Qed.

Lemma BatchNorm2d_backward_spec (l : BatchNorm F) (grad_output grad_input : Tensor F)
    (N C H W : nat) :
  affine l = true → bn_wf l →
  shape grad_output = [N; C; H; W] → num_features l = C →
  length (grad grad_output) = N * C * H * W → length (input_data l) = N * C * H * W →
  0 < N → 0 < C → 0 < H → 0 < W →
  (Z.of_nat (N * C * H * W) ≤ vector_max_size)%Z →
  parameter_grads_after BatchNorm2d_backward (channel2d N C H W) (N * H * W) C true
    l grad_output grad_input.
Proof.
  intros Ha Hwf Hs Hnf Hlg Hlx HN HC HH HW Hmax.
  destruct (proj1 Hwf Ha) as (_ & _ & Hgg & Hbg).
  destruct (features_le_2d N C H W HN HH HW) as [HCle Hpos].
  pose proof (backward_result_spec (channel2d N C H W) (N * H * W) C [N; C; H; W]
                l grad_output grad_input Ha Hnf Hwf) as Hspec.
  unfold parameter_grads_after in *.
  rewrite (BatchNorm2d_backward_channels l grad_output grad_input N C H W)
    by (done || lia).
  apply Hspec.
  - intros c i Hc Hi. rewrite Hlx, Hlg, numel_4.
    split; [|split]; by apply (channel2d_lt _ _ _ _ c).
  - intros c _. by rewrite length_channel2d.
  - assert (N * H * W ≤ N * C * H * W) by nia. lia.
Qed.

Lemma BatchNorm3d_backward_spec (l : BatchNorm F) (grad_output grad_input : Tensor F)
    (N C D H W : nat) :
  affine l = true → bn_wf l →
  shape grad_output = [N; C; D; H; W] → num_features l = C →
  length (grad grad_output) = N * C * D * H * W →
  length (input_data l) = N * C * D * H * W →
  0 < N → 0 < C → 0 < D → 0 < H → 0 < W →
  (Z.of_nat (N * C * D * H * W) ≤ vector_max_size)%Z →
  parameter_grads_after BatchNorm3d_backward (channel3d N C D H W) (N * D * H * W) C true
    l grad_output grad_input.
Proof.
  intros Ha Hwf Hs Hnf Hlg Hlx HN HC HD HH HW Hmax.
  destruct (proj1 Hwf Ha) as (_ & _ & Hgg & Hbg).
  destruct (features_le_3d N C D H W HN HD HH HW) as [HCle Hpos].
  pose proof (backward_result_spec (channel3d N C D H W) (N * D * H * W) C
                [N; C; D; H; W] l grad_output grad_input Ha Hnf Hwf) as Hspec.
  unfold parameter_grads_after in *.
  rewrite (BatchNorm3d_backward_channels l grad_output grad_input N C D H W)
    by (done || lia).
  apply Hspec.
  - intros c i Hc Hi. rewrite Hlx, Hlg, numel_5.
    split; [|split]; by apply (channel3d_lt _ _ _ _ _ c).
  - intros c _. by rewrite length_channel3d.
  - assert (N * D * H * W ≤ N * C * D * H * W) by nia. lia.
Qed.

Lemma affine_channels_loop_same
    (body : nat → BatchNorm F * list F → result (BatchNorm F * list F))
    (sum_g sum_b : nat → F → F) (C : nat) (l : BatchNorm F) (gi0 : list F) :
  (∀ c gg bg gi, c < C → c < length gg → c < length bg → length gi = length gi0 →
     ∃ gi', body c (set_grads l gg bg, gi)
            = Ok (set_grads l (<[c := sum_g c (gg !!! c)]> gg)
                    (<[c := sum_b c (bg !!! c)]> bg), gi') ∧
            length gi' = length gi0) →
  C ≤ length (grad (gamma l)) → C ≤ length (grad (beta l)) →
  ∃ gg bg gi,
    for_range C body (l, gi0) = Ok (set_grads l gg bg, gi) ∧
    length gg = length (grad (gamma l)) ∧ length bg = length (grad (beta l)) ∧
    ∀ c, c < C → gg !! c = Some (sum_g c (grad (gamma l) !!! c)) ∧
                 bg !! c = Some (sum_b c (grad (beta l) !!! c)).
Proof.
  intros Hstep Hg Hb.
  destruct (affine_channels_loop body sum_g sum_b C l (grad (gamma l)) (grad (beta l))
              gi0 Hstep Hg Hb) as (gg & bg & gi & Hrun & Hlg & Hlb & _ & Hsum & _).
  rewrite set_grads_same in Hrun. by exists gg, bg, gi.
Qed.

Lemma BatchNorm1d_backward_spec (l : BatchNorm F) (grad_output grad_input : Tensor F)
    (B : nat) :
  affine l = true → bn_wf l →
  shape grad_output = [B; num_features l] →
  length (grad grad_output) = B * num_features l →
  length (input_data l) = B * num_features l →
  0 < B → 0 < num_features l →
  (Z.of_nat (B * num_features l) ≤ vector_max_size)%Z →
  parameter_grads_after BatchNorm1d_backward (channel1d B (num_features l)) B
    (num_features l) false l grad_output grad_input.
Proof.
  intros Ha Hwf Hs Hlg Hlx HB Hnf Hmax.
  destruct (proj1 Hwf Ha) as (Hgd & _ & Hgg & Hbg).
  assert (0 < B * num_features l) as Htotal by nia.
  assert (B ≤ B * num_features l) as HBle by nia.
  unfold parameter_grads_after, BatchNorm1d_backward.
  rewrite Hs. simpl length. simpl Nat.eqb.
  change ([B; num_features l] !!! 0) with B.
  change ([B; num_features l] !!! 1) with (num_features l).
  rewrite Nat.eqb_refl. simpl negb. simpl orb. cbv iota.
  rewrite Hlg, (eqb_positive _ Htotal), Hlx, (eqb_positive _ Htotal).
  rewrite <- Nat2Z.inj_mul, wrap64_small
    by (unfold vector_max_size, SIZE_MAX in *; lia).
  rewrite Nat.eqb_refl. simpl negb. cbv iota.
  change (vget [B; num_features l] 0) with (Ok (A:=nat) B). rewrite bind_Ok.
  rewrite resize_numel; simpl shape;
    [| done | repeat constructor; lia | by rewrite numel_2].
  rewrite bind_Ok.
  rewrite resize_grad_numel; simpl shape;
    [| done | repeat constructor; lia | by rewrite numel_2].
  rewrite bind_Ok. simpl grad. rewrite numel_2.
  match goal with
  | |- context [for_range _ ?body (l, ?g0)] =>
      destruct (affine_channels_loop_same body
                  (gamma_sum (input_data l) (grad grad_output)
                     (channel1d B (num_features l)) B (eps l))
                  (beta_sum (grad grad_output) (channel1d B (num_features l)))
                  (num_features l) l g0)
        as (gg & bg & gi & Hrun & Hlgg & Hlbg & Hsum)
  end.
  - intros f gg bg gi Hf Hfg Hfb Hlgi. rewrite length_resize, Nat.mul_1_r in Hlgi.
    cbv zeta. simpl input_data. simpl num_features. simpl eps.
    assert (∀ b, b < B → b * num_features l + f < length (input_data l)) as HX
      by (intros b Hb; rewrite Hlx; by apply rowmajor_lt).
    assert (∀ b, b < B → b * num_features l + f < length (grad grad_output)) as HG
      by (intros b Hb; rewrite Hlg; by apply rowmajor_lt).
    rewrite (mean1d_loop (input_data l) B (num_features l) f HX), bind_Ok.
    rewrite (var1d_loop (input_data l) B (num_features l) f HX), bind_Ok.
    fold (bn_mean (input_data l) (channel1d B (num_features l) f) B).
    fold (bn_var (input_data l) (channel1d B (num_features l) f) B).
    fold (bn_inv_std (eps l) (bn_var (input_data l) (channel1d B (num_features l) f) B)).
    rewrite vresize_fits, bind_Ok by lia.
    destruct (x_hat1d_loop (input_data l) B (num_features l) f HX
                (bn_mean (input_data l) (channel1d B (num_features l) f) B)
                (bn_inv_std (eps l)
                   (bn_var (input_data l) (channel1d B (num_features l) f) B))
                (list.resize B f0 []))
      as (xh & Hxh & Hlxh & Hval); [by rewrite length_resize|].
    rewrite Hxh, bind_Ok.
    destruct (sums1d_loop (grad grad_output) B (num_features l) f HG xh Hlxh)
      as (sd & sdx & Hsums).
    rewrite Hsums, bind_Ok.
    unfold gamma_value. simpl affine. rewrite Ha. simpl data.
    rewrite (vget_total (data (gamma l))), bind_Ok by lia.
    destruct (grad1d_loop (grad grad_output) B (num_features l) f HG l xh
                (bn_x_hat (input_data l) (channel1d B (num_features l) f) B (eps l))
                (bn_inv_std (eps l)
                   (bn_var (input_data l) (channel1d B (num_features l) f) B))
                (data (gamma l) !!! f) sd sdx (of_size B) gg bg gi Ha eq_refl Hfg Hfb)
      as (gi' & Hgrad & Hlgi').
    { intros b Hb. rewrite Hlgi. by apply rowmajor_lt. }
    { intros b Hb. by apply Hval. }
    exists gi'. split; [exact Hgrad|]. rewrite length_resize, Hlgi', Hlgi. lia.
  - lia.
  - lia.
  - rewrite Hrun, bind_Ok. eexists _, _. split; [done|]. simpl.
    split; [done|]. split; [done|]. intros c Hc.
    destruct (Hsum c Hc) as [Hg Hb]. done.
Qed.
End BatchNormBackwardSpec.

(** Over the reals the accumulation onto a prior content is the prior
    content plus the sum. *)
Lemma fsum_over_prior (prior : R) (I : list nat) (f : nat → R) :
  fsum_over (SF := Exact.real) prior I f
  = (prior + fsum_over (SF := Exact.real) 0%R I f)%R.
Proof.
  revert prior. induction I as [|i I IH]; intros prior.
  - simpl. lra.
  - change (fsum_over (SF := Exact.real) prior (i :: I) f)
      with (fsum_over (SF := Exact.real) (prior + f i)%R I f).
    change (fsum_over (SF := Exact.real) 0%R (i :: I) f)
      with (fsum_over (SF := Exact.real) (0 + f i)%R I f).
    rewrite (IH (prior + f i)%R), (IH (0 + f i)%R). lra.
Qed.

(** A layer of one feature that has cached the input [1, 3] and whose
    [gamma.grad] and [beta.grad] hold 7 from an earlier call, and two
    upstream tensors with gradient [1, 2]. *)
Definition Reference_bn32 : BatchNorm spec_float :=
  mkBatchNorm 1 (Binary32.decimal 1 5) (Binary32.decimal 1 1) true true
    (mkTensor [1] [Binary32.of_Z 1] [Binary32.of_Z 7])
    (mkTensor [1] [Binary32.of_Z 0] [Binary32.of_Z 7])
    (mkTensor [1] [Binary32.of_Z 0] []) (mkTensor [1] [Binary32.of_Z 1] [])
    [Binary32.of_Z 1; Binary32.of_Z 3] false.

Definition Reference_upstream1d32 : Tensor spec_float :=
  mkTensor [2; 1] [] [Binary32.of_Z 1; Binary32.of_Z 2].

Definition Reference_upstream2d32 : Tensor spec_float :=
  mkTensor [2; 1; 1; 1] [] [Binary32.of_Z 1; Binary32.of_Z 2].

(** C6.  On an affine layer whose buffers have one cell per feature and
    that has cached an input of the shape of [grad_output], [backward]
    succeeds and leaves in [beta.grad[c]] and [gamma.grad[c]], for every
    channel [c], the sums [Σ dy] and [Σ dy * x_hat] over the positions of the
    channel: accumulated from zero by [BatchNorm2d] and [BatchNorm3d], which
    clear the two buffers first, so that their prior contents do not matter;
    accumulated onto the prior contents by [BatchNorm1d], which does not clear
    them.  Over the reals accumulating onto the prior content gives the prior
    content plus the sum. *)
Theorem C6_parameter_gradients (F : Type) (SF : Scalar F) :
  (∀ (l : BatchNorm F) (grad_output grad_input : Tensor F) (N C H W : nat),
     affine l = true → bn_wf l →
     shape grad_output = [N; C; H; W] → num_features l = C →
     length (grad grad_output) = N * C * H * W →
     length (input_data l) = N * C * H * W →
     0 < N → 0 < C → 0 < H → 0 < W →
     (Z.of_nat (N * C * H * W) ≤ vector_max_size)%Z →
     parameter_grads_after BatchNorm2d_backward (channel2d N C H W) (N * H * W) C true
       l grad_output grad_input) ∧
  (∀ (l : BatchNorm F) (grad_output grad_input : Tensor F) (N C D H W : nat),
     affine l = true → bn_wf l →
     shape grad_output = [N; C; D; H; W] → num_features l = C →
     length (grad grad_output) = N * C * D * H * W →
     length (input_data l) = N * C * D * H * W →
     0 < N → 0 < C → 0 < D → 0 < H → 0 < W →
     (Z.of_nat (N * C * D * H * W) ≤ vector_max_size)%Z →
     parameter_grads_after BatchNorm3d_backward (channel3d N C D H W) (N * D * H * W) C
       true l grad_output grad_input) ∧
  (∀ (l : BatchNorm F) (grad_output grad_input : Tensor F) (B : nat),
     affine l = true → bn_wf l →
     shape grad_output = [B; num_features l] →
     length (grad grad_output) = B * num_features l →
     length (input_data l) = B * num_features l →
     0 < B → 0 < num_features l →
     (Z.of_nat (B * num_features l) ≤ vector_max_size)%Z →
     parameter_grads_after BatchNorm1d_backward (channel1d B (num_features l)) B
       (num_features l) false l grad_output grad_input) ∧
  (∀ (X G : list R) (I : nat → list nat) (count : nat) (epsilon : R) (c : nat) (prior : R),
     beta_sum (SF := Exact.real) G I c prior
     = (prior + beta_sum (SF := Exact.real) G I c 0%R)%R ∧
     gamma_sum (SF := Exact.real) X G I count epsilon c prior
     = (prior + gamma_sum (SF := Exact.real) X G I count epsilon c 0%R)%R).
Proof.
  split; [|split; [|split]].
  - intros l grad_output grad_input N C H W. apply BatchNorm2d_backward_spec.
  - intros l grad_output grad_input N C D H W. apply BatchNorm3d_backward_spec.
  - intros l grad_output grad_input B. apply BatchNorm1d_backward_spec.
  - intros X G I count epsilon c prior. split; apply fsum_over_prior.
Qed.

(** C6 on the reference layer: as a [BatchNorm1d], [beta.grad[0]] becomes
    [7 + 1 + 2]; as a [BatchNorm2d], [0 + 1 + 2]. *)
Lemma C6_parameter_gradients_witness :
  ∃ l1 g1 l2 g2,
    BatchNorm1d_backward Reference_bn32 Reference_upstream1d32 Tensor_empty
    = Ok (l1, g1) ∧
    grad (beta l1) !! 0 = Some (Binary32.of_Z 10) ∧
    BatchNorm2d_backward Reference_bn32 Reference_upstream2d32 Tensor_empty
    = Ok (l2, g2) ∧
    grad (beta l2) !! 0 = Some (Binary32.of_Z 3).
Proof.
  assert (bn_wf Reference_bn32) as Hwf by (split; intros _; repeat split; reflexivity).
  destruct (C6_parameter_gradients spec_float Binary32.binary32) as (H2d & _ & H1d & _).
  destruct (H1d Reference_bn32 Reference_upstream1d32 Tensor_empty 2)
    as (l1 & g1 & Hrun1 & _ & _ & Hsum1);
    try reflexivity; try exact Hwf; try (simpl; lia); try (vm_compute; discriminate).
  destruct (H2d Reference_bn32 Reference_upstream2d32 Tensor_empty 2 1 1 1)
    as (l2 & g2 & Hrun2 & _ & _ & Hsum2);
    try reflexivity; try exact Hwf; try (simpl; lia); try (vm_compute; discriminate).
  exists l1, g1, l2, g2. split; [exact Hrun1|]. split; [|split; [exact Hrun2|]].
  - destruct (Hsum1 0) as [Hb _]; [simpl; lia|]. rewrite Hb. vm_compute. reflexivity.
  - destruct (Hsum2 0) as [Hb _]; [simpl; lia|]. rewrite Hb. vm_compute. reflexivity.
Defined.

(** * Further properties of the engine *)

(** ** Tensor *)

Section TensorSize.
Context {F : Type} {SF : Scalar F}.
Implicit Types (t : Tensor F).

Lemma Z_of_wrap64 (z : Z) : Z.of_nat (wrap64 z) = (z mod 2 ^ 64)%Z.
Proof.
  unfold wrap64. apply Z2Nat.id.
  apply Z.mod_pos_bound. done.
Qed.

Lemma wrap64_mul_l (z d : Z) : wrap64 (Z.of_nat (wrap64 z) * d) = wrap64 (z * d).
Proof.
  rewrite Z_of_wrap64. unfold wrap64. f_equal.
  apply Z.mul_mod_idemp_l. done.
Qed.

(** The running product of [Tensor::size] is the product of the dimensions
    reduced modulo 2^64. *)
Lemma fold_size_wrap (s : list nat) (z : Z) :
  foldl (λ total dim, wrap64 (Z.of_nat total * Z.of_nat dim)) (wrap64 z) s
  = wrap64 (z * Z.of_nat (numel s)).
Proof.
  revert z. induction s as [|d s IH]; intros z.
  - simpl. by rewrite Z.mul_1_r.
  - simpl foldl. rewrite wrap64_mul_l, IH. f_equal. simpl numel. lia.
Qed.

Lemma validate_shape_spec t :
  validate_shape t = true ↔ shape t ≠ [] ∧ 0 ∉ shape t.
Proof.
  split.
  - intros Hv. split.
    + intros He. by rewrite (validate_shape_false t (or_introl He)) in Hv.
    + intros H0. by rewrite (validate_shape_false t (or_intror H0)) in Hv.
  - intros [Hne H0]. apply validate_shape_true; [done|].
    apply Forall_forall. intros d Hd. destruct d; [done | lia].
Qed.

Lemma size_wrap t :
  shape t ≠ [] → 0 ∉ shape t → size t = Ok (wrap64 (Z.of_nat (numel (shape t)))).
Proof.
  intros Hne H0. unfold size.
  rewrite (proj2 (validate_shape_spec t)) by done. f_equal.
  change 1 with (wrap64 1) at 1. rewrite fold_size_wrap. f_equal. lia.
Qed.
End TensorSize.

(** X1.  [Tensor::size] throws [invalid_argument("Invalid tensor shape")]
    exactly when [shape] is empty or holds a zero; on every other shape it
    returns the product of the dimensions reduced modulo 2^64: an overflow of
    the running product is not detected. *)
Theorem X1_Tensor_size (F : Type) (SF : Scalar F) (t : Tensor F) :
  (size t = Err InvalidShape ↔ shape t = [] ∨ 0 ∈ shape t) ∧
  (size t = Ok (wrap64 (Z.of_nat (numel (shape t)))) ↔ shape t ≠ [] ∧ 0 ∉ shape t).
Proof.
  destruct (validate_shape t) eqn:Hv.
  - pose proof (proj1 (validate_shape_spec t) Hv) as [Hne H0].
    rewrite size_wrap by done. split; split; try done.
    intros [He|Hz]; done.
  - rewrite size_invalid by done.
    assert (shape t = [] ∨ 0 ∈ shape t) as Hbad.
    { destruct (shape t) as [|d s] eqn:E; [by left|]. right.
      destruct (decide (0 ∈ d :: s)) as [|Hn]; [done|].
      assert (validate_shape t = true) as Hv'; [|congruence].
      apply validate_shape_spec. by rewrite E. }
    split; split; try done.
    intros [Hne H0]. destruct Hbad; done.
Qed.

Section TensorResize.
Context {F : Type} {SF : Scalar F}.
Implicit Types (t : Tensor F).

Lemma resize_inv t t' :
  resize t = Ok t' →
  ∃ n, size t = Ok n ∧ (Z.of_nat n ≤ vector_max_size)%Z ∧
       t' = with_data t (list.resize n f0 (data t)).
Proof.
  unfold resize. intros (n & Hn & Hrest)%bind_eq_Ok.
  apply bind_eq_Ok in Hrest as (d & Hd & [= <-]). exists n. split; [done|].
  unfold vresize, vresize_within in Hd.
  destruct (Z.leb_spec (Z.of_nat n) vector_max_size); [|done].
  injection Hd as <-. done.
Qed.

Lemma resize_grad_inv t t' :
  resize_grad t = Ok t' →
  ∃ n, size t = Ok n ∧ (Z.of_nat n ≤ vector_max_size)%Z ∧
       t' = with_grad t (list.resize n f0 (grad t)).
Proof.
  unfold resize_grad. intros (n & Hn & Hrest)%bind_eq_Ok.
  apply bind_eq_Ok in Hrest as (d & Hd & [= <-]). exists n. split; [done|].
  unfold vresize, vresize_within in Hd.
  destruct (Z.leb_spec (Z.of_nat n) vector_max_size); [|done].
  injection Hd as <-. done.
Qed.

Lemma lookup_resize_default (n : nat) (v : list F) (i : nat) :
  i < n → list.resize n f0 v !! i = Some (default f0 (v !! i)).
Proof.
  intros Hi. destruct (v !! i) as [x|] eqn:E.
  - rewrite lookup_resize; [done | done | by apply lookup_lt_Some in E].
  - apply lookup_resize_new; [by apply lookup_ge_None | done].
Qed.
End TensorResize.

(** X2.  A successful [Tensor::resize] leaves [shape] and [grad] alone and
    makes [data] exactly [size()] long: an element the buffer already had keeps
    its value at its index, every new element is [0.0f].  Resizing again
    changes nothing. *)
Theorem X2_Tensor_resize (F : Type) (SF : Scalar F) (t t' : Tensor F) :
  resize t = Ok t' →
  shape t' = shape t ∧ grad t' = grad t ∧
  size t = Ok (length (data t')) ∧
  (∀ i, i < length (data t') → data t' !! i = Some (default f0 (data t !! i))) ∧
  resize t' = Ok t'.
Proof.
  intros (n & Hn & Hmax & ->)%resize_inv. simpl. rewrite length_resize.
  split; [done|]. split; [done|]. split; [done|]. split.
  - intros i Hi. by apply lookup_resize_default.
  - unfold resize.
    assert (size (with_data t (list.resize n f0 (data t))) = Ok n) as -> by exact Hn.
    rewrite bind_Ok, vresize_fits, bind_Ok by done. simpl.
    unfold with_data. simpl. by rewrite resize_idemp.
Qed.

Lemma X2_Tensor_resize_witness :
  ∃ t', resize (mkTensor [2; 2] [Binary32.of_Z 7] [Binary32.of_Z 1]) = Ok t' ∧
        data t' = [Binary32.of_Z 7; Binary32.of_Z 0; Binary32.of_Z 0; Binary32.of_Z 0] ∧
        grad t' = [Binary32.of_Z 1] ∧ resize t' = Ok t'.
Proof.
  eexists. split; [vm_compute; reflexivity|]. split; [reflexivity|].
  split; [reflexivity|].
  apply (X2_Tensor_resize spec_float Binary32.binary32
           (mkTensor [2; 2] [Binary32.of_Z 7] [Binary32.of_Z 1])).
  vm_compute. reflexivity.
Defined.

(** X3.  [resize_grad] followed by [zero_grad] gives a gradient buffer of
    [size()] zeros whatever it held before, and touches neither [shape] nor
    [data]; [zero_grad] alone never allocates: on a tensor whose [grad] was
    never sized it changes nothing. *)
Theorem X3_Tensor_zero_grad (F : Type) (SF : Scalar F) (t : Tensor F) :
  (∀ t', resize_grad t = Ok t' →
     ∃ n, size t = Ok n ∧ zero_grad t' = mkTensor (shape t) (data t) (replicate n f0)) ∧
  (grad t = [] → zero_grad t = t) ∧
  length (grad (zero_grad t)) = length (grad t) ∧
  zero_grad (zero_grad t) = zero_grad t.
Proof.
  split; [|split; [|split]].
  - intros t' (n & Hn & _ & ->)%resize_grad_inv. exists n. split; [done|].
    unfold zero_grad, vfill. simpl. by rewrite length_resize.
  - intros Hg. destruct t as [s d g]. simpl in Hg. subst g. reflexivity.
  - apply length_vfill.
  - unfold zero_grad, vfill. simpl. by rewrite length_replicate.
Qed.

(** ** Linear *)

Section LinearNew.
Context {F : Type} {SF : Scalar F}.

Lemma resize_invalid (t : Tensor F) :
  shape t = [] ∨ 0 ∈ shape t → resize t = Err InvalidShape.
Proof.
  intros Hbad. unfold resize. by rewrite size_invalid by (by apply validate_shape_false).
Qed.

Lemma resize_grad_invalid (t : Tensor F) :
  shape t = [] ∨ 0 ∈ shape t → resize_grad t = Err InvalidShape.
Proof.
  intros Hbad. unfold resize_grad.
  by rewrite size_invalid by (by apply validate_shape_false).
Qed.

(** A shape that asks for more elements than a [std::vector<float>] can
    hold: [data.resize] throws. *)
Lemma resize_too_long (t : Tensor F) :
  shape t ≠ [] → Forall (λ d, 0 < d) (shape t) →
  (vector_max_size < Z.of_nat (numel (shape t)) ≤ SIZE_MAX)%Z →
  resize t = Err length_error.
Proof.
  intros Hne Hs [Hgt Hmax]. unfold resize.
  rewrite size_numel by done. by rewrite bind_Ok, vresize_too_long.
Qed.

End LinearNew.


(** ** Activations, forward *)

Section ActivationForward.
Context {F : Type} {SF : Scalar F}.

(** What one [forward] of an activation layer does: it throws on an input
    whose shape is empty or holds a zero; otherwise it gives [output] the
    shape of [input], sizes [output.data] by that shape, leaves [output.grad]
    alone and writes [act (input.data[i])] at every index of [input.data].
    Where [input.data] is shorter than its shape says, the cells past it keep
    what [output.data] held there ([0.0f] if the buffer had to grow). *)
Definition forward_elementwise (forward : Tensor F → Tensor F → result (Tensor F))
    (act : F → F) : Prop :=
  ∀ (input output : Tensor F),
    (shape input = [] ∨ 0 ∈ shape input → forward input output = Err InvalidShape) ∧
    (shape input ≠ [] → 0 ∉ shape input →
     (Z.of_nat (numel (shape input)) ≤ vector_max_size)%Z →
     length (data input) ≤ numel (shape input) →
     ∃ out,
       forward input output = Ok out ∧
       shape out = shape input ∧ grad out = grad output ∧
       length (data out) = numel (shape input) ∧
       (∀ i, i < length (data input) → data out !! i = Some (act (data input !!! i))) ∧
       (∀ i, length (data input) ≤ i → i < numel (shape input) →
          data out !! i = Some (default f0 (data output !! i)))).

Lemma positive_dims (s : list nat) : 0 ∉ s → Forall (λ d, 0 < d) s.
Proof.
  intros H0. apply Forall_forall. intros d Hd. destruct d; [done | lia].
Qed.

Lemma elementwise_forward (act : F → F) (body : Tensor F → nat → list F → result (list F)) :
  (∀ input i d, i < length (data input) → i < length d →
     body input i d = Ok (<[i := act (data input !!! i)]> d)) →
  forward_elementwise
    (λ input output,
       output ← resize (with_shape output (shape input));
       d ← for_range (length (data input)) (body input) (data output);
       Ok (with_data output d))
    act.
Proof.
  intros Hbody input output. split.
  - intros Hbad. by rewrite resize_invalid.
  - intros Hne H0 Hmax Hlen.
    rewrite resize_numel; simpl shape; [| done | by apply positive_dims | done].
    rewrite bind_Ok. simpl data.
    destruct (for_range_elementwise (λ i, act (data input !!! i))
                (length (data input)) (body input)
                (list.resize (numel (shape input)) f0 (data output)))
      as (d & Hrun & Hld & Hval & Hrest).
    + by rewrite length_resize.
    + intros i d' Hi Hd'. apply Hbody; [done|]. rewrite Hd', length_resize. lia.
    + rewrite Hrun, bind_Ok. eexists. split; [done|]. simpl.
      rewrite length_resize in Hld.
      split; [done|]. split; [done|]. split; [done|]. split; [done|].
      intros i Hi Hn. rewrite Hrest by done. by apply lookup_resize_default.
Qed.

Lemma ReLU_forward_spec : forward_elementwise ReLU_forward relu.
Proof.
  apply (elementwise_forward relu
           (λ input i d, x ← vget (data input) i; vset d i (relu x))).
  intros input i d Hi Hd.
  rewrite (vget_total (data input)), bind_Ok by done. by apply vset_within.
Qed.

Lemma Sigmoid_forward_spec :
  forward_elementwise Sigmoid_forward (λ x, fdiv f1 (fadd f1 (fexp (fneg x)))).
Proof.
  apply (elementwise_forward (λ x, fdiv f1 (fadd f1 (fexp (fneg x))))
           (λ input i d,
              x ← vget (data input) i; vset d i (fdiv f1 (fadd f1 (fexp (fneg x)))))).
  intros input i d Hi Hd.
  rewrite (vget_total (data input)), bind_Ok by done. by apply vset_within.
Qed.

Lemma Tanh_forward_spec : forward_elementwise Tanh_forward ftanh.
Proof.
  apply (elementwise_forward ftanh
           (λ input i d, x ← vget (data input) i; vset d i (ftanh x))).
  intros input i d Hi Hd.
  rewrite (vget_total (data input)), bind_Ok by done. by apply vset_within.
Qed.
End ActivationForward.

(** X5.  [forward] of ReLU, Sigmoid and Tanh throws
    [invalid_argument("Invalid tensor shape")] on an input whose shape is
    empty or holds a zero.  Otherwise [output] takes the shape of [input],
    [output.data] is sized by it, [output.grad] is left alone, and index [i]
    of [input.data] receives [max(0, x)], [1 / (1 + exp(-x))] and [tanh(x)]
    of [x = input.data[i]]; cells past the end of a short [input.data] keep
    the former content of [output.data]. *)
Theorem X5_activation_forward (F : Type) (SF : Scalar F) :
  forward_elementwise ReLU_forward (λ x, if flt f0 x then x else f0) ∧
  forward_elementwise Sigmoid_forward (λ x, fdiv f1 (fadd f1 (fexp (fneg x)))) ∧
  forward_elementwise Tanh_forward ftanh.
Proof.
  split; [apply ReLU_forward_spec|]. split; [apply Sigmoid_forward_spec|].
  apply Tanh_forward_spec.
Qed.

Lemma X5_activation_forward_witness :
  let input := mkTensor [3] [Binary32.of_Z 2; Binary32.of_Z (-3); S754_nan] [] in
  ∃ out,
    ReLU_forward (SF := Binary32.binary32) input Tensor_empty = Ok out ∧
    shape out = [3] ∧
    data out !! 0 = Some (Binary32.of_Z 2) ∧
    data out !! 1 = Some (S754_zero false) ∧
    data out !! 2 = Some (S754_zero false).
Proof.
  intros input.
  destruct (proj2 (proj1 (X5_activation_forward spec_float Binary32.binary32)
                     input Tensor_empty))
    as (out & Hrun & Hs & _ & _ & Hval & _);
    [done | by repeat (apply not_elem_of_cons; split; [done|]); apply not_elem_of_nil
    | vm_compute; discriminate | simpl; lia |].
  exists out. split; [exact Hrun|]. split; [exact Hs|].
  split; [apply (Hval 0); simpl; lia|]. split; [apply (Hval 1); simpl; lia|].
  apply (Hval 2); simpl; lia.
Defined.

Section ReLUFacts.
Context {F : Type} {SF : Scalar F}.

Lemma relu_idemp (x : F) : relu (relu x) = relu x.
Proof.
  unfold relu. destruct (flt f0 x) eqn:E; [by rewrite E|].
  by destruct (flt f0 f0).
Qed.

Lemma list_eq_lookup_some (d1 d2 : list F) (n : nat) (val : nat → F) :
  length d1 = n → length d2 = n →
  (∀ i, i < n → d1 !! i = Some (val i)) →
  (∀ i, i < n → d2 !! i = Some (val i)) →
  d1 = d2.
Proof.
  intros H1 H2 V1 V2. apply list_eq. intros i.
  destruct (decide (i < n)) as [Hi|Hi].
  - by rewrite V1, V2.
  - rewrite !lookup_ge_None_2 by lia. done.
Qed.
End ReLUFacts.

(** X6.  [ReLU::forward] is idempotent: run on its own output, for an input
    whose data fills its shape, it returns the same shape and the same data
    again, in any arithmetic. *)
Theorem X6_ReLU_forward_idempotent (F : Type) (SF : Scalar F)
    (input output output' out : Tensor F) :
  (Z.of_nat (numel (shape input)) ≤ vector_max_size)%Z →
  length (data input) = numel (shape input) →
  ReLU_forward input output = Ok out →
  ∃ out', ReLU_forward out output' = Ok out' ∧
          shape out' = shape out ∧ data out' = data out.
Proof.
  intros Hmax Hlen Hrun.
  destruct (ReLU_forward_spec input output) as [Hbad Hgood].
  destruct (decide (shape input = [])) as [He|Hne];
    [rewrite Hbad in Hrun by (by left); done|].
  destruct (decide (0 ∈ shape input)) as [Hz|H0];
    [rewrite Hbad in Hrun by (by right); done|].
  destruct (Hgood Hne H0 Hmax) as (out1 & Hrun1 & Hs1 & _ & Hl1 & Hv1 & _); [lia|].
  rewrite Hrun in Hrun1. injection Hrun1 as <-.
  destruct (proj2 (ReLU_forward_spec out output'))
    as (out' & Hrun' & Hs' & _ & Hl' & Hv' & _); rewrite ?Hs1, ?Hl1; try done.
  exists out'. split; [exact Hrun'|]. split; [by rewrite Hs'|].
  apply (list_eq_lookup_some _ _ (numel (shape input)) (λ i, relu (data input !!! i)));
    [by rewrite Hl', Hs1 | done | |].
  - intros i Hi. rewrite Hv' by lia.
    rewrite (list_lookup_total_correct _ _ (relu (data input !!! i)))
      by (apply Hv1; lia).
    by rewrite relu_idemp.
  - intros i Hi. apply Hv1. lia.
Qed.

Lemma X6_ReLU_forward_idempotent_witness :
  let input := mkTensor [3] [Binary32.of_Z 2; Binary32.of_Z (-3); S754_nan] [] in
  ∃ out out',
    ReLU_forward (SF := Binary32.binary32) input Tensor_empty = Ok out ∧
    ReLU_forward (SF := Binary32.binary32) out Tensor_empty = Ok out' ∧
    shape out' = shape out ∧ data out' = data out.
Proof.
  intros input. eexists.
  assert (ReLU_forward (SF := Binary32.binary32) input Tensor_empty
          = Ok (mkTensor [3] [Binary32.of_Z 2; S754_zero false; S754_zero false] []))
    as Hrun by (vm_compute; reflexivity).
  destruct (X6_ReLU_forward_idempotent spec_float Binary32.binary32
              input Tensor_empty Tensor_empty _ ltac:(vm_compute; discriminate)
              eq_refl Hrun) as (out' & Hrun' & Hs & Hd).
  exists out'. split; [exact Hrun|]. split; [exact Hrun'|]. split; [exact Hs | exact Hd].
Defined.

(** X7.  In binary32 [std::max(0.0f, x)], as [ReLU::forward] calls it, never
    returns a NaN and never a value below zero: it returns [x] when [0 < x]
    and [+0.0f] otherwise, so that a NaN input, a negative input and [-0.0f]
    all give [+0.0f]. *)
Theorem X7_relu_binary32 (libm_exp libm_tanh : spec_float → spec_float) (x : spec_float) :
  Binary32.is_nan (relu (SF := Binary32.scalar libm_exp libm_tanh) x) = false ∧
  SFltb (relu (SF := Binary32.scalar libm_exp libm_tanh) x) (S754_zero false) = false ∧
  relu (SF := Binary32.scalar libm_exp libm_tanh) S754_nan = S754_zero false ∧
  relu (SF := Binary32.scalar libm_exp libm_tanh) (S754_zero true) = S754_zero false ∧
  (SFltb x (S754_zero false) = true →
   relu (SF := Binary32.scalar libm_exp libm_tanh) x = S754_zero false).
Proof.
  unfold relu. simpl.
  split; [|split; [|split; [|split]]]; try reflexivity.
  - destruct x as [s|s| |s m e]; try destruct s; reflexivity.
  - destruct x as [s|s| |s m e]; try destruct s; reflexivity.
  - destruct x as [s|s| |s m e]; try destruct s; try reflexivity; discriminate.
Qed.

(** ** Sigmoid and Tanh at saturation *)

Section Saturation.
Import Binary32.

(** A zero of either sign, or NaN. *)
Definition zero_or_nan (x : spec_float) : bool := is_zero x || is_nan x.

Lemma mul_by_zero (x z : spec_float) :
  is_zero z = true → zero_or_nan (SFmul prec emax x z) = true.
Proof. destruct z; try discriminate. intros _. by destruct x. Qed.

Lemma zero_or_nan_mul_one (v : spec_float) :
  zero_or_nan v = true → zero_or_nan (SFmul prec emax v (of_Z 1)) = true.
Proof. by destruct v. Qed.

Lemma one_minus_zero (z : spec_float) :
  is_zero z = true → SFsub prec emax (of_Z 1) z = of_Z 1.
Proof. by destruct z. Qed.

(** What [backward] writes where the forward output is [saturated]: for a
    well-formed call it succeeds, and at every such index [input.grad]
    receives a zero or NaN, whatever the upstream gradient. *)
Definition no_gradient_where
    (backward : Tensor spec_float → Tensor spec_float → result (Tensor spec_float))
    (saturated : spec_float → Prop) : Prop :=
  ∀ (output input : Tensor spec_float),
    shape input ≠ [] → 0 ∉ shape input →
    (Z.of_nat (numel (shape input)) ≤ vector_max_size)%Z →
    length (data output) ≤ numel (shape input) →
    length (data output) ≤ length (grad output) →
    ∃ input',
      backward output input = Ok input' ∧
      ∀ i s, data output !! i = Some s → saturated s →
        ∃ g, grad input' !! i = Some g ∧ zero_or_nan g = true.

Lemma backward_no_gradient
    (SF : Scalar spec_float)
    (backward : Tensor spec_float → Tensor spec_float → result (Tensor spec_float))
    (derivative : spec_float → spec_float → spec_float) (saturated : spec_float → Prop) :
  backward_from_output backward derivative →
  (∀ s dy, saturated s → zero_or_nan (derivative s dy) = true) →
  no_gradient_where backward saturated.
Proof.
  intros Hbw Hsat output input Hne H0 Hmax Hlo Hlg.
  destruct (Hbw output input Hne (positive_dims _ H0) Hmax Hlo Hlg)
    as (input' & Hrun & _ & _ & _ & Hval).
  exists input'. split; [exact Hrun|]. intros i s Hs Hsats.
  eexists. split; [apply Hval; by apply lookup_lt_Some in Hs|].
  rewrite (list_lookup_total_correct _ _ _ Hs). by apply Hsat.
Qed.
End Saturation.

(** X8.  In binary32 a saturated unit passes no gradient.  Where the forward
    output of Sigmoid is exactly [1.0f] or a zero, and where the forward
    output of Tanh is exactly [1.0f] or [-1.0f], the factors [s * (1 - s)]
    and [1 - t * t] are zero, and [backward] writes a zero (or NaN, for an
    infinite or NaN upstream gradient) into [input.grad] whatever the
    upstream gradient is. *)
Theorem X8_saturated_gradient (libm_exp libm_tanh : spec_float → spec_float) :
  no_gradient_where (Sigmoid_backward (SF := Binary32.scalar libm_exp libm_tanh))
    (λ s, s = Binary32.of_Z 1 ∨ Binary32.is_zero s = true) ∧
  no_gradient_where (Tanh_backward (SF := Binary32.scalar libm_exp libm_tanh))
    (λ t, t = Binary32.of_Z 1 ∨ t = Binary32.of_Z (-1)).
Proof.
  split.
  - apply (backward_no_gradient (Binary32.scalar libm_exp libm_tanh) _ Sigmoid_grad).
    + exact (Sigmoid_backward_spec (SF := Binary32.scalar libm_exp libm_tanh)).
    + intros s dy Hs.
      change (zero_or_nan
                (SFmul Binary32.prec Binary32.emax (SFmul Binary32.prec Binary32.emax dy s)
                   (SFsub Binary32.prec Binary32.emax (Binary32.of_Z 1) s)) = true).
      destruct Hs as [-> | Hz].
      * by apply mul_by_zero.
      * rewrite one_minus_zero by done.
        by apply zero_or_nan_mul_one, mul_by_zero.
  - apply (backward_no_gradient (Binary32.scalar libm_exp libm_tanh) _ Tanh_grad).
    + exact (Tanh_backward_spec (SF := Binary32.scalar libm_exp libm_tanh)).
    + intros t dy Ht.
      change (zero_or_nan
                (SFmul Binary32.prec Binary32.emax dy
                   (SFsub Binary32.prec Binary32.emax (Binary32.of_Z 1)
                      (SFmul Binary32.prec Binary32.emax t t))) = true).
      destruct Ht as [-> | ->]; by apply mul_by_zero.
Qed.

(** X8 on a Sigmoid output [[1, 0.5, 0]] with upstream gradient [[5, 6, 7]]:
    the first and the last unit pass nothing. *)
Lemma X8_saturated_gradient_witness :
  let output := mkTensor [3] [Binary32.of_Z 1; Binary32.decimal 5 1; Binary32.of_Z 0]
                  (Binary32.of_Z <$> [5; 6; 7]%Z) in
  ∃ input',
    Sigmoid_backward (SF := Binary32.binary32) output (mkTensor [3] [] []) = Ok input' ∧
    (∃ g, grad input' !! 0 = Some g ∧ zero_or_nan g = true) ∧
    (∃ g, grad input' !! 2 = Some g ∧ zero_or_nan g = true).
Proof.
  intros output.
  destruct (proj1 (X8_saturated_gradient Binary32.no_libm Binary32.no_libm)
              output (mkTensor [3] [] []))
    as (input' & Hrun & Hsat);
    [done | by apply (bool_decide_unpack _) | vm_compute; discriminate
    | simpl; lia | simpl; lia |].
  exists input'. split; [exact Hrun|]. split.
  - apply (Hsat 0 (Binary32.of_Z 1)); [reflexivity | by left].
  - apply (Hsat 2 (Binary32.of_Z 0)); [reflexivity | by right].
Defined.


(** ** mse_loss in binary32 *)

Section Binary32Mse.
Import Binary32.

(** [std::signbit(x)] of a float that is not NaN. *)
Definition minus_sign (x : spec_float) : bool :=
  match x with
  | S754_zero s | S754_infinity s | S754_finite s _ _ => s
  | S754_nan => false
  end.

(** Rounding treats the two signs alike. *)
Lemma binary_round_aux_opp (mx ex : Z) (lx : location) :
  binary_round_aux prec emax true mx ex lx
  = SFopp (binary_round_aux prec emax false mx ex lx).
Proof.
  unfold binary_round_aux.
  destruct (shr_fexp prec emax mx ex lx) as [mrs' e'].
  destruct (shr_fexp prec emax _ e' loc_Exact) as [mrs'' e''].
  destruct (shr_m mrs''); [done | | done].
  by destruct (e'' <=? emax - prec)%Z.
Qed.

Lemma binary_round_opp (m : positive) (e : Z) :
  binary_round prec emax true m e = SFopp (binary_round prec emax false m e).
Proof.
  unfold binary_round. destruct (shl_align m e _) as [mz ez].
  apply binary_round_aux_opp.
Qed.

Lemma binary_round_aux_sign (mx ex : Z) (lx : location) :
  minus_sign (binary_round_aux prec emax false mx ex lx) = false.
Proof.
  unfold binary_round_aux.
  destruct (shr_fexp prec emax mx ex lx) as [mrs' e'].
  destruct (shr_fexp prec emax _ e' loc_Exact) as [mrs'' e''].
  destruct (shr_m mrs''); [done | | done].
  by destruct (e'' <=? emax - prec)%Z.
Qed.

Lemma binary_round_sign (m : positive) (e : Z) :
  minus_sign (binary_round prec emax false m e) = false.
Proof.
  unfold binary_round. destruct (shl_align m e _) as [mz ez].
  apply binary_round_aux_sign.
Qed.

(** A square carries no minus sign, and is the same for [d] and [-d]. *)
Lemma square_sign (d : spec_float) : minus_sign (SFmul prec emax d d) = false.
Proof.
  destruct d as [s|s| |s m e]; simpl; [by destruct s | by destruct s | done |].
  replace (xorb s s) with false by (by destruct s). apply binary_round_aux_sign.
Qed.

Lemma square_opp (d : spec_float) :
  SFmul prec emax (SFopp d) (SFopp d) = SFmul prec emax d d.
Proof. destruct d as [s|s| |s m e]; simpl; try done; by destruct s. Qed.

(** [t - p] is [-(p - t)], except that an exact cancellation gives [+0] in
    both orders. *)
Lemma sub_swap (p t : spec_float) :
  SFsub prec emax t p = SFopp (SFsub prec emax p t) ∨
  SFsub prec emax t p = SFsub prec emax p t.
Proof.
  destruct p as [sp|sp| |sp mp ep], t as [st|st| |st mt et];
    try (destruct sp, st; simpl; by auto);
    try (destruct sp; simpl; by auto);
    try (destruct st; simpl; by auto);
    try (simpl; by auto).
  unfold SFsub. rewrite (Z.min_comm et ep).
  set (ez := Z.min ep et).
  set (a := cond_Zopp sp (Z.pos (shl_align mp ep ez).1)).
  set (b := cond_Zopp st (Z.pos (shl_align mt et ez).1)).
  replace (b - a)%Z with (- (a - b))%Z by lia.
  destruct (a - b)%Z as [|z|z]; simpl.
  - by right.
  - left. apply binary_round_opp.
  - left. rewrite binary_round_opp. by destruct (binary_round prec emax false z ez) as [[]|[]| |[]].
Qed.

Lemma square_sub_swap (p t : spec_float) :
  SFmul prec emax (SFsub prec emax t p) (SFsub prec emax t p)
  = SFmul prec emax (SFsub prec emax p t) (SFsub prec emax p t).
Proof.
  destruct (sub_swap p t) as [-> | ->]; [apply square_opp | done].
Qed.

Lemma add_sign (x y : spec_float) :
  minus_sign x = false → minus_sign y = false →
  minus_sign (SFadd prec emax x y) = false.
Proof.
  destruct x as [sx|sx| |sx mx ex], y as [sy|sy| |sy my ey]; simpl;
    intros Hx Hy; subst; try done.
  apply binary_round_sign.
Qed.

Lemma div_sign (x y : spec_float) :
  minus_sign x = false → minus_sign y = false →
  minus_sign (SFdiv prec emax x y) = false.
Proof.
  destruct x as [sx|sx| |sx mx ex], y as [sy|sy| |sy my ey]; simpl;
    intros Hx Hy; subst; try done.
  destruct (SFdiv_core_binary _ _ _ _ _ _) as [[mz ez] lz].
  apply binary_round_aux_sign.
Qed.

Lemma of_size_sign (n : nat) : minus_sign (of_Z (Z.of_nat n)) = false.
Proof.
  unfold of_Z, binary_normalize. destruct (Z.of_nat n) eqn:E; [done | | lia].
  apply binary_round_sign.
Qed.

Variables libm_exp libm_tanh : spec_float → spec_float.

Lemma fsum_squares_sign (init : spec_float) (I : list nat) (d : nat → spec_float) :
  minus_sign init = false →
  minus_sign (fsum_over (SF := scalar libm_exp libm_tanh) init I
                (λ i, SFmul prec emax (d i) (d i))) = false.
Proof.
  revert init. induction I as [|i I IH]; intros init Hinit; [done|].
  simpl. apply IH. apply add_sign; [done | apply square_sign].
Qed.

Lemma mean_squared_error_swap (p t : list spec_float) :
  length p = length t →
  mean_squared_error (SF := scalar libm_exp libm_tanh) p t
  = mean_squared_error (SF := scalar libm_exp libm_tanh) t p.
Proof.
  intros Hlen. unfold mean_squared_error, fsum_from. rewrite Hlen. f_equal.
  apply fsum_over_ext. intros i _. apply square_sub_swap.
Qed.

Lemma mean_squared_error_sign (p t : list spec_float) :
  minus_sign (mean_squared_error (SF := scalar libm_exp libm_tanh) p t) = false.
Proof.
  unfold mean_squared_error, fsum_from.
  apply div_sign; [|apply of_size_sign].
  apply (fsum_squares_sign _ _ (λ i, SFsub prec emax (p !!! i) (t !!! i))). done.
Qed.
End Binary32Mse.

(** A loss of [+0] does not tell that the buffers are equal: the square of
    [2^-100 - 0] underflows. *)
Remark mse_loss_underflow :
  mse_loss (SF := Binary32.binary32)
    (mkTensor [1] [S754_finite false 8388608 (-123)] [])
    (mkTensor [1] [S754_zero false] [])
  = Ok (mkTensor [1] [S754_zero false] []).
Proof. vm_compute. reflexivity. Qed.

(** X9.  In binary32 [mse_loss] is symmetric: swapping its two arguments
    gives the same result, the same exception included (the payload of a
    NaN, which this arithmetic does not hold, aside).  What it returns is a
    tensor of shape [[1]] whose one element is NaN or carries no minus sign:
    [+0], a positive number or [+inf], never [-0] or a negative number.
    (It can be [+0] for two different buffers, see [mse_loss_underflow].) *)
Theorem X9_mse_loss_binary32 (libm_exp libm_tanh : spec_float → spec_float)
    (pred target : Tensor spec_float) :
  mse_loss (SF := Binary32.scalar libm_exp libm_tanh) pred target
  = mse_loss (SF := Binary32.scalar libm_exp libm_tanh) target pred ∧
  ∀ out,
    mse_loss (SF := Binary32.scalar libm_exp libm_tanh) pred target = Ok out →
    ∃ m, out = mkTensor [1] [m] [] ∧
         (Binary32.is_nan m = true ∨ minus_sign m = false).
Proof.
  destruct (decide (length (data pred) = length (data target))) as [Hlen|Hlen].
  - rewrite !mse_loss_value by done. split.
    + by rewrite mean_squared_error_swap.
    + intros out [= <-]. eexists. split; [done|].
      right. apply mean_squared_error_sign.
  - rewrite !mse_loss_mismatch by done. split; [done|]. intros out. discriminate.
Qed.


(** ** Model::backward *)

Section ModelBackward.
Context {F : Type} {SF : Scalar F}.

(** The backward sweep: the layers are taken last to first ([rls] is the
    list of layers reversed, [rslots] the activation slots reversed); the
    current tensor carries the upstream gradient, every layer but the first
    writes into the activation slot before it, which becomes the current
    tensor, and the first layer writes into the caller's [input]. *)
Fixpoint sweep_back (rls : list (Layer F)) (rslots : list (Tensor F))
    (current input : Tensor F) : result (list (Layer F) * list (Tensor F) * Tensor F) :=
  match rls with
  | [] => Ok ([], rslots, input)
  | [first] =>
      '(first, input) ← Layer_backward first current input;
      Ok ([first], rslots, input)
  | layer :: rest =>
      match rslots with
      | [] => Err Undefined
      | slot :: rslots =>
          '(layer, slot) ← Layer_backward layer current slot;
          '(rest, rslots, input) ← sweep_back rest rslots slot input;
          Ok (layer :: rest, slot :: rslots, input)
      end
  end.

Lemma sweep_back_lengths rls rslots current input rls' rslots' input' :
  sweep_back rls rslots current input = Ok (rls', rslots', input') →
  length rls' = length rls ∧ length rslots' = length rslots.
Proof.
  revert rslots current rls' rslots' input'.
  induction rls as [|layer rest IH]; intros rslots current rls' rslots' input' Hrun.
  - by injection Hrun as <- <- <-.
  - simpl in Hrun. destruct rest as [|layer2 rest].
    + apply bind_eq_Ok in Hrun as ([first inp] & _ & Hrun). by injection Hrun as <- <- <-.
    + destruct rslots as [|slot rslots]; [done|].
      apply bind_eq_Ok in Hrun as ([layer' slot'] & _ & Hrun).
      apply bind_eq_Ok in Hrun as ([[rest' rslots''] inp] & Hrest & Hrun).
      injection Hrun as <- <- <-. apply IH in Hrest as [Hl Hs]. simpl in *. lia.
Qed.

(** The body of the loop of [Model::backward]. *)
Definition backward_round (i : nat)
    (s : list (Layer F) * tensors F * const_tensor_ptr)
    : result (list (Layer F) * tensors F * const_tensor_ptr) :=
  let '(ls, ts, current) := s in
  let prev := if 0 <? i then to_activation (i - 1) else to_argument in
  layer ← vget ls i;
  src ← load_const ts current;
  dst ← load ts prev;
  '(layer, dst) ← Layer_backward layer src dst;
  ls ← vset ls i layer;
  ts ← store ts prev dst;
  Ok (ls, ts, to_mutable prev).

Lemma for_down_S {S} (body : nat → S → result S) (n : nat) (s : S) :
  for_down (Datatypes.S n) body s = body n s ≫= for_down n body.
Proof. reflexivity. Qed.

(** The loop of [Model::backward] from round [length front - 1] down. *)
Lemma backward_loop_sweep (front : list (Layer F)) :
  ∀ (done : list (Layer F)) (sfront sdone : list (Tensor F))
    (output input current : Tensor F) (ptr : const_tensor_ptr),
    length sfront = length front - 1 →
    load_const (mkTensors output input (sfront ++ sdone)) ptr = Ok current →
    ('(ls, ts, _) ← for_down (length front) backward_round
        (front ++ done, mkTensors output input (sfront ++ sdone), ptr);
     Ok (mkModel ls (cache ts), argument ts))
    = ('(rfront, rslots, input') ←
         sweep_back (reverse front) (reverse sfront) current input;
       Ok (mkModel (reverse rfront ++ done) (reverse rslots ++ sdone), input')).
Proof.
  induction front as [|layer front' IH] using rev_ind;
    intros done sfront sdone output input current ptr Hs Hcur.
  - simpl in Hs. destruct sfront; [|done]. reflexivity.
  - rewrite length_app in *. simpl length in *. rewrite Nat.add_1_r in *.
    rewrite reverse_snoc. rewrite for_down_S. unfold backward_round at 2.
    rewrite (vget_lookup _ _ layer)
      by (rewrite <- app_assoc; by rewrite lookup_app_r, Nat.sub_diag by lia).
    rewrite bind_Ok, Hcur, bind_Ok.
    destruct front' as [|layer0 front0] using rev_ind.
    + (* the first layer *)
      clear IH. simpl in Hs. destruct sfront; [|done]. simpl.
      destruct (Layer_backward layer current input) as [[layer' input']|e]; [|done].
      rewrite !bind_Ok. reflexivity.
    + (* a later layer *)
      clear IHfront0.
      rewrite length_app in *. simpl length in *. rewrite Nat.add_1_r in *.
      destruct sfront as [|slot sfront0] using rev_ind; [simpl in Hs; lia|].
      clear IHsfront0. rewrite length_app in Hs. simpl in Hs.
      assert (length sfront0 = length front0) as Hs0 by lia.
      change (0 <? S (length front0)) with true. cbv iota.
      replace (S (length front0) - 1) with (length front0) by lia.
      simpl load.
      rewrite (vget_lookup _ _ slot)
        by (rewrite <- app_assoc; by rewrite lookup_app_r, Hs0, Nat.sub_diag by lia).
      rewrite bind_Ok. rewrite !reverse_snoc.
      change (sweep_back (layer :: layer0 :: reverse front0) (slot :: reverse sfront0)
                current input)
        with ('(layer, slot) ← Layer_backward layer current slot;
              '(rest, rslots, input) ←
                sweep_back (layer0 :: reverse front0) (reverse sfront0) slot input;
              Ok (layer :: rest, slot :: rslots, input)).
      destruct (Layer_backward layer current slot) as [[layer' slot']|e]; [|done].
      rewrite !bind_Ok.
      rewrite vset_within
        by (rewrite !length_app; simpl; lia).
      rewrite bind_Ok. simpl store.
      rewrite vset_within by (rewrite !length_app; simpl; lia).
      rewrite !bind_Ok.
      replace (<[S (length front0) := layer']> (((front0 ++ [layer0]) ++ [layer]) ++ done))
        with ((front0 ++ [layer0]) ++ layer' :: done).
      2:{ rewrite <- (app_assoc _ [layer] done). simpl.
          replace (S (length front0)) with (length (front0 ++ [layer0]))
            by (rewrite length_app; simpl; lia).
          by rewrite insert_app_length. }
      replace (<[length front0 := slot']> ((sfront0 ++ [slot]) ++ sdone))
        with (sfront0 ++ slot' :: sdone).
      2:{ rewrite <- (app_assoc _ [slot] sdone). simpl.
          rewrite <- Hs0. by rewrite insert_app_length. }
      pose proof (IH (layer' :: done) sfront0 (slot' :: sdone) output input slot'
                    (to_mutable (to_activation (length front0)))) as IH'.
      rewrite reverse_snoc in IH'.
      etrans; [apply IH'|].
      * lia.
      * simpl. apply vget_lookup. by rewrite lookup_app_r, Hs0, Nat.sub_diag by lia.
      * destruct (sweep_back (layer0 :: reverse front0) (reverse sfront0) slot' input)
          as [[[r s] o]|e]; [|done].
        rewrite !bind_Ok. rewrite !reverse_cons, <- !app_assoc. reflexivity.
Qed.
End ModelBackward.

Section ModelBackwardSweep.
Context {F : Type} {SF : Scalar F}.

Lemma int_of_size_small (n : nat) : (Z.of_nat n < 2 ^ 31)%Z → int_of_size n = Z.of_nat n.
Proof.
  intros Hn. unfold int_of_size. rewrite Z.mod_small by lia.
  by rewrite (proj2 (Z.ltb_lt _ _) Hn).
Qed.

Lemma Model_backward_sweep (m : Model F) (output input : Tensor F) :
  layers m ≠ [] →
  length (activations m) = length (layers m) - 1 →
  (Z.of_nat (length (layers m)) ≤ 2 ^ 31)%Z →
  Model_backward m output input
  = ('(rls, rslots, input') ←
       sweep_back (reverse (layers m)) (reverse (activations m)) output input;
     Ok (mkModel (reverse rls) (reverse rslots), input')).
Proof.
  intros Hne Hlen Hmax. unfold Model_backward.
  assert (0 < length (layers m)) as Hpos by (destruct (layers m); [done | simpl; lia]).
  replace (Z.of_nat (length (layers m)) - 1)%Z with (Z.of_nat (length (layers m) - 1))
    by lia.
  rewrite wrap64_small by (unfold SIZE_MAX; lia).
  rewrite Hlen, Nat.eqb_refl. simpl negb. cbv iota zeta.
  rewrite int_of_size_small by lia.
  replace (Z.to_nat (Z.of_nat (length (layers m) - 1) + 1)) with (length (layers m))
    by lia.
  pose proof (backward_loop_sweep (layers m) [] (activations m) [] output input output
                to_const_argument Hlen eq_refl) as Hloop.
  rewrite !app_nil_r in Hloop.
  etrans; [exact Hloop|].
  apply bind_ext; [|done]. intros [[rls rslots] input']. by rewrite !app_nil_r.
Qed.
End ModelBackwardSweep.

(** X10.  [Model::backward], on a model with at least one layer whose
    activation cache holds [layer_count - 1] tensors, is the backward sweep:
    the upstream gradient goes through the layers from the last to the first,
    every layer but the first writing into the activation slot before it and
    the first one into the caller's [input]; the numbers of layers and of
    activation slots are kept. *)
Theorem X10_Model_backward_sweep (F : Type) (SF : Scalar F)
    (m : Model F) (output input : Tensor F) :
  layers m ≠ [] →
  length (activations m) = length (layers m) - 1 →
  (Z.of_nat (length (layers m)) ≤ 2 ^ 31)%Z →
  Model_backward m output input
  = ('(rls, rslots, input') ←
       sweep_back (reverse (layers m)) (reverse (activations m)) output input;
     Ok (mkModel (reverse rls) (reverse rslots), input')) ∧
  ∀ m' input',
    Model_backward m output input = Ok (m', input') →
    length (layers m') = length (layers m) ∧
    length (activations m') = length (activations m).
Proof.
  intros Hne Hlen Hmax.
  pose proof (Model_backward_sweep m output input Hne Hlen Hmax) as Heq.
  split; [done|]. intros m' input' Hrun. rewrite Heq in Hrun.
  apply bind_eq_Ok in Hrun as ([[rls rslots] inp] & Hsweep & Hrun).
  injection Hrun as <- <-. apply sweep_back_lengths in Hsweep as [Hl Hs].
  simpl. by rewrite !length_reverse in *.
Qed.

(** X10 on the three-layer model of the test, after its forward pass, with a
    unit upstream gradient. *)
Lemma X10_Model_backward_sweep_witness :
  ∃ m' out m'' input',
    Model_forward Reference_model32 Reference.input32 Tensor_empty = Ok (m', out) ∧
    Model_backward m' (with_grad out [Binary32.of_Z 1; Binary32.of_Z 1]) Reference.input32
    = Ok (m'', input') ∧
    length (grad input') = 6 ∧ length (activations m'') = 2 ∧
    data input' = data Reference.input32.
Proof.
  eexists _, _, _, _. split; [vm_compute; reflexivity|].
  split; [|split; [|split]].
  - match goal with
    | |- Model_backward ?m ?o ?i = _ =>
        rewrite (proj1 (X10_Model_backward_sweep spec_float Binary32.binary32 m o i
                          ltac:(discriminate) eq_refl ltac:(vm_compute; discriminate)))
    end.
    vm_compute. reflexivity.
  - reflexivity.
  - reflexivity.
  - reflexivity.
Defined.

(** A [forward] that returned has sized the activation cache: the model holds
    no more layers than [activations.resize] accepts. *)
Lemma Model_forward_fits {F : Type} {SF : Scalar F}
    (m : Model F) (input output : Tensor F) (r : Model F * Tensor F) :
  layers m ≠ [] → (Z.of_nat (length (layers m)) ≤ SIZE_MAX)%Z →
  Model_forward m input output = Ok r →
  (Z.of_nat (length (layers m)) - 1 ≤ tensors_max_size)%Z.
Proof.
  intros Hne Hmax.
  assert (0 < length (layers m)) as Hpos by (destruct (layers m); [done | simpl; lia]).
  assert (wrap64 (Z.of_nat (length (layers m)) - 1) = length (layers m) - 1) as Hw.
  { replace (Z.of_nat (length (layers m)) - 1)%Z
      with (Z.of_nat (length (layers m) - 1)) by lia.
    apply wrap64_small. lia. }
  destruct (Z.le_gt_cases (Z.of_nat (length (layers m)) - 1) tensors_max_size)
    as [Hle|Hgt]; [done|].
  unfold Model_forward. rewrite Hw.
  rewrite (vresize_within_too_long tensors_max_size Tensor_empty
             (length (layers m) - 1) (activations m)) by lia.
  discriminate.
Qed.

(** X11.  [Model::backward] throws
    [runtime_error("Forward pass must be called before backward pass")], and
    runs no layer, whenever the activation cache does not hold
    [layer_count - 1] tensors: on a model that never ran [forward] and has no
    layer or at least two, and on a model that was given another layer after
    its last forward pass. *)
Theorem X11_Model_backward_guard (F : Type) (SF : Scalar F) :
  (∀ (ls : list (Layer F)) (output input : Tensor F),
     length ls ≠ 1 → (Z.of_nat (length ls) ≤ SIZE_MAX)%Z →
     Model_backward (mkModel ls []) output input = Err IllegalState) ∧
  (∀ (m m' : Model F) (layer : Layer F) (input output out grad_output grad_input : Tensor F),
     layers m ≠ [] → (Z.of_nat (length (layers m)) ≤ vector_max_size)%Z →
     Model_forward m input output = Ok (m', out) →
     Model_backward (add_layer m' layer) grad_output grad_input = Err IllegalState).
Proof.
  split; [apply @Model_backward_guard|].
  intros m m' layer input output out grad_output grad_input Hne Hmax Hrun.
  pose proof (Model_forward_fits m input output _ Hne
                ltac:(unfold vector_max_size, SIZE_MAX in *; lia) Hrun) as Hfits.
  rewrite Model_forward_stream in Hrun by done.
  apply bind_eq_Ok in Hrun as ([[ls slots] o] & Hstream & Hrun).
  injection Hrun as <- <-. apply stream_lengths in Hstream as [Hl Hs].
  rewrite length_resize in Hs.
  assert (0 < length (layers m)) as Hpos by (destruct (layers m); [done | simpl; lia]).
  unfold Model_backward, add_layer. simpl layers. simpl activations.
  rewrite length_app. simpl length.
  replace (Z.of_nat (length ls + 1) - 1)%Z with (Z.of_nat (length ls)) by lia.
  rewrite wrap64_small by (unfold vector_max_size, SIZE_MAX in *; lia).
  rewrite (proj2 (Nat.eqb_neq _ _)) by lia. done.
Qed.

Lemma X11_Model_backward_guard_witness :
  Model_backward (add_layer (add_layer Model_new ReLU_layer) Sigmoid_layer)
    (mkTensor [1] [Binary32.of_Z 1] [Binary32.of_Z 1]) (mkTensor [1] [] [])
  = Err IllegalState ∧
  ∃ m' out,
    Model_forward Reference_model32 Reference.input32 Tensor_empty = Ok (m', out) ∧
    Model_backward (add_layer m' Tanh_layer) out Reference.input32 = Err IllegalState.
Proof.
  split.
  - apply (proj1 (X11_Model_backward_guard spec_float Binary32.binary32));
      [simpl; lia | vm_compute; discriminate].
  - eexists _, _. split; [vm_compute; reflexivity|].
    match goal with
    | |- Model_backward (add_layer ?m' _) ?out _ = _ =>
        apply (proj2 (X11_Model_backward_guard spec_float Binary32.binary32)
                 Reference_model32 m' Tanh_layer Reference.input32 Tensor_empty out)
    end; [discriminate | vm_compute; discriminate | vm_compute; reflexivity].
Defined.

(** ** BatchNorm: what [forward] and [backward] reject *)

Section BatchNormChecks.
Context {F : Type} {SF : Scalar F}.

Lemma size_invalid_dims (t : Tensor F) : 0 ∈ shape t → size t = Err InvalidShape.
Proof. intros H0. apply size_invalid, validate_shape_false. by right. Qed.

Lemma BatchNorm1d_forward_checks (l : BatchNorm F) (input output : Tensor F) :
  (length (shape input) ≠ 2 ∨ shape input !! 1 ≠ Some (num_features l) →
   BatchNorm1d_forward l input output = Err (invalid_argument Bn_input_shape)) ∧
  (∀ B, shape input = [B; num_features l] → B = 0 ∨ num_features l = 0 →
   BatchNorm1d_forward l input output = Err InvalidShape).
Proof.
  split.
  - intros Hbad. unfold BatchNorm1d_forward.
    destruct (Nat.eqb_spec (length (shape input)) 2) as [Hlen|Hlen]; [|done].
    destruct Hbad as [|Hnf]; [done|]. simpl negb. simpl orb.
    destruct (shape input) as [|a [|b [|c s]]]; try done. simpl in Hnf.
    change ([a; b] !!! 1) with b.
    destruct (Nat.eqb_spec b (num_features l)) as [->|]; [done | done].
  - intros B Hs Hzero. unfold BatchNorm1d_forward. rewrite Hs. simpl length.
    change ([B; num_features l] !!! 1) with (num_features l).
    rewrite !Nat.eqb_refl. simpl negb. simpl orb. cbv iota.
    change (vget [B; num_features l] 0) with (Ok (A:=nat) B). rewrite bind_Ok.
    rewrite resize_invalid; [done|].
    right. simpl. destruct Hzero as [-> | ->]; [by left|]. by right; left.
Qed.

Lemma BatchNorm2d_forward_checks (l : BatchNorm F) (input output : Tensor F) :
  (length (shape input) ≠ 4 →
   BatchNorm2d_forward l input output = Err (invalid_argument Bn_input_shape)) ∧
  (length (shape input) = 4 → shape input !! 1 ≠ Some (num_features l) →
   BatchNorm2d_forward l input output = Err (invalid_argument Bn_channels)) ∧
  (length (shape input) = 4 → shape input !! 1 = Some (num_features l) →
   0 ∈ shape input →
   BatchNorm2d_forward l input output = Err InvalidShape) ∧
  (length (shape input) = 4 → shape input !! 1 = Some (num_features l) →
   0 ∉ shape input → (Z.of_nat (numel (shape input)) ≤ SIZE_MAX)%Z →
   length (data input) ≠ numel (shape input) →
   BatchNorm2d_forward l input output = Err (runtime_error Bn_data_size)).
Proof.
  unfold BatchNorm2d_forward.
  split; [|split; [|split]].
  - intros Hlen. by rewrite (proj2 (Nat.eqb_neq _ _) Hlen).
  - intros Hlen Hc. rewrite Hlen. simpl.
    destruct (shape input) as [|a [|b s]]; try done. simpl in Hc.
    change ((a :: b :: s) !!! 1) with b.
    destruct (Nat.eqb_spec b (num_features l)) as [->|]; done.
  - intros Hlen Hc H0. rewrite Hlen. simpl.
    rewrite (list_lookup_total_correct _ _ _ Hc), Nat.eqb_refl. simpl.
    by rewrite size_invalid_dims.
  - intros Hlen Hc H0 Hmax Hd. rewrite Hlen. simpl.
    rewrite (list_lookup_total_correct _ _ _ Hc), Nat.eqb_refl. simpl.
    rewrite size_numel; [| by intros E; rewrite E in Hlen | by apply positive_dims | done].
    rewrite bind_Ok. by rewrite (proj2 (Nat.eqb_neq _ _) Hd).
Qed.

Lemma BatchNorm3d_forward_checks (l : BatchNorm F) (input output : Tensor F) :
  (length (shape input) ≠ 5 →
   BatchNorm3d_forward l input output = Err (invalid_argument Bn_input_shape)) ∧
  (length (shape input) = 5 → shape input !! 1 ≠ Some (num_features l) →
   BatchNorm3d_forward l input output = Err (invalid_argument Bn_channels)) ∧
  (length (shape input) = 5 → shape input !! 1 = Some (num_features l) →
   0 ∈ shape input →
   BatchNorm3d_forward l input output = Err InvalidShape) ∧
  (length (shape input) = 5 → shape input !! 1 = Some (num_features l) →
   0 ∉ shape input → (Z.of_nat (numel (shape input)) ≤ SIZE_MAX)%Z →
   length (data input) ≠ numel (shape input) →
   BatchNorm3d_forward l input output = Err (runtime_error Bn_data_size)).
Proof.
  unfold BatchNorm3d_forward.
  split; [|split; [|split]].
  - intros Hlen. by rewrite (proj2 (Nat.eqb_neq _ _) Hlen).
  - intros Hlen Hc. rewrite Hlen. simpl.
    destruct (shape input) as [|a [|b s]]; try done. simpl in Hc.
    change ((a :: b :: s) !!! 1) with b.
    destruct (Nat.eqb_spec b (num_features l)) as [->|]; done.
  - intros Hlen Hc H0. rewrite Hlen. simpl.
    rewrite (list_lookup_total_correct _ _ _ Hc), Nat.eqb_refl. simpl.
    by rewrite size_invalid_dims.
  - intros Hlen Hc H0 Hmax Hd. rewrite Hlen. simpl.
    rewrite (list_lookup_total_correct _ _ _ Hc), Nat.eqb_refl. simpl.
    rewrite size_numel; [| by intros E; rewrite E in Hlen | by apply positive_dims | done].
    rewrite bind_Ok. by rewrite (proj2 (Nat.eqb_neq _ _) Hd).
Qed.
End BatchNormChecks.

(** The checks of [BatchNorm2d::forward] and [BatchNorm3d::forward], in the
    order they are made, [rank] being 4 and 5. *)
Definition forward_rejects {F : Type} {SF : Scalar F}
    (forward : BatchNorm F → Tensor F → Tensor F → result (BatchNorm F * Tensor F))
    (rank : nat) (l : BatchNorm F) (input output : Tensor F) : Prop :=
  (length (shape input) ≠ rank →
   forward l input output = Err (invalid_argument Bn_input_shape)) ∧
  (length (shape input) = rank → shape input !! 1 ≠ Some (num_features l) →
   forward l input output = Err (invalid_argument Bn_channels)) ∧
  (length (shape input) = rank → shape input !! 1 = Some (num_features l) →
   0 ∈ shape input →
   forward l input output = Err InvalidShape) ∧
  (length (shape input) = rank → shape input !! 1 = Some (num_features l) →
   0 ∉ shape input → (Z.of_nat (numel (shape input)) ≤ SIZE_MAX)%Z →
   length (data input) ≠ numel (shape input) →
   forward l input output = Err (runtime_error Bn_data_size)).

(** X12.  [BatchNorm2d::forward] and [BatchNorm3d::forward] reject, in this
    order: an input whose rank is not 4 (5); one whose second dimension is not
    [num_features]; one with a zero dimension; one whose data buffer does not
    hold as many elements as its shape says.  [BatchNorm1d::forward] rejects
    a rank other than 2 and a wrong feature count with one and the same
    exception, and a zero batch size or feature count with
    [invalid_argument("Invalid tensor shape")]. *)
Theorem X12_BatchNorm_forward_checks (F : Type) (SF : Scalar F)
    (l : BatchNorm F) (input output : Tensor F) :
  forward_rejects BatchNorm2d_forward 4 l input output ∧
  forward_rejects BatchNorm3d_forward 5 l input output ∧
  (length (shape input) ≠ 2 ∨ shape input !! 1 ≠ Some (num_features l) →
   BatchNorm1d_forward l input output = Err (invalid_argument Bn_input_shape)) ∧
  (∀ B, shape input = [B; num_features l] → B = 0 ∨ num_features l = 0 →
   BatchNorm1d_forward l input output = Err InvalidShape).
Proof.
  split; [exact (BatchNorm2d_forward_checks l input output)|].
  split; [exact (BatchNorm3d_forward_checks l input output)|].
  exact (BatchNorm1d_forward_checks l input output).
Qed.

Lemma X12_BatchNorm_forward_checks_witness :
  ∃ l,
    BatchNorm2d_new 1 (Binary32.decimal 1 5) (Binary32.decimal 1 1) true true
      (λ _, Binary32.of_Z 1) = Ok l ∧
    BatchNorm2d_forward l (mkTensor [2; 1; 1; 1] [Binary32.of_Z 1] []) Tensor_empty
    = Err (runtime_error Bn_data_size) ∧
    BatchNorm2d_forward l (mkTensor [2; 1; 0; 1] [] []) Tensor_empty = Err InvalidShape ∧
    BatchNorm2d_forward l (mkTensor [2; 3; 1; 1] [] []) Tensor_empty
    = Err (invalid_argument Bn_channels).
Proof.
  eexists. split; [vm_compute; reflexivity|]. split; [|split].
  - apply (X12_BatchNorm_forward_checks spec_float Binary32.binary32);
      [reflexivity | reflexivity | | vm_compute; discriminate | simpl; lia].
    by repeat (apply not_elem_of_cons; split; [done|]); apply not_elem_of_nil.
  - apply (X12_BatchNorm_forward_checks spec_float Binary32.binary32);
      [reflexivity | reflexivity |]. by right; right; left.
  - apply (X12_BatchNorm_forward_checks spec_float Binary32.binary32);
      [reflexivity | simpl; congruence].
Defined.

Section BatchNormBackwardChecks.
Context {F : Type} {SF : Scalar F}.

(** The checks of [BatchNorm2d::backward] and [BatchNorm3d::backward], in
    the order they are made. *)
Definition backward_rejects
    (backward : BatchNorm F → Tensor F → Tensor F → result (BatchNorm F * Tensor F))
    (rank : nat) (l : BatchNorm F) (grad_output grad_input : Tensor F) : Prop :=
  (input_data l = [] →
   backward l grad_output grad_input = Err (runtime_error Bn_no_input)) ∧
  (input_data l ≠ [] →
   length (shape grad_output) ≠ rank ∨ shape grad_output !! 1 ≠ Some (num_features l) →
   backward l grad_output grad_input = Err (invalid_argument Bn_grad_shape)) ∧
  (input_data l ≠ [] → length (shape grad_output) = rank →
   shape grad_output !! 1 = Some (num_features l) → grad grad_output ≠ [] →
   (Z.of_nat (numel (shape grad_output)) ≤ SIZE_MAX)%Z →
   (length (input_data l) ≠ numel (shape grad_output) →
    backward l grad_output grad_input = Err (runtime_error Bn_input_size)) ∧
   (length (input_data l) = numel (shape grad_output) → affine l = true →
    length (grad (gamma l)) ≠ num_features l ∨ length (grad (beta l)) ≠ num_features l →
    backward l grad_output grad_input = Err (runtime_error Bn_param_grad_size))).

Lemma nonempty_eqb {A} (v : list A) : v ≠ [] → (length v =? 0) = false.
Proof. destruct v; [done | by intros _]. Qed.

Lemma lookup_1_eqb (s : list nat) (n : nat) :
  2 ≤ length s → (s !!! 1 =? n) = true ↔ s !! 1 = Some n.
Proof.
  destruct s as [|a [|b s]]; simpl; try lia. intros _.
  change ((a :: b :: s) !!! 1) with b. rewrite Nat.eqb_eq. split; congruence.
Qed.

Lemma grad_shape_rejected (s : list nat) (rank n : nat) :
  2 ≤ rank →
  length s ≠ rank ∨ s !! 1 ≠ Some n →
  negb (length s =? rank) || negb (s !!! 1 =? n) = true.
Proof.
  intros Hrank Hbad. destruct (Nat.eqb_spec (length s) rank) as [Hlen|]; [|done].
  destruct Hbad as [|Hn]; [done|]. simpl.
  destruct (s !!! 1 =? n) eqn:E; [|done].
  apply lookup_1_eqb in E; [done | lia].
Qed.

Lemma grad_shape_accepted (s : list nat) (rank n : nat) :
  2 ≤ rank → length s = rank → s !! 1 = Some n →
  negb (length s =? rank) || negb (s !!! 1 =? n) = false.
Proof.
  intros Hrank Hlen Hn. rewrite Hlen, Nat.eqb_refl.
  by rewrite (proj2 (lookup_1_eqb s n ltac:(lia)) Hn).
Qed.

Lemma BatchNorm2d_backward_checks (l : BatchNorm F) (grad_output grad_input : Tensor F) :
  backward_rejects BatchNorm2d_backward 4 l grad_output grad_input.
Proof.
  unfold backward_rejects, BatchNorm2d_backward. split; [|split].
  - by intros ->.
  - intros Hx Hbad. rewrite (nonempty_eqb _ Hx).
    by rewrite grad_shape_rejected by (done || lia).
  - intros Hx Hlen Hc Hg Hmax.
    rewrite (nonempty_eqb _ Hx), (nonempty_eqb _ Hg).
    rewrite grad_shape_accepted by (done || lia).
    destruct (shape grad_output) as [|N [|C [|H [|W [|]]]]]; try done.
    simpl in Hc. injection Hc as ->.
    change ([N; num_features l; H; W] !!! 0) with N.
    change ([N; num_features l; H; W] !!! 2) with H.
    change ([N; num_features l; H; W] !!! 3) with W.
    rewrite numel_4 in *.
    rewrite <- !Nat2Z.inj_mul, wrap64_small by done.
    split.
    + intros Hd. by rewrite (proj2 (Nat.eqb_neq _ _) Hd).
    + intros Hd Ha Hsizes. rewrite Hd, Nat.eqb_refl, Ha. simpl.
      destruct Hsizes as [Hs|Hs]; rewrite (proj2 (Nat.eqb_neq _ _) Hs); simpl;
        [done | by rewrite orb_true_r].
Qed.

Lemma BatchNorm3d_backward_checks (l : BatchNorm F) (grad_output grad_input : Tensor F) :
  backward_rejects BatchNorm3d_backward 5 l grad_output grad_input.
Proof.
  unfold backward_rejects, BatchNorm3d_backward. split; [|split].
  - by intros ->.
  - intros Hx Hbad. rewrite (nonempty_eqb _ Hx).
    by rewrite grad_shape_rejected by (done || lia).
  - intros Hx Hlen Hc Hg Hmax.
    rewrite (nonempty_eqb _ Hx), (nonempty_eqb _ Hg).
    rewrite grad_shape_accepted by (done || lia).
    destruct (shape grad_output) as [|N [|C [|D [|H [|W [|]]]]]]; try done.
    simpl in Hc. injection Hc as ->.
    change ([N; num_features l; D; H; W] !!! 0) with N.
    change ([N; num_features l; D; H; W] !!! 2) with D.
    change ([N; num_features l; D; H; W] !!! 3) with H.
    change ([N; num_features l; D; H; W] !!! 4) with W.
    rewrite numel_5 in *.
    rewrite <- !Nat2Z.inj_mul, wrap64_small by done.
    split.
    + intros Hd. by rewrite (proj2 (Nat.eqb_neq _ _) Hd).
    + intros Hd Ha Hsizes. rewrite Hd, Nat.eqb_refl, Ha. simpl.
      destruct Hsizes as [Hs|Hs]; rewrite (proj2 (Nat.eqb_neq _ _) Hs); simpl;
        [done | by rewrite orb_true_r].
Qed.

Lemma BatchNorm1d_backward_checks (l : BatchNorm F) (grad_output grad_input : Tensor F) :
  (length (shape grad_output) ≠ 2 ∨ shape grad_output !! 1 ≠ Some (num_features l) →
   BatchNorm1d_backward l grad_output grad_input = Err (invalid_argument Bn_grad_shape)) ∧
  (∀ B, shape grad_output = [B; num_features l] → grad grad_output ≠ [] →
     (input_data l = [] →
      BatchNorm1d_backward l grad_output grad_input = Err (runtime_error Bn_no_input)) ∧
     (input_data l ≠ [] → (Z.of_nat (B * num_features l) ≤ SIZE_MAX)%Z →
      length (input_data l) ≠ B * num_features l →
      BatchNorm1d_backward l grad_output grad_input
      = Err (runtime_error Bn_input_size))).
Proof.
  unfold BatchNorm1d_backward. split.
  - intros Hbad. by rewrite grad_shape_rejected by (done || lia).
  - intros B Hs Hg. rewrite grad_shape_accepted by (rewrite ?Hs; (done || lia)).
    rewrite (nonempty_eqb _ Hg). split.
    + by intros ->.
    + intros Hx Hmax Hd. rewrite (nonempty_eqb _ Hx), Hs.
      change ([B; num_features l] !!! 0) with B.
      rewrite <- Nat2Z.inj_mul, wrap64_small by done.
      by rewrite (proj2 (Nat.eqb_neq _ _) Hd).
Qed.
End BatchNormBackwardChecks.

(** X13.  [backward] of a BatchNorm layer that never ran [forward] throws
    [runtime_error("input_data ... forward()")]: from [BatchNorm2d] and
    [BatchNorm3d] whatever the arguments, this being their first check, from
    [BatchNorm1d] once the shape and gradient checks have passed.  After a
    forward pass, a [grad_output] of another rank or channel count is
    rejected with [invalid_argument], one whose shape does not match the
    number of cached input elements with [runtime_error]; [BatchNorm2d] and
    [BatchNorm3d], not [BatchNorm1d], also reject an affine layer whose
    [gamma.grad] or [beta.grad] does not hold [num_features] elements. *)
Theorem X13_BatchNorm_backward_checks (F : Type) (SF : Scalar F)
    (l : BatchNorm F) (grad_output grad_input : Tensor F) :
  backward_rejects BatchNorm2d_backward 4 l grad_output grad_input ∧
  backward_rejects BatchNorm3d_backward 5 l grad_output grad_input ∧
  (length (shape grad_output) ≠ 2 ∨ shape grad_output !! 1 ≠ Some (num_features l) →
   BatchNorm1d_backward l grad_output grad_input = Err (invalid_argument Bn_grad_shape)) ∧
  (∀ B, shape grad_output = [B; num_features l] → grad grad_output ≠ [] →
     (input_data l = [] →
      BatchNorm1d_backward l grad_output grad_input = Err (runtime_error Bn_no_input)) ∧
     (input_data l ≠ [] → (Z.of_nat (B * num_features l) ≤ SIZE_MAX)%Z →
      length (input_data l) ≠ B * num_features l →
      BatchNorm1d_backward l grad_output grad_input
      = Err (runtime_error Bn_input_size))).
Proof.
  split; [apply BatchNorm2d_backward_checks|].
  split; [apply BatchNorm3d_backward_checks|].
  apply BatchNorm1d_backward_checks.
Qed.

Lemma X13_BatchNorm_backward_checks_witness :
  ∃ l,
    BatchNorm2d_new 1 (Binary32.decimal 1 5) (Binary32.decimal 1 1) true true
      (λ _, Binary32.of_Z 1) = Ok l ∧
    BatchNorm2d_backward l Reference_upstream2d32 Tensor_empty
    = Err (runtime_error Bn_no_input) ∧
    BatchNorm1d_backward l Reference_upstream1d32 Tensor_empty
    = Err (runtime_error Bn_no_input) ∧
    BatchNorm1d_backward Reference_bn32
      (mkTensor [3; 1] [] [Binary32.of_Z 1; Binary32.of_Z 2; Binary32.of_Z 3]) Tensor_empty
    = Err (runtime_error Bn_input_size).
Proof.
  eexists. split; [vm_compute; reflexivity|]. split; [|split].
  - match goal with
    | |- BatchNorm2d_backward ?l ?go ?gi = _ =>
        apply (proj1 (proj1 (X13_BatchNorm_backward_checks spec_float Binary32.binary32
                               l go gi)))
    end. reflexivity.
  - match goal with
    | |- BatchNorm1d_backward ?l ?go ?gi = _ =>
        apply (proj1 (proj2 (proj2 (proj2 (X13_BatchNorm_backward_checks spec_float
                                             Binary32.binary32 l go gi)))
                        2 eq_refl ltac:(discriminate)))
    end. reflexivity.
  - apply (proj2 (proj2 (proj2 (proj2 (X13_BatchNorm_backward_checks spec_float
                                         Binary32.binary32 Reference_bn32
                                         (mkTensor [3; 1] []
                                            [Binary32.of_Z 1; Binary32.of_Z 2;
                                             Binary32.of_Z 3]) Tensor_empty)))
                   3 eq_refl ltac:(discriminate)));
      [discriminate | vm_compute; discriminate | simpl; lia].
Defined.

(** ** BatchNorm: a forward pass followed by a backward pass *)

Section ForwardThenBackward.
Context {F : Type} {SF : Scalar F}.

(** [forward] succeeds, caches the data of [input] in the layer and gives
    the output the shape [dims]; on the layer it leaves, [backward] succeeds
    for every upstream tensor of shape [dims] whose [grad] is filled, and
    computes the parameter gradients from the cached data. *)
Definition forward_then_backward
    (forward backward : BatchNorm F → Tensor F → Tensor F
                        → result (BatchNorm F * Tensor F))
    (I : nat → list nat) (count C : nat) (dims : list nat) (zeroed : bool)
    (l : BatchNorm F) (input output : Tensor F) : Prop :=
  ∃ l' out,
    forward l input output = Ok (l', out) ∧
    input_data l' = data input ∧ shape out = dims ∧
    gamma l' = gamma l ∧ beta l' = beta l ∧
    ∀ grad_output grad_input,
      shape grad_output = dims → length (grad grad_output) = numel dims →
      parameter_grads_after backward I count C zeroed l' grad_output grad_input.

Lemma forward_spec_then_backward forward backward I count C dims zeroed
    (l : BatchNorm F) (input output : Tensor F) :
  forward_spec forward I count C dims l input output →
  bn_wf l →
  (∀ l' grad_output grad_input,
     bn_wf l' → affine l' = affine l → num_features l' = num_features l →
     input_data l' = data input →
     shape grad_output = dims → length (grad grad_output) = numel dims →
     parameter_grads_after backward I count C zeroed l' grad_output grad_input) →
  forward_then_backward forward backward I count C dims zeroed l input output.
Proof.
  intros (rm & rv & od & Hrun & Hlm & Hlv & _) [Hwa Hwt] Hback.
  eexists _, _. split; [exact Hrun|]. simpl.
  split; [done|]. split; [done|]. split; [done|]. split; [done|].
  intros grad_output grad_input Hs Hg. apply Hback; try done.
  split; simpl.
  - exact Hwa.
  - intros Ht. destruct (Hwt Ht). lia.
Qed.
End ForwardThenBackward.

(** X14.  On an affine BatchNorm layer whose buffers hold [num_features]
    elements, [forward] on a well-formed input caches the input data in the
    layer and leaves [gamma] and [beta] alone; a [backward] that follows, for
    any upstream tensor of the shape of the input whose [grad] is filled,
    succeeds and computes [beta.grad] and [gamma.grad] from the cached data:
    the pair of calls composes for each of the three variants. *)
Theorem X14_BatchNorm_forward_then_backward (F : Type) (SF : Scalar F)
    (l : BatchNorm F) (input output : Tensor F) :
  affine l = true → bn_wf l →
  (∀ B, shape input = [B; num_features l] → length (data input) = B * num_features l →
     0 < B → 0 < num_features l →
     (Z.of_nat (B * num_features l) ≤ vector_max_size)%Z →
     forward_then_backward BatchNorm1d_forward BatchNorm1d_backward
       (channel1d B (num_features l)) B (num_features l) [B; num_features l] false
       l input output) ∧
  (∀ N C H W, shape input = [N; C; H; W] → num_features l = C →
     length (data input) = N * C * H * W →
     0 < N → 0 < C → 0 < H → 0 < W →
     (Z.of_nat (N * C * H * W) ≤ vector_max_size)%Z →
     forward_then_backward BatchNorm2d_forward BatchNorm2d_backward
       (channel2d N C H W) (N * H * W) C [N; C; H; W] true l input output) ∧
  (∀ N C D H W, shape input = [N; C; D; H; W] → num_features l = C →
     length (data input) = N * C * D * H * W →
     0 < N → 0 < C → 0 < D → 0 < H → 0 < W →
     (Z.of_nat (N * C * D * H * W) ≤ vector_max_size)%Z →
     forward_then_backward BatchNorm3d_forward BatchNorm3d_backward
       (channel3d N C D H W) (N * D * H * W) C [N; C; D; H; W] true l input output).
Proof.
  intros Ha Hwf. split; [|split].
  - intros B Hs Hlen HB Hnf Hmax.
    apply forward_spec_then_backward; [by apply BatchNorm1d_forward_spec | done |].
    intros l' go gi Hwf' Ha' Hnf' Hx' Hsg Hg. rewrite numel_2 in Hg.
    rewrite <- Hnf' in *.
    apply BatchNorm1d_backward_spec; try done; [congruence | by rewrite Hx'].
  - intros N C H W Hs Hnf Hlen HN HC HH HW Hmax.
    apply forward_spec_then_backward; [by apply BatchNorm2d_forward_spec | done |].
    intros l' go gi Hwf' Ha' Hnf' Hx' Hsg Hg. rewrite numel_4 in Hg.
    apply BatchNorm2d_backward_spec; try done; [congruence | congruence | by rewrite Hx'].
  - intros N C D H W Hs Hnf Hlen HN HC HD HH HW Hmax.
    apply forward_spec_then_backward; [by apply BatchNorm3d_forward_spec | done |].
    intros l' go gi Hwf' Ha' Hnf' Hx' Hsg Hg. rewrite numel_5 in Hg.
    apply BatchNorm3d_backward_spec; try done; [congruence | congruence | by rewrite Hx'].
Qed.

Lemma X14_BatchNorm_forward_then_backward_witness :
  let input := mkTensor [4; 2] (Binary32.of_Z <$> [1; 2; 3; 4; 5; 6; 7; 8]%Z) [] in
  let upstream := mkTensor [4; 2] [] (replicate 8 (Binary32.of_Z 1)) in
  ∃ l l' out l'' gi,
    BatchNorm1d_new 2 (Binary32.decimal 1 5) (Binary32.decimal 1 1) true true
      (λ _, Binary32.of_Z 1) = Ok l ∧
    BatchNorm1d_forward l input Tensor_empty = Ok (l', out) ∧
    BatchNorm1d_backward l' upstream Tensor_empty = Ok (l'', gi) ∧
    grad (beta l'') !! 0 = Some (Binary32.of_Z 4).
Proof.
  intros input upstream.
  assert (∃ l, BatchNorm1d_new 2 (Binary32.decimal 1 5) (Binary32.decimal 1 1) true true
                 (λ _, Binary32.of_Z 1) = Ok l) as [l Hnew]
    by (eexists; vm_compute; reflexivity).
  destruct (BatchNorm_new_wf _ _ _ _ _ _ _ Hnew ltac:(lia) ltac:(vm_compute; discriminate))
    as (Hnf & Hwf & _ & Ha & _).
  destruct (proj1 (X14_BatchNorm_forward_then_backward spec_float Binary32.binary32
                     l input Tensor_empty Ha Hwf) 4)
    as (l' & out & Hrun & _ & _ & _ & Hbeta & Hback);
    rewrite ?Hnf; try reflexivity; try lia; [vm_compute; discriminate|].
  destruct (Hback upstream Tensor_empty) as (l'' & gi & Hrun' & _ & _ & Hsum);
    rewrite ?Hnf; try reflexivity.
  exists l, l', out, l'', gi. split; [exact Hnew|]. split; [exact Hrun|].
  split; [exact Hrun'|].
  destruct (Hsum 0) as [Hb _]; [lia|]. rewrite Hb, Hbeta.
  vm_compute in Hnew. injection Hnew as <-. vm_compute. reflexivity.
Defined.

(** ** BatchNorm: the output *)

Lemma rowmajor_split (i n m : nat) :
  0 < m → i < n * m → ∃ a b, a < n ∧ b < m ∧ i = a * m + b.
Proof.
  intros Hm Hi. exists (i / m), (i mod m).
  pose proof (Nat.div_mod_eq i m). pose proof (Nat.mod_upper_bound i m ltac:(lia)).
  split; [|split; [done | lia]].
  apply Nat.Div0.div_lt_upper_bound. lia.
Qed.

(** Every position of a tensor belongs to a channel. *)
Lemma channel1d_cover B nf i :
  0 < nf → i < B * nf → ∃ f, f < nf ∧ i ∈ channel1d B nf f.
Proof.
  intros Hnf Hi. destruct (rowmajor_split i B nf Hnf Hi) as (b & f & Hb & Hf & ->).
  exists f. split; [done|]. apply elem_of_channel1d. by exists b.
Qed.

Lemma channel2d_cover N C H W i :
  0 < C → 0 < H → 0 < W → i < N * C * H * W → ∃ c, c < C ∧ i ∈ channel2d N C H W c.
Proof.
  intros HC HH HW Hi.
  destruct (rowmajor_split i (N * C * H) W HW Hi) as (i1 & w & Hi1 & Hw & ->).
  destruct (rowmajor_split i1 (N * C) H HH Hi1) as (i2 & h & Hi2 & Hh & ->).
  destruct (rowmajor_split i2 N C HC Hi2) as (n & c & Hn & Hc & ->).
  exists c. split; [done|]. apply elem_of_channel2d. exists n, h, w.
  split; [done|]. split; [done|]. split; [done|]. lia.
Qed.

Lemma channel3d_cover N C D H W i :
  0 < C → 0 < D → 0 < H → 0 < W → i < N * C * D * H * W →
  ∃ c, c < C ∧ i ∈ channel3d N C D H W c.
Proof.
  intros HC HD HH HW Hi.
  destruct (rowmajor_split i (N * C * D * H) W HW Hi) as (i1 & w & Hi1 & Hw & ->).
  destruct (rowmajor_split i1 (N * C * D) H HH Hi1) as (i2 & h & Hi2 & Hh & ->).
  destruct (rowmajor_split i2 (N * C) D HD Hi2) as (i3 & d & Hi3 & Hd & ->).
  destruct (rowmajor_split i3 N C HC Hi3) as (n & c & Hn & Hc & ->).
  exists c. split; [done|]. apply elem_of_channel3d. exists n, d, h, w.
  split; [done|]. split; [done|]. split; [done|]. split; [done|]. lia.
Qed.

Section BatchNormOutput.
Context {F : Type} {SF : Scalar F}.

(** Two layers that normalise alike: they agree on the members [forward]
    reads to compute its output. *)
Definition same_normalisation (l1 l2 : BatchNorm F) : Prop :=
  num_features l1 = num_features l2 ∧ eps l1 = eps l2 ∧ affine l1 = affine l2 ∧
  data (gamma l1) = data (gamma l2) ∧ data (beta l1) = data (beta l2).

(** The two calls succeed and return the same shape and data. *)
Definition same_output
    (forward : BatchNorm F → Tensor F → Tensor F → result (BatchNorm F * Tensor F))
    (l1 l2 : BatchNorm F) (input output1 output2 : Tensor F) : Prop :=
  ∃ l1' l2' out1 out2,
    forward l1 input output1 = Ok (l1', out1) ∧
    forward l2 input output2 = Ok (l2', out2) ∧
    shape out1 = shape out2 ∧ data out1 = data out2.

Lemma list_eq_cover (d1 d2 : list F) (n C : nat) (I : nat → list nat) (val : nat → nat → F) :
  length d1 = n → length d2 = n →
  (∀ i, i < n → ∃ c, c < C ∧ i ∈ I c) →
  (∀ c i, c < C → i ∈ I c → d1 !! i = Some (val c i)) →
  (∀ c i, c < C → i ∈ I c → d2 !! i = Some (val c i)) →
  d1 = d2.
Proof.
  intros H1 H2 Hcover V1 V2. apply list_eq. intros i.
  destruct (decide (i < n)) as [Hi|Hi].
  - destruct (Hcover i Hi) as (c & Hc & Hin). by rewrite (V1 c), (V2 c).
  - rewrite !lookup_ge_None_2 by lia. done.
Qed.

Lemma forward_spec_same_output forward I count C dims
    (l1 l2 : BatchNorm F) (input output1 output2 : Tensor F) :
  same_normalisation l1 l2 →
  (∀ i, i < numel dims → ∃ c, c < C ∧ i ∈ I c) →
  forward_spec forward I count C dims l1 input output1 →
  forward_spec forward I count C dims l2 input output2 →
  same_output forward l1 l2 input output1 output2.
Proof.
  intros (Hnf & Heps & Haff & Hgam & Hbet) Hcover
    (rm1 & rv1 & od1 & Hrun1 & _ & _ & _ & _ & Hl1 & Hv1)
    (rm2 & rv2 & od2 & Hrun2 & _ & _ & _ & _ & Hl2 & Hv2).
  eexists _, _, _, _. split; [exact Hrun1|]. split; [exact Hrun2|]. simpl.
  split; [done|].
  apply (list_eq_cover od1 od2 (numel dims) C I
           (λ c i, bn_output l1 c (bn_x_hat (data input) (I c) count (eps l1) i)));
    try done.
  intros c i Hc Hi. rewrite (Hv2 c i Hc Hi). f_equal.
  unfold bn_output. by rewrite Haff, Hgam, Hbet, Heps.
Qed.
End BatchNormOutput.

(** X15.  The output of a BatchNorm [forward] is computed from the batch
    alone: the running statistics, [momentum], [track_running_stats] and
    [first_update] are never read for it (there is no inference mode).  Two
    layers that agree on [num_features], [eps], [affine] and the data of
    [gamma] and [beta] return the same output shape and data on the same
    input, whatever their other members and the output tensors hold. *)
Theorem X15_BatchNorm_output_from_batch (F : Type) (SF : Scalar F)
    (l1 l2 : BatchNorm F) (input output1 output2 : Tensor F) :
  same_normalisation l1 l2 → bn_wf l1 → bn_wf l2 →
  (∀ B, shape input = [B; num_features l1] →
     length (data input) = B * num_features l1 →
     0 < B → 0 < num_features l1 →
     (Z.of_nat (B * num_features l1) ≤ vector_max_size)%Z →
     same_output BatchNorm1d_forward l1 l2 input output1 output2) ∧
  (∀ N C H W, shape input = [N; C; H; W] → num_features l1 = C →
     length (data input) = N * C * H * W →
     0 < N → 0 < C → 0 < H → 0 < W →
     (Z.of_nat (N * C * H * W) ≤ vector_max_size)%Z →
     same_output BatchNorm2d_forward l1 l2 input output1 output2) ∧
  (∀ N C D H W, shape input = [N; C; D; H; W] → num_features l1 = C →
     length (data input) = N * C * D * H * W →
     0 < N → 0 < C → 0 < D → 0 < H → 0 < W →
     (Z.of_nat (N * C * D * H * W) ≤ vector_max_size)%Z →
     same_output BatchNorm3d_forward l1 l2 input output1 output2).
Proof.
  intros Hsame Hwf1 Hwf2. pose proof Hsame as (Hnf & _).
  split; [|split].
  - intros B Hs Hlen HB Hpos Hmax.
    apply (forward_spec_same_output _ (channel1d B (num_features l1)) B
             (num_features l1) [B; num_features l1]); [done | | |].
    + intros i Hi. rewrite numel_2 in Hi. by apply channel1d_cover.
    + by apply BatchNorm1d_forward_spec.
    + rewrite Hnf in *. by apply BatchNorm1d_forward_spec.
  - intros N C H W Hs HC Hlen HN HCp HH HW Hmax.
    apply (forward_spec_same_output _ (channel2d N C H W) (N * H * W) C [N; C; H; W]);
      [done | | |].
    + intros i Hi. rewrite numel_4 in Hi. by apply channel2d_cover.
    + by apply BatchNorm2d_forward_spec.
    + apply BatchNorm2d_forward_spec; try done. congruence.
  - intros N C D H W Hs HC Hlen HN HCp HD HH HW Hmax.
    apply (forward_spec_same_output _ (channel3d N C D H W) (N * D * H * W) C
             [N; C; D; H; W]); [done | | |].
    + intros i Hi. rewrite numel_5 in Hi. by apply channel3d_cover.
    + by apply BatchNorm3d_forward_spec.
    + apply BatchNorm3d_forward_spec; try done. congruence.
Qed.

(** X15 on the reference layer and a copy with other running statistics,
    [momentum] and flags. *)
Lemma X15_BatchNorm_output_from_batch_witness :
  let other :=
    mkBatchNorm 1 (Binary32.decimal 1 5) (Binary32.decimal 5 1) true true
      (mkTensor [1] [Binary32.of_Z 1] [Binary32.of_Z 0])
      (mkTensor [1] [Binary32.of_Z 0] [Binary32.of_Z 0])
      (mkTensor [1] [Binary32.of_Z 9] []) (mkTensor [1] [Binary32.of_Z 4] []) [] true in
  let input := mkTensor [2; 1] [Binary32.of_Z 1; Binary32.of_Z 3] [] in
  same_output BatchNorm1d_forward Reference_bn32 other input Tensor_empty input.
Proof.
  intros other input.
  apply (proj1 (X15_BatchNorm_output_from_batch spec_float Binary32.binary32
                  Reference_bn32 other input Tensor_empty input
                  ltac:(repeat split; reflexivity)
                  ltac:(split; intros _; repeat split; reflexivity)
                  ltac:(split; intros _; repeat split; reflexivity)) 2);
    [reflexivity | reflexivity | lia | simpl; lia | vm_compute; discriminate].
Defined.

Section BatchNormChannels.
Context {F : Type} {SF : Scalar F}.

(** The statistics of a channel read the input at the positions of that
    channel only. *)
Lemma bn_mean_ext (X1 X2 : list F) (I : list nat) (count : nat) :
  (∀ i, i ∈ I → X1 !!! i = X2 !!! i) → bn_mean X1 I count = bn_mean X2 I count.
Proof. intros HX. unfold bn_mean. f_equal. by apply fsum_over_ext. Qed.

Lemma bn_var_ext (X1 X2 : list F) (I : list nat) (count : nat) :
  (∀ i, i ∈ I → X1 !!! i = X2 !!! i) → bn_var X1 I count = bn_var X2 I count.
Proof.
  intros HX. unfold bn_var. f_equal. apply fsum_over_ext. intros i Hi.
  by rewrite (bn_mean_ext X1 X2), HX.
Qed.

Lemma bn_x_hat_ext (X1 X2 : list F) (I : list nat) (count : nat) (eps : F) (i : nat) :
  (∀ i, i ∈ I → X1 !!! i = X2 !!! i) → i ∈ I →
  bn_x_hat X1 I count eps i = bn_x_hat X2 I count eps i.
Proof.
  intros HX Hi. unfold bn_x_hat.
  by rewrite (bn_mean_ext X1 X2), (bn_var_ext X1 X2), HX.
Qed.

(** Two calls on inputs that agree on channel [c]: both succeed, and they
    agree on channel [c] of the output and on the running statistics of
    channel [c]. *)
Definition same_on_channel
    (forward : BatchNorm F → Tensor F → Tensor F → result (BatchNorm F * Tensor F))
    (I : nat → list nat) (C : nat) (l : BatchNorm F)
    (input1 input2 output1 output2 : Tensor F) : Prop :=
  ∀ c, c < C →
    (∀ i, i ∈ I c → data input1 !! i = data input2 !! i) →
    ∃ l1 l2 out1 out2,
      forward l input1 output1 = Ok (l1, out1) ∧
      forward l input2 output2 = Ok (l2, out2) ∧
      (∀ i, i ∈ I c → data out1 !! i = data out2 !! i) ∧
      data (running_mean l1) !! c = data (running_mean l2) !! c ∧
      data (running_var l1) !! c = data (running_var l2) !! c.

Lemma forward_spec_same_on_channel forward I count C dims
    (l : BatchNorm F) (input1 input2 output1 output2 : Tensor F) :
  forward_spec forward I count C dims l input1 output1 →
  forward_spec forward I count C dims l input2 output2 →
  same_on_channel forward I C l input1 input2 output1 output2.
Proof.
  intros (rm1 & rv1 & od1 & Hrun1 & _ & _ & Hun1 & Htr1 & _ & Hv1)
         (rm2 & rv2 & od2 & Hrun2 & _ & _ & Hun2 & Htr2 & _ & Hv2) c Hc Hsame.
  assert (∀ i, i ∈ I c → data input1 !!! i = data input2 !!! i) as Hsame'.
  { intros i Hi. by rewrite !list_lookup_total_alt, (Hsame i Hi). }
  eexists _, _, _, _. split; [exact Hrun1|]. split; [exact Hrun2|]. simpl.
  split; [|].
  - intros i Hi. rewrite (Hv1 c i Hc Hi), (Hv2 c i Hc Hi).
    by rewrite (bn_x_hat_ext (data input1) (data input2)).
  - destruct (track_running_stats l) eqn:Etr.
    + destruct (Htr1 eq_refl c Hc) as [Hm1 Hr1].
      destruct (Htr2 eq_refl c Hc) as [Hm2 Hr2].
      rewrite Hm1, Hm2, Hr1, Hr2.
      by rewrite (bn_mean_ext (data input1) (data input2)),
                 (bn_var_ext (data input1) (data input2)).
    + destruct (Hun1 eq_refl) as [-> ->]. destruct (Hun2 eq_refl) as [-> ->]. done.
Qed.
End BatchNormChannels.

(** X16.  A BatchNorm [forward] normalises every channel on its own: the
    output on channel [c], and the running mean and variance of channel [c],
    are computed from the input elements of channel [c] alone.  Two inputs
    of one shape that agree on the positions of a channel give the same
    output on these positions and the same running statistics for the
    channel, whatever they hold elsewhere; this holds in any arithmetic, for
    the 1d, 2d and 3d variants. *)
Theorem X16_BatchNorm_channels_independent (F : Type) (SF : Scalar F)
    (l : BatchNorm F) (input1 input2 output1 output2 : Tensor F) :
  bn_wf l → shape input2 = shape input1 →
  length (data input2) = length (data input1) →
  (∀ B, shape input1 = [B; num_features l] →
     length (data input1) = B * num_features l →
     0 < B → 0 < num_features l →
     (Z.of_nat (B * num_features l) ≤ vector_max_size)%Z →
     same_on_channel BatchNorm1d_forward (channel1d B (num_features l)) (num_features l)
       l input1 input2 output1 output2) ∧
  (∀ N C H W, shape input1 = [N; C; H; W] → num_features l = C →
     length (data input1) = N * C * H * W →
     0 < N → 0 < C → 0 < H → 0 < W →
     (Z.of_nat (N * C * H * W) ≤ vector_max_size)%Z →
     same_on_channel BatchNorm2d_forward (channel2d N C H W) C
       l input1 input2 output1 output2) ∧
  (∀ N C D H W, shape input1 = [N; C; D; H; W] → num_features l = C →
     length (data input1) = N * C * D * H * W →
     0 < N → 0 < C → 0 < D → 0 < H → 0 < W →
     (Z.of_nat (N * C * D * H * W) ≤ vector_max_size)%Z →
     same_on_channel BatchNorm3d_forward (channel3d N C D H W) C
       l input1 input2 output1 output2).
Proof.
  intros Hwf Hshape Hlen. split; [|split].
  - intros B Hs Hl HB Hpos Hmax.
    apply (forward_spec_same_on_channel _ _ B _ [B; num_features l]).
    + by apply BatchNorm1d_forward_spec.
    + apply BatchNorm1d_forward_spec; try done; congruence.
  - intros N C H W Hs HC Hl HN HCp HH HW Hmax.
    apply (forward_spec_same_on_channel _ _ (N * H * W) _ [N; C; H; W]).
    + by apply BatchNorm2d_forward_spec.
    + apply BatchNorm2d_forward_spec; try done; congruence.
  - intros N C D H W Hs HC Hl HN HCp HD HH HW Hmax.
    apply (forward_spec_same_on_channel _ _ (N * D * H * W) _ [N; C; D; H; W]).
    + by apply BatchNorm3d_forward_spec.
    + apply BatchNorm3d_forward_spec; try done; congruence.
Qed.

(** X16 on a layer of two features and two batches of two rows that differ
    in the second feature only: the first column of the two outputs is the
    same. *)
Lemma X16_BatchNorm_channels_independent_witness :
  let l :=
    mkBatchNorm 2 (Binary32.decimal 1 5) (Binary32.decimal 1 1) true true
      (mkTensor [2] (Binary32.of_Z <$> [1; 2]%Z) (Binary32.of_Z <$> [0; 0]%Z))
      (mkTensor [2] (Binary32.of_Z <$> [0; 1]%Z) (Binary32.of_Z <$> [0; 0]%Z))
      (mkTensor [2] (Binary32.of_Z <$> [0; 0]%Z) [])
      (mkTensor [2] (Binary32.of_Z <$> [1; 1]%Z) []) [] true in
  let input1 := mkTensor [2; 2] (Binary32.of_Z <$> [1; 5; 3; 9]%Z) [] in
  let input2 := mkTensor [2; 2] (Binary32.of_Z <$> [1; -4; 3; 70]%Z) [] in
  ∃ l1 l2 out1 out2,
    BatchNorm1d_forward l input1 Tensor_empty = Ok (l1, out1) ∧
    BatchNorm1d_forward l input2 Tensor_empty = Ok (l2, out2) ∧
    (∀ i, i ∈ channel1d 2 2 0 → data out1 !! i = data out2 !! i) ∧
    data (running_mean l1) !! 0 = data (running_mean l2) !! 0 ∧
    data (running_var l1) !! 0 = data (running_var l2) !! 0.
Proof.
  intros l input1 input2.
  apply (proj1 (X16_BatchNorm_channels_independent spec_float Binary32.binary32
                  l input1 input2 Tensor_empty Tensor_empty
                  ltac:(split; intros _; repeat split; reflexivity)
                  eq_refl eq_refl) 2);
    [reflexivity | reflexivity | lia | simpl; lia | vm_compute; discriminate
    | simpl; lia |].
  intros i Hi. apply elem_of_channel1d in Hi as (b & Hb & ->).
  destruct b as [|[|b]]; [reflexivity | reflexivity | lia].
Defined.


(** ** BatchNorm: the three variants agree *)

Lemma bind_singleton {A B} (f : A → list B) (x : A) : ([x] ≫= f) = f x.
Proof. simpl. apply app_nil_r. Qed.

Lemma channel2d_flat (N C c : nat) : channel2d N C 1 1 c = channel1d N C c.
Proof.
  unfold channel2d, channel1d. induction (seq 0 N) as [|n ns IH]; [done|].
  rewrite bind_cons, IH. simpl. f_equal. lia.
Qed.

Lemma channel3d_flat (N C c : nat) : channel3d N C 1 1 1 c = channel1d N C c.
Proof.
  unfold channel3d, channel1d. induction (seq 0 N) as [|n ns IH]; [done|].
  rewrite bind_cons, IH. simpl. f_equal. lia.
Qed.

Section BatchNormAgree.
Context {F : Type} {SF : Scalar F}.

(** Two calls succeed, leave the same layer and return the same data. *)
Definition same_result
    (forward1 forward2 : BatchNorm F → Tensor F → Tensor F
                         → result (BatchNorm F * Tensor F))
    (l : BatchNorm F) (input1 input2 output1 output2 : Tensor F) : Prop :=
  ∃ l' out1 out2,
    forward1 l input1 output1 = Ok (l', out1) ∧
    forward2 l input2 output2 = Ok (l', out2) ∧
    data out1 = data out2.

Lemma forward_spec_agree forward1 forward2 I1 I2 count C dims1 dims2
    (l : BatchNorm F) (input1 input2 output1 output2 : Tensor F) :
  data input1 = data input2 →
  (∀ c, c < C → I2 c = I1 c) → numel dims2 = numel dims1 →
  (∀ i, i < numel dims1 → ∃ c, c < C ∧ i ∈ I1 c) →
  bn_wf l → num_features l = C →
  forward_spec forward1 I1 count C dims1 l input1 output1 →
  forward_spec forward2 I2 count C dims2 l input2 output2 →
  same_result forward1 forward2 l input1 input2 output1 output2.
Proof.
  intros Hdata HI Hnumel Hcover [_ Hwt] Hnf
    (rm1 & rv1 & od1 & Hrun1 & Hlm1 & Hlv1 & Hun1 & Htr1 & Hl1 & Hv1)
    (rm2 & rv2 & od2 & Hrun2 & Hlm2 & Hlv2 & Hun2 & Htr2 & Hl2 & Hv2).
  assert (rm2 = rm1 ∧ rv2 = rv1) as [-> ->].
  { destruct (track_running_stats l) eqn:Ht.
    - destruct (Hwt eq_refl) as [Hm Hv]. rewrite Hnf in Hm, Hv. split.
      + apply (list_eq_lookup_some _ _ C
                 (λ c, running_update (first_update l) (momentum l)
                         (data (running_mean l) !!! c)
                         (bn_mean (data input1) (I1 c) count))); [lia | lia | |].
        * intros c Hc. destruct (Htr2 eq_refl c Hc) as [-> _].
          by rewrite (HI c Hc), Hdata.
        * intros c Hc. by destruct (Htr1 eq_refl c Hc) as [-> _].
      + apply (list_eq_lookup_some _ _ C
                 (λ c, running_update (first_update l) (momentum l)
                         (data (running_var l) !!! c)
                         (bn_var (data input1) (I1 c) count))); [lia | lia | |].
        * intros c Hc. destruct (Htr2 eq_refl c Hc) as [_ ->].
          by rewrite (HI c Hc), Hdata.
        * intros c Hc. by destruct (Htr1 eq_refl c Hc) as [_ ->].
    - destruct (Hun1 eq_refl) as [-> ->]. by destruct (Hun2 eq_refl) as [-> ->]. }
  eexists _, _, _. split; [exact Hrun1|]. rewrite Hdata. split; [exact Hrun2|]. simpl.
  apply (list_eq_cover od1 od2 (numel dims1) C I1
           (λ c i, bn_output l c (bn_x_hat (data input1) (I1 c) count (eps l) i)));
    [done | lia | done | done |].
  intros c i Hc Hi. rewrite <- (HI c Hc) in Hi. rewrite (Hv2 c i Hc Hi).
  by rewrite (HI c Hc), Hdata.
Qed.
End BatchNormAgree.

(** X17.  The three BatchNorm variants agree where their inputs do: on the
    same data, [BatchNorm2d::forward] of an input of shape [[N, C, 1, 1]] and
    [BatchNorm3d::forward] of one of shape [[N, C, 1, 1, 1]] leave the layer
    in the same state (cached input, running statistics, [first_update]) and
    return the same output data as [BatchNorm1d::forward] of the input of
    shape [[N, C]]. *)
Theorem X17_BatchNorm_variants_agree (F : Type) (SF : Scalar F)
    (l : BatchNorm F) (input1 input2 input3 output1 output2 output3 : Tensor F)
    (N : nat) :
  bn_wf l →
  shape input1 = [N; num_features l] →
  shape input2 = [N; num_features l; 1; 1] →
  shape input3 = [N; num_features l; 1; 1; 1] →
  data input2 = data input1 → data input3 = data input1 →
  length (data input1) = N * num_features l →
  0 < N → 0 < num_features l →
  (Z.of_nat (N * num_features l) ≤ vector_max_size)%Z →
  same_result BatchNorm1d_forward BatchNorm2d_forward l input1 input2 output1 output2 ∧
  same_result BatchNorm1d_forward BatchNorm3d_forward l input1 input3 output1 output3.
Proof.
  intros Hwf Hs1 Hs2 Hs3 Hd2 Hd3 Hlen HN Hnf Hmax.
  pose proof (BatchNorm1d_forward_spec l input1 output1 N Hwf Hs1 Hlen HN Hnf Hmax)
    as Hspec1.
  assert (∀ i, i < numel [N; num_features l] →
            ∃ c, c < num_features l ∧ i ∈ channel1d N (num_features l) c) as Hcover.
  { intros i Hi. rewrite numel_2 in Hi. by apply channel1d_cover. }
  split.
  - apply (forward_spec_agree _ _ (channel1d N (num_features l))
             (channel2d N (num_features l) 1 1) N (num_features l)
             [N; num_features l] [N; num_features l; 1; 1]); try done.
    + intros c _. apply channel2d_flat.
    + replace N with (N * 1 * 1) at 2 by lia.
      apply BatchNorm2d_forward_spec; try done; try lia.
      rewrite Hd2, Hlen. lia.
  - apply (forward_spec_agree _ _ (channel1d N (num_features l))
             (channel3d N (num_features l) 1 1 1) N (num_features l)
             [N; num_features l] [N; num_features l; 1; 1; 1]); try done.
    + intros c _. apply channel3d_flat.
    + replace N with (N * 1 * 1 * 1) at 2 by lia.
      apply BatchNorm3d_forward_spec; try done; try lia.
      rewrite Hd3, Hlen. lia.
Qed.

Lemma X17_BatchNorm_variants_agree_witness :
  let d := [Binary32.of_Z 1; Binary32.of_Z 3] in
  same_result BatchNorm1d_forward BatchNorm2d_forward Reference_bn32
    (mkTensor [2; 1] d []) (mkTensor [2; 1; 1; 1] d []) Tensor_empty Tensor_empty.
Proof.
  intros d.
  apply (X17_BatchNorm_variants_agree spec_float Binary32.binary32 Reference_bn32
           (mkTensor [2; 1] d []) (mkTensor [2; 1; 1; 1] d [])
           (mkTensor [2; 1; 1; 1; 1] d []) Tensor_empty Tensor_empty Tensor_empty 2);
    try reflexivity; try (simpl; lia);
    [split; intros _; repeat split; reflexivity | vm_compute; discriminate].
Defined.

(** ** BatchNorm: the constructor *)

(** X18.  The constructor of the three BatchNorm variants throws
    [invalid_argument("Invalid tensor shape")] for [num_features = 0] when
    the layer is affine or tracks running statistics, and builds a layer
    without any buffer when it is neither.  Such a layer cannot be built with
    more features than a [std::vector<float>] holds either
    ([max_size() = 2^61 - 1]): the first [resize] throws [std::length_error].
    For a positive [num_features] up to that limit the new layer has cached
    no input and has [first_update] set; an affine layer holds the draws in
    [gamma], zeros in [beta] and zeroed gradients of [num_features] elements;
    a tracking layer starts with [running_mean] and [running_var] both all
    zero. *)
Theorem X18_BatchNorm_new (F : Type) (SF : Scalar F)
    (nf : nat) (epsilon mom : F) (aff track : bool) (dis : nat → F) :
  (nf = 0 → aff = true ∨ track = true →
   BatchNorm_new nf epsilon mom aff track dis = Err InvalidShape) ∧
  (nf = 0 → aff = false → track = false →
   BatchNorm_new nf epsilon mom aff track dis
   = Ok (mkBatchNorm 0 epsilon mom false false
           Tensor_empty Tensor_empty Tensor_empty Tensor_empty [] true)) ∧
  ((vector_max_size < Z.of_nat nf ≤ SIZE_MAX)%Z → aff = true ∨ track = true →
   BatchNorm_new nf epsilon mom aff track dis = Err length_error) ∧
  (0 < nf → (Z.of_nat nf ≤ vector_max_size)%Z →
   ∃ l, BatchNorm_new nf epsilon mom aff track dis = Ok l ∧
        num_features l = nf ∧ eps l = epsilon ∧ momentum l = mom ∧
        affine l = aff ∧ track_running_stats l = track ∧
        input_data l = [] ∧ first_update l = true ∧
        (aff = true →
         (∀ i, i < nf → data (gamma l) !! i = Some (dis i)) ∧
         length (data (gamma l)) = nf ∧
         data (beta l) = replicate nf f0 ∧
         grad (gamma l) = replicate nf f0 ∧ grad (beta l) = replicate nf f0) ∧
        (aff = false → gamma l = Tensor_empty ∧ beta l = Tensor_empty) ∧
        (track = true →
         data (running_mean l) = replicate nf f0 ∧
         data (running_var l) = replicate nf f0) ∧
        (track = false → running_mean l = Tensor_empty ∧ running_var l = Tensor_empty)).
Proof.
  split; [|split; [|split]].
  - intros -> Hflag. unfold BatchNorm_new.
    destruct aff.
    + rewrite (resize_invalid (mkTensor [0] [] [])); [done|]. right. by left.
    + destruct Hflag as [Ha|Ht]; [done|]. subst track. rewrite bind_Ok.
      rewrite (resize_invalid (mkTensor [0] [] [])); [done|]. right. by left.
  - intros -> -> ->. reflexivity.
  - intros Hlong Hflag. unfold BatchNorm_new.
    assert (resize (mkTensor [nf] [] []) = Err length_error) as Hthrow.
    { apply resize_too_long; simpl shape;
        [done | repeat constructor; unfold vector_max_size in Hlong; lia
        | by rewrite numel_1]. }
    destruct aff.
    + by rewrite Hthrow.
    + destruct Hflag as [Ha|Ht]; [done|]. subst track. rewrite bind_Ok.
      by rewrite Hthrow.
  - intros Hnf Hmax.
    destruct (BatchNorm_new_spec nf epsilon mom aff track dis Hnf Hmax)
      as (gd & Hnew & Hlen & Hgd).
    eexists. split; [exact Hnew|]. simpl.
    do 7 (split; [done|]).
    split; [intros ->; done|]. split; [intros ->; done|].
    split; [intros ->; done|]. intros ->; done.
Qed.

(** * Printing and parameter lists *)

From stdpp Require Import strings pretty.

(** ** vector_to_string *)

(** A [std::stringstream] is the text written to it so far; [ss << x]
    appends.  [show] is [operator<<] of the element type. *)
Definition vector_to_string {T : Type} (show : T → string) (vec : list T) (limit : nat)
    : result string :=
  let ss := "[" in
  let preview_size := limit `min` length vec in
  ss ← for_range preview_size (λ i ss,
        x ← vget vec i;
        let ss := ss +:+ show x in
        Ok (if i <? wrap64 (Z.of_nat preview_size - 1) then ss +:+ ", " else ss)) ss;
  let ss := if preview_size <? length vec then ss +:+ ", ..." else ss in
  Ok (ss +:+ "]").

Lemma string_app_cons (a : Ascii.ascii) (s t : string) :
  String a s +:+ t = String a (s +:+ t).
Proof. reflexivity. Qed.

Lemma string_app_assoc (s1 s2 s3 : string) : s1 +:+ (s2 +:+ s3) = (s1 +:+ s2) +:+ s3.
Proof.
  induction s1 as [|a s1 IH]; [done|]. by rewrite !string_app_cons, IH.
Qed.

Lemma string_app_nil_r (s : string) : s +:+ "" = s.
Proof. induction s as [|a s IH]; [done|]. by rewrite string_app_cons, IH. Qed.

(** The loop of [vector_to_string] from index [from] on writes the elements
    separated by [", "]. *)
Lemma vector_to_string_loop {T : Type} (show : T → string) (vec : list T) (p : nat) :
  p ≤ length vec → (Z.of_nat p ≤ SIZE_MAX)%Z →
  ∀ (count from : nat) (ss : string),
    from + count = p →
    for_loop (λ i ss,
        x ← vget vec i;
        Ok (if i <? wrap64 (Z.of_nat p - 1) then (ss +:+ show x) +:+ ", "
            else ss +:+ show x)) from count ss
    = Ok (ss +:+ String.concat ", " (show <$> take count (drop from vec))).
Proof.
  intros Hp Hmax count.
  destruct (decide (p = 0)) as [->|Hpos].
  { intros from ss Hsum. assert (count = 0) as -> by lia.
    simpl. by rewrite string_app_nil_r. }
  replace (Z.of_nat p - 1)%Z with (Z.of_nat (p - 1)) by lia.
  rewrite wrap64_small by lia.
  induction count as [|count IH]; intros from ss Hsum.
  - simpl. by rewrite string_app_nil_r.
  - simpl for_loop.
    destruct (lookup_lt_is_Some_2 vec from ltac:(lia)) as [x Hx].
    rewrite (vget_lookup _ _ _ Hx), !bind_Ok, IH by lia.
    rewrite (drop_S _ _ _ Hx). simpl take. rewrite fmap_cons.
    destruct count as [|count].
    + rewrite (proj2 (Nat.ltb_ge _ _)) by lia.
      change (String.concat ", " (show x :: (show <$> take 0 (drop (S from) vec))))
        with (show x).
      change (String.concat ", " (show <$> take 0 (drop (S from) vec))) with "".
      by rewrite string_app_nil_r.
    + rewrite (proj2 (Nat.ltb_lt _ _)) by lia.
      destruct (lookup_lt_is_Some_2 vec (S from) ltac:(lia)) as [y Hy].
      rewrite (drop_S _ _ _ Hy). simpl take. rewrite fmap_cons.
      change (String.concat ", "
                (show x :: show y :: (show <$> take count (drop (S (S from)) vec))))
        with (show x +:+ ", " +:+ String.concat ", "
                (show y :: (show <$> take count (drop (S (S from)) vec)))).
      by rewrite !string_app_assoc.
Qed.

(** X19.  [vector_to_string(vec, limit)] returns ["["], the first [limit]
    elements of [vec] separated by [", "], then [", ..."] if [vec] holds more
    than [limit] elements, then ["]"]; no element past the limit is printed
    and no index outside [vec] is read.  With [limit = 0] a non-empty vector
    prints as ["[, ...]"]. *)
Theorem X19_vector_to_string (T : Type) (show : T → string) (vec : list T) (limit : nat) :
  (Z.of_nat limit ≤ SIZE_MAX)%Z →
  vector_to_string show vec limit
  = Ok ("[" +:+ String.concat ", " (show <$> take limit vec)
        +:+ (if limit <? length vec then ", ..." else "") +:+ "]").
Proof.
  intros Hmax. unfold vector_to_string, for_range. cbv zeta.
  rewrite (vector_to_string_loop show vec (limit `min` length vec)) by lia.
  rewrite bind_Ok, drop_0.
  assert (take (limit `min` length vec) vec = take limit vec) as ->.
  { destruct (decide (limit ≤ length vec)) as [Hle|Hgt].
    - by rewrite Nat.min_l by done.
    - rewrite Nat.min_r by lia. by rewrite !take_ge by lia. }
  destruct (limit <? length vec) eqn:Hlt.
  - apply Nat.ltb_lt in Hlt. rewrite Nat.min_l by lia.
    rewrite (proj2 (Nat.ltb_lt _ _) Hlt). by rewrite !string_app_assoc.
  - apply Nat.ltb_ge in Hlt. rewrite Nat.min_r by lia.
    rewrite Nat.ltb_irrefl. by rewrite string_app_assoc.
Qed.

Lemma X19_vector_to_string_witness :
  vector_to_string pretty [1; 2; 3; 4; 5; 6; 7] 5 = Ok "[1, 2, 3, 4, 5, ...]" ∧
  vector_to_string pretty [1; 2] 5 = Ok "[1, 2]" ∧
  vector_to_string pretty [7] 0 = Ok "[, ...]".
Proof.
  split; [|split].
  - rewrite X19_vector_to_string by (vm_compute; discriminate). reflexivity.
  - rewrite X19_vector_to_string by (vm_compute; discriminate). reflexivity.
  - rewrite X19_vector_to_string by (vm_compute; discriminate). reflexivity.
Defined.

(** ** to_string and parameters *)

(** ["\n"] *)
Definition newline : string := String (Ascii.ascii_of_nat 10) "".

(** A [Tensor*] returned by [parameters()]: the member of a layer it points
    to. *)
Inductive member : Set := Weight | Bias | Gamma | Beta.

#[export] Instance member_eq_dec : EqDecision member.
Proof. solve_decision. Defined.

Section Printing.
Context {F : Type} {SF : Scalar F}.

Definition Linear_to_string (l : Linear F) : result string :=
  let ss := "Linear(in_features=" in
  in_features ← vget (shape (weight l)) 0;
  let ss := ss +:+ pretty in_features +:+ ", out_features=" in
  out_features ← vget (shape (weight l)) 1;
  Ok (ss +:+ pretty out_features +:+ ")").

Definition BatchNorm1d_to_string (l : BatchNorm F) : string :=
  "BatchNorm1d(" +:+ pretty (num_features l) +:+ ")".
Definition BatchNorm2d_to_string (l : BatchNorm F) : string :=
  "BatchNorm2d(" +:+ pretty (num_features l) +:+ ")".
Definition BatchNorm3d_to_string (l : BatchNorm F) : string :=
  "BatchNorm3d(" +:+ pretty (num_features l) +:+ ")".

(** [layer->to_string()]. *)
Definition Layer_to_string (layer : Layer F) : result string :=
  match layer with
  | Linear_layer l => Linear_to_string l
  | ReLU_layer => Ok "ReLU()"
  | Sigmoid_layer => Ok "Sigmoid()"
  | Tanh_layer => Ok "Tanh()"
  | BatchNorm1d_layer l => Ok (BatchNorm1d_to_string l)
  | BatchNorm2d_layer l => Ok (BatchNorm2d_to_string l)
  | BatchNorm3d_layer l => Ok (BatchNorm3d_to_string l)
  end.

Definition Model_to_string (m : Model F) : result string :=
  foldM (λ layer ss, s ← Layer_to_string layer; Ok (ss +:+ s +:+ newline)) (layers m) "".

(** [layer->parameters()]. *)
Definition Layer_parameters (layer : Layer F) : list member :=
  match layer with
  | Linear_layer _ => [Weight; Bias]
  | ReLU_layer | Sigmoid_layer | Tanh_layer => []
  | BatchNorm1d_layer l | BatchNorm2d_layer l | BatchNorm3d_layer l =>
      if affine l then [Gamma; Beta] else []
  end.

(** [Model::parameters]: a pointer into the layer [layers[i]] is the index
    [i] with the member. *)
Definition Model_parameters (m : Model F) : list (nat * member) :=
  (foldl (λ '(params, i) layer,
            (params ++ ((λ mb, (i, mb)) <$> Layer_parameters layer), S i))
     ([], 0) (layers m)).1.

(** [*p] for a pointer [p] of [parameters()]. *)
Definition parameter (m : Model F) (p : nat * member) : result (Tensor F) :=
  layer ← vget (layers m) p.1;
  match layer, p.2 with
  | Linear_layer l, Weight => Ok (weight l)
  | Linear_layer l, Bias => Ok (bias l)
  | BatchNorm1d_layer l, Gamma | BatchNorm2d_layer l, Gamma
  | BatchNorm3d_layer l, Gamma => Ok (gamma l)
  | BatchNorm1d_layer l, Beta | BatchNorm2d_layer l, Beta
  | BatchNorm3d_layer l, Beta => Ok (beta l)
  | _, _ => Err Undefined
  end.

(** The pointers of the layers [ls], the first of which has index [k]. *)
Fixpoint parameters_from (k : nat) (ls : list (Layer F)) : list (nat * member) :=
  match ls with
  | [] => []
  | layer :: ls => ((λ mb, (k, mb)) <$> Layer_parameters layer) ++ parameters_from (S k) ls
  end.

Lemma parameters_loop (ls : list (Layer F)) (params : list (nat * member)) (k : nat) :
  foldl (λ '(params, i) layer,
           (params ++ ((λ mb, (i, mb)) <$> Layer_parameters layer), S i))
    (params, k) ls
  = (params ++ parameters_from k ls, k + length ls).
Proof.
  revert params k. induction ls as [|layer ls IH]; intros params k.
  - simpl. by rewrite app_nil_r, Nat.add_0_r.
  - simpl. rewrite IH. f_equal; [by rewrite <- app_assoc | lia].
Qed.

Lemma Model_parameters_from (m : Model F) :
  Model_parameters m = parameters_from 0 (layers m).
Proof. unfold Model_parameters. by rewrite parameters_loop. Qed.

Lemma parameters_from_app (k : nat) (ls1 ls2 : list (Layer F)) :
  parameters_from k (ls1 ++ ls2)
  = parameters_from k ls1 ++ parameters_from (k + length ls1) ls2.
Proof.
  revert k. induction ls1 as [|layer ls1 IH]; intros k.
  - simpl. by rewrite Nat.add_0_r.
  - simpl. rewrite IH, <- app_assoc. do 3 f_equal. lia.
Qed.

Lemma elem_of_parameters_from (k : nat) (ls : list (Layer F)) (i : nat) (mb : member) :
  (i, mb) ∈ parameters_from k ls
  ↔ ∃ layer, k ≤ i ∧ ls !! (i - k) = Some layer ∧ mb ∈ Layer_parameters layer.
Proof.
  revert k. induction ls as [|layer ls IH]; intros k.
  - simpl. split; [by intros ?%elem_of_nil | by intros (? & _ & ? & _)].
  - simpl. rewrite elem_of_app, IH, list_elem_of_fmap. split.
    + intros [(mb' & [= -> ->] & Hmb) | (layer' & Hk & Hl & Hmb)].
      * exists layer. rewrite Nat.sub_diag. done.
      * exists layer'. split; [lia|]. split; [|done].
        replace (i - k) with (S (i - S k)) by lia. done.
    + intros (layer' & Hk & Hl & Hmb). destruct (decide (i = k)) as [->|Hne].
      * left. rewrite Nat.sub_diag in Hl. injection Hl as <-. by exists mb.
      * right. exists layer'. split; [lia|]. split; [|done].
        replace (i - k) with (S (i - S k)) in Hl by lia. done.
Qed.

Lemma Layer_parameters_NoDup (layer : Layer F) : NoDup (Layer_parameters layer).
Proof.
  destruct layer as [l| | | |l|l|l]; simpl; try destruct (affine l);
    by apply (bool_decide_unpack _).
Qed.

Lemma parameters_from_NoDup (k : nat) (ls : list (Layer F)) :
  NoDup (parameters_from k ls).
Proof.
  revert k. induction ls as [|layer ls IH]; intros k; [constructor|].
  simpl. apply NoDup_app. split; [|split; [|apply IH]].
  - apply NoDup_fmap_2; [|apply Layer_parameters_NoDup]. by intros mb1 mb2 [= ->].
  - intros [i mb] (mb' & [= -> ->] & _)%list_elem_of_fmap
      (layer' & Hk & _)%elem_of_parameters_from. lia.
Qed.
End Printing.

(** X20.  [Model::parameters] lists, in the order of the layers, exactly the
    parameter tensors of the layers: [weight] and [bias] of every Linear,
    [gamma] and [beta] of every affine BatchNorm, nothing for an activation or
    a non-affine BatchNorm.  No tensor is listed twice, every pointer of the
    list points to a tensor of the model, and adding a layer appends the
    pointers of that layer. *)
Theorem X20_Model_parameters (F : Type) (SF : Scalar F) (m : Model F) :
  NoDup (Model_parameters m) ∧
  (∀ i mb, (i, mb) ∈ Model_parameters m
           ↔ ∃ layer, layers m !! i = Some layer ∧ mb ∈ Layer_parameters layer) ∧
  (∀ p, p ∈ Model_parameters m → ∃ t, parameter m p = Ok t) ∧
  (∀ layer,
     Model_parameters (add_layer m layer)
     = Model_parameters m
       ++ ((λ mb, (length (layers m), mb)) <$> Layer_parameters layer)).
Proof.
  assert (∀ i mb, (i, mb) ∈ Model_parameters m
            ↔ ∃ layer, layers m !! i = Some layer ∧ mb ∈ Layer_parameters layer) as Hin.
  { intros i mb. rewrite Model_parameters_from, elem_of_parameters_from.
    rewrite Nat.sub_0_r. split.
    - intros (layer & _ & Hl & Hmb). by exists layer.
    - intros (layer & Hl & Hmb). exists layer. split; [lia | done]. }
  split; [|split; [done|split]].
  - rewrite Model_parameters_from. apply parameters_from_NoDup.
  - intros [i mb] (layer & Hl & Hmb)%Hin. unfold parameter. simpl.
    rewrite (vget_lookup _ _ _ Hl), bind_Ok.
    destruct layer as [l| | | |l|l|l]; simpl in Hmb; try destruct (affine l);
      try (by apply elem_of_nil in Hmb);
      destruct mb; eauto;
      repeat (apply elem_of_cons in Hmb as [Hmb|Hmb]; [done|]);
      by apply elem_of_nil in Hmb.
  - intros layer. rewrite !Model_parameters_from. unfold add_layer. simpl.
    rewrite parameters_from_app. simpl. by rewrite app_nil_r.
Qed.

Lemma X20_Model_parameters_witness :
  Model_parameters Reference_model32 = [(0, Weight); (0, Bias); (2, Weight); (2, Bias)] ∧
  ∃ t, parameter Reference_model32 (2, Bias) = Ok t ∧ shape t = [1].
Proof.
  split; [reflexivity|].
  destruct (proj1 (proj2 (proj2 (X20_Model_parameters spec_float Binary32.binary32
                                   Reference_model32))) (2, Bias)) as [t Ht].
  - by apply (bool_decide_unpack _).
  - exists t. split; [exact Ht|]. vm_compute in Ht. by injection Ht as <-.
Defined.

Section PrintingFacts.
Context {F : Type} {SF : Scalar F}.

Lemma Linear_new_shape (inF outF : nat) (dis : nat → F) (l : Linear F) :
  Linear_new inF outF dis = Ok l →
  shape (weight l) = [inF; outF] ∧ shape (bias l) = [outF].
Proof.
  unfold Linear_new. intros (w & Hw & Hrest)%bind_eq_Ok.
  apply bind_eq_Ok in Hrest as (wd & _ & Hrest).
  apply bind_eq_Ok in Hrest as (b & Hb & Hrest).
  apply bind_eq_Ok in Hrest as (bd & _ & [= <-]).
  apply resize_inv in Hw as (n & _ & _ & ->).
  apply resize_inv in Hb as (n' & _ & _ & ->). done.
Qed.

Lemma Model_to_string_add_layer (m : Model F) (layer : Layer F) :
  Model_to_string (add_layer m layer)
  = (s ← Model_to_string m; t ← Layer_to_string layer; Ok (s +:+ t +:+ newline)).
Proof.
  unfold Model_to_string, add_layer. simpl layers. rewrite foldM_app.
  destruct (foldM _ (layers m) "") as [s|e]; [|done]. rewrite !bind_Ok.
  simpl. by destruct (Layer_to_string layer).
Qed.
End PrintingFacts.

(** X21.  [Model::to_string] writes one line per layer, in the order the
    layers were added: the text of a model with one more layer is the text of
    the model, then [to_string()] of the new layer, then a newline; a model
    without layers prints as the empty string.  A Linear layer built by the
    constructor prints its two feature counts in decimal. *)
Theorem X21_to_string (F : Type) (SF : Scalar F) :
  Model_to_string (Model_new (F := F)) = Ok "" ∧
  (∀ (m : Model F) (layer : Layer F),
     Model_to_string (add_layer m layer)
     = (s ← Model_to_string m; t ← Layer_to_string layer; Ok (s +:+ t +:+ newline))) ∧
  (∀ (inF outF : nat) (dis : nat → F) (l : Linear F),
     Linear_new inF outF dis = Ok l →
     Layer_to_string (Linear_layer l)
     = Ok ("Linear(in_features=" +:+ pretty inF +:+ ", out_features="
           +:+ pretty outF +:+ ")")).
Proof.
  split; [reflexivity|]. split; [apply Model_to_string_add_layer|].
  intros inF outF dis l [Hw _]%Linear_new_shape.
  unfold Layer_to_string, Linear_to_string. rewrite Hw.
  change (vget [inF; outF] 0) with (Ok (A:=nat) inF).
  change (vget [inF; outF] 1) with (Ok (A:=nat) outF).
  rewrite !bind_Ok. cbv zeta. by rewrite !string_app_assoc.
Qed.

Lemma X21_to_string_witness :
  Model_to_string Reference_model32
  = Ok ("Linear(in_features=3, out_features=2)" +:+ newline +:+ "ReLU()" +:+ newline
        +:+ "Linear(in_features=2, out_features=1)" +:+ newline).
Proof.
  unfold Reference_model32.
  rewrite !(proj1 (proj2 (X21_to_string spec_float Binary32.binary32))).
  reflexivity.
Defined.

(** ** Linear::forward and the output tensor *)

Section LinearOutput.
Context {F : Type} {SF : Scalar F}.

Lemma Linear_forward_zero (l : Linear F) (input output : Tensor F)
    (inF outF batch : nat) (rest : list nat) :
  shape (weight l) = [inF; outF] → shape input = batch :: rest →
  batch = 0 ∨ outF = 0 →
  Linear_forward l input output = Err InvalidShape.
Proof.
  intros Hw Hs Hzero. unfold Linear_forward. rewrite Hw, Hs.
  change (vget [inF; outF] 0) with (Ok (A:=nat) inF).
  change (vget [inF; outF] 1) with (Ok (A:=nat) outF).
  change (vget (batch :: rest) 0) with (Ok (A:=nat) batch).
  rewrite !bind_Ok. rewrite resize_invalid; [done|].
  right. simpl. destruct Hzero as [-> | ->]; [by left | by right; left].
Qed.
End LinearOutput.

(** X22.  [Linear::forward] overwrites every cell of [output.data] and sets
    [output.shape]: for a well-formed layer and input, two calls with
    different [output] tensors return the same shape and the same data, so
    that stale contents of a reused output tensor never show.  With a batch
    size or an [out_features] of zero the call throws
    [invalid_argument("Invalid tensor shape")]. *)
Theorem X22_Linear_forward_output (F : Type) (SF : Scalar F)
    (l : Linear F) (input output1 output2 : Tensor F) (inF outF batch : nat) :
  shape (weight l) = [inF; outF] →
  (length (data (weight l)) = inF * outF → length (data (bias l)) = outF →
   shape input = [batch; inF] → length (data input) = batch * inF →
   0 < batch → 0 < outF → (Z.of_nat (batch * outF) ≤ vector_max_size)%Z →
   ∃ out1 out2,
     Linear_forward l input output1 = Ok out1 ∧
     Linear_forward l input output2 = Ok out2 ∧
     shape out1 = shape out2 ∧ data out1 = data out2) ∧
  (∀ rest, shape input = batch :: rest → batch = 0 ∨ outF = 0 →
     Linear_forward l input output1 = Err InvalidShape).
Proof.
  intros Hws. split.
  - intros Hw Hb Hs Hx Hbatch Hout Hmax.
    destruct (Linear_forward_spec l input output1 inF outF batch)
      as (out1 & Hrun1 & Hs1 & Hl1 & _ & Hv1); try done.
    destruct (Linear_forward_spec l input output2 inF outF batch)
      as (out2 & Hrun2 & Hs2 & Hl2 & _ & Hv2); try done.
    exists out1, out2. split; [done|]. split; [done|]. split; [congruence|].
    apply list_eq. intros i. destruct (decide (i < batch * outF)) as [Hi|Hi].
    + destruct (rowmajor_split i batch outF Hout Hi) as (b & j & Hb' & Hj & ->).
      by rewrite Hv1, Hv2.
    + rewrite !lookup_ge_None_2 by lia. done.
  - intros rest Hs Hzero. by apply (Linear_forward_zero l input output1 inF outF batch rest).
Qed.

Lemma X22_Linear_forward_output_witness :
  ∃ out1 out2,
    Linear_forward Reference.linear32 Reference.input32 Tensor_empty = Ok out1 ∧
    Linear_forward Reference.linear32 Reference.input32
      (mkTensor [7] (replicate 7 (Binary32.of_Z 9)) []) = Ok out2 ∧
    shape out1 = shape out2 ∧ data out1 = data out2.
Proof.
  apply (proj1 (X22_Linear_forward_output spec_float Binary32.binary32
                  Reference.linear32 Reference.input32 Tensor_empty
                  (mkTensor [7] (replicate 7 (Binary32.of_Z 9)) []) 3 2 2 eq_refl));
    try reflexivity; try lia. vm_compute. discriminate.
Defined.

(** ** Model: a forward pass followed by a backward pass *)

(** X23.  [Model::forward] establishes what the guard of [Model::backward]
    asks for: after a successful forward pass on a model with at least one
    layer, the guard of [backward] passes, and [backward] is the backward
    sweep over the layers and the activations the forward pass left. *)
Theorem X23_Model_forward_then_backward (F : Type) (SF : Scalar F)
    (m m' : Model F) (input output out grad_output grad_input : Tensor F) :
  layers m ≠ [] → (Z.of_nat (length (layers m)) ≤ 2 ^ 31)%Z →
  Model_forward m input output = Ok (m', out) →
  length (activations m') = length (layers m') - 1 ∧
  Model_backward m' grad_output grad_input
  = ('(rls, rslots, input') ←
       sweep_back (reverse (layers m')) (reverse (activations m')) grad_output grad_input;
     Ok (mkModel (reverse rls) (reverse rslots), input')).
Proof.
  intros Hne Hmax Hrun.
  rewrite Model_forward_stream in Hrun by (done || unfold tensors_max_size; lia).
  apply bind_eq_Ok in Hrun as ([[ls slots] o] & Hstream & Hrun).
  injection Hrun as <- <-. apply stream_lengths in Hstream as [Hl Hs].
  rewrite length_resize in Hs. simpl.
  split; [lia|].
  apply Model_backward_sweep; simpl.
  - intros ->. destruct (layers m); done.
  - lia.
  - lia.
Qed.

Lemma X23_Model_forward_then_backward_witness :
  ∃ m' out,
    Model_forward Reference_model32 Reference.input32 Tensor_empty = Ok (m', out) ∧
    length (activations m') = length (layers m') - 1 ∧
    Model_backward m' out Reference.input32
    = ('(rls, rslots, input') ←
         sweep_back (reverse (layers m')) (reverse (activations m')) out Reference.input32;
       Ok (mkModel (reverse rls) (reverse rslots), input')).
Proof.
  assert (∃ m' out, Model_forward Reference_model32 Reference.input32 Tensor_empty
                    = Ok (m', out)) as (m' & out & Hrun)
    by (eexists _, _; vm_compute; reflexivity).
  exists m', out. split; [exact Hrun|].
  apply (X23_Model_forward_then_backward spec_float Binary32.binary32
           Reference_model32 m' Reference.input32 Tensor_empty out out Reference.input32
           ltac:(discriminate) ltac:(vm_compute; discriminate) Hrun).
Defined.

(** * ReLU: a forward pass followed by a backward pass *)

Section ReLUForwardBackward.
Context {F : Type} {SF : Scalar F}.

(** [backward] tests the sign of the forward output; that is the sign test
    of the input, as [std::max(0.0f, x)] is positive only where [x] is. *)
Lemma ReLU_grad_relu (x g : F) :
  flt f0 f0 = false → ReLU_grad (relu x) g = if flt f0 x then g else f0.
Proof.
  intros H0. unfold ReLU_grad, relu.
  destruct (flt f0 x) eqn:E; [by rewrite E | by rewrite H0].
Qed.
End ReLUForwardBackward.

(** X24.  ReLU run as a training step runs it: [forward(input, output)],
    the upstream gradient [dy] stored in [output.grad], then
    [backward(output, input)].  Both calls succeed, [input.shape] and
    [input.data] are kept, and [input.grad[i]] is [dy[i]] where
    [input.data[i] > 0] and [0.0f] elsewhere: the gradient passes exactly
    where the input was positive, although [backward] only looks at the
    output.  This holds in every arithmetic in which [0 < 0] is false, so in
    binary32, where a NaN input blocks the gradient. *)
Theorem X24_ReLU_forward_then_backward (F : Type) (SF : Scalar F)
    (input output : Tensor F) (dy : list F) :
  flt f0 f0 = false →
  shape input ≠ [] → 0 ∉ shape input →
  (Z.of_nat (numel (shape input)) ≤ vector_max_size)%Z →
  length (data input) = numel (shape input) →
  length dy = numel (shape input) →
  ∃ out input',
    ReLU_forward input output = Ok out ∧
    ReLU_backward (with_grad out dy) input = Ok input' ∧
    shape input' = shape input ∧ data input' = data input ∧
    length (grad input') = numel (shape input) ∧
    ∀ i x g, data input !! i = Some x → dy !! i = Some g →
      grad input' !! i = Some (if flt f0 x then g else f0).
Proof.
  intros Hirr Hne H0 Hmax Hld Hldy.
  destruct (proj2 (ReLU_forward_spec input output) Hne H0 Hmax ltac:(lia))
    as (out & Hrun & Hs & _ & Hlo & Hdata & _).
  destruct (ReLU_backward_spec (with_grad out dy) input Hne (positive_dims _ H0) Hmax)
    as (input' & Hback & Hs' & Hd' & Hlg & Hgrad); [simpl; lia | simpl; lia |].
  exists out, input'. do 5 (split; [done|]).
  intros i x g Hx Hg.
  assert (i < length (data input)) as Hi by (by apply lookup_lt_Some in Hx).
  rewrite Hgrad by (simpl; lia). simpl.
  rewrite (list_lookup_total_correct _ _ _ Hg).
  erewrite (list_lookup_total_correct (data out) i) by (by apply Hdata).
  rewrite (list_lookup_total_correct _ _ _ Hx). f_equal. by apply ReLU_grad_relu.
Qed.

(** X24 in binary32 on the input [[2, -3, NaN]] with upstream gradient
    [[5, 6, 7]]: the gradient is [[5, 0, 0]]. *)
Lemma X24_ReLU_forward_then_backward_witness :
  let input := mkTensor [3] [Binary32.of_Z 2; Binary32.of_Z (-3); S754_nan] [] in
  ∃ out input',
    ReLU_forward (SF := Binary32.binary32) input Tensor_empty = Ok out ∧
    ReLU_backward (with_grad out (Binary32.of_Z <$> [5; 6; 7]%Z)) input = Ok input' ∧
    grad input' !! 0 = Some (Binary32.of_Z 5) ∧
    grad input' !! 1 = Some (S754_zero false) ∧
    grad input' !! 2 = Some (S754_zero false).
Proof.
  intros input.
  destruct (X24_ReLU_forward_then_backward spec_float Binary32.binary32
              input Tensor_empty (Binary32.of_Z <$> [5; 6; 7]%Z))
    as (out & input' & Hrun & Hback & _ & _ & _ & Hgrad);
    [reflexivity | done | by apply (bool_decide_unpack _) | vm_compute; discriminate
    | reflexivity | reflexivity |].
  exists out, input'. split; [exact Hrun|]. split; [exact Hback|].
  split; [|split].
  - apply (Hgrad 0 (Binary32.of_Z 2) (Binary32.of_Z 5)); reflexivity.
  - apply (Hgrad 1 (Binary32.of_Z (-3)) (Binary32.of_Z 6)); reflexivity.
  - apply (Hgrad 2 S754_nan (Binary32.of_Z 7)); reflexivity.
Defined.
